(** * separated-webshell: one container per user, many shell sessions

    A verification model of [workspace/workspace_impl.go]: the registry of
    per-user containers ([containerMap]), [Workspace.Create],
    [Workspace.Connect] and the goroutines a session starts. *)

From Stdlib Require Import NArith Lia.
From Stdlib.Strings Require Import Byte.
From stdpp Require Import base option list gmap strings.

Open Scope string_scope.

(** ** Errors

    A Go [error] value is one of: an error handed back by the Docker client
    (for which [errdefs.IsConflict] may hold), an [errors.New] value, or a
    [fmt.Errorf("...: %w", err)] wrapper. [option error] is a nilable
    [error]. *)

Inductive error : Type :=
| ClientError (conflict : bool) (msg : string)
| ErrorsNew (msg : string)
| Errorf (msg : string) (wrapped : error).

(** [errdefs.IsConflict(err)]; false on [nil]. *)
Definition IsConflict (err : option error) : bool :=
  match err with
  | Some (ClientError c _) => c
  | _ => false
  end.

(** ** Output demultiplexing frames *)

Inductive StdType : Type := Stdout | Stderr.

#[global] Instance StdType_eq_dec : EqDecision StdType.
Proof. solve_decision. Defined.

Definition Frame : Type := (StdType * list byte)%type.

Definition byte_of_N (n : N) : byte :=
  match Byte.of_N (n mod 256) with
  | Some b => b
  | None => x00
  end.

(** [binary.BigEndian.PutUint32] on [uint32(n)] and [binary.BigEndian.Uint32]. *)
Definition PutUint32 (n : N) : list byte :=
  [ byte_of_N (N.shiftr n 24); byte_of_N (N.shiftr n 16);
    byte_of_N (N.shiftr n 8); byte_of_N n ].

Definition Uint32 (b3 b2 b1 b0 : byte) : N :=
  N.lor (N.shiftl (Byte.to_N b3) 24)
    (N.lor (N.shiftl (Byte.to_N b2) 16)
       (N.lor (N.shiftl (Byte.to_N b1) 8) (Byte.to_N b0))).

Definition byte_eqb (a b : byte) : bool := N.eqb (Byte.to_N a) (Byte.to_N b).

Section Framing.

(** The fixed convention naming each output stream by one byte. *)
Variable selector : StdType -> byte.

Definition stream_of (b : byte) : option StdType :=
  if byte_eqb b (selector Stdout) then Some Stdout
  else if byte_eqb b (selector Stderr) then Some Stderr
  else None.

(** Modelled from the spec: the frame writer lives in the container
    runtime, outside this repository. One record is a 1-byte stream
    selector, 3 reserved zero bytes, the payload length as 4 big-endian
    bytes, then the payload. *)
Definition encode_frame (f : Frame) : list byte :=
  selector (fst f) :: x00 :: x00 :: x00
    :: PutUint32 (N.of_nat (length (snd f))) ++ snd f.

Definition encode (fs : list Frame) : list byte :=
  concat (map encode_frame fs).

(** Modelled from the spec: [stdcopy.StdCopy] is library code that is not
    part of this repository's sources. It reads 8-byte headers followed by
    exactly the announced number of payload bytes, repeated until the
    stream ends; the result is the sequence of writes made to the two
    destination writers and the error, if any. *)
Fixpoint decode_aux (fuel : nat) (bs : list byte) : list Frame * option error :=
  match bs with
  | [] => ([], None)
  | b0 :: _ :: _ :: _ :: l3 :: l2 :: l1 :: l0 :: rest =>
      match fuel with
      | O => ([], Some (ErrorsNew "unexpected EOF"))
      | S fuel' =>
          match stream_of b0 with
          | None => ([], Some (ErrorsNew "Unrecognized input header"))
          | Some st =>
              let n := N.to_nat (Uint32 l3 l2 l1 l0) in
              if decide (n <= length rest) then
                let '(fs, e) := decode_aux fuel' (drop n rest) in
                ((st, take n rest) :: fs, e)
              else ([], Some (ErrorsNew "unexpected EOF"))
          end
      end
  | _ => ([], Some (ErrorsNew "unexpected EOF"))
  end.

Definition decode (bs : list byte) : list Frame * option error :=
  decode_aux (length bs) bs.

End Framing.

(** A payload fits a frame when its length fits the 4-byte length field. *)
Definition fits (f : Frame) : Prop := (N.of_nat (length (snd f)) < 4294967296)%N.

(** What a destination writer has received after a sequence of writes. *)
Definition written (st : StdType) (fs : list Frame) : list byte :=
  concat (map snd (filter (fun f => fst f = st) fs)).

(** The convention given by the specification: 0 is stdout, 1 is stderr. *)
Definition spec_selector (st : StdType) : byte :=
  match st with Stdout => x00 | Stderr => x01 end.

(** [stdcopy.StdCopy] as called on line 174. *)
Definition StdCopy : list byte -> list Frame * option error := decode spec_selector.

(** ** Data model *)

(** [domain.UserName] *)
Abbreviation UserName := string (only parsing).

(** Addresses of heap-allocated [containerInfo] structs. *)
Abbreviation loc := nat (only parsing).

(** Identifier of the I/O endpoints one [Connect] call is given. *)
Abbreviation sid := nat (only parsing).

(** A value stored in the [sync.Map]: it has static type [interface{}], so
    it is a [*containerInfo] or a value of some other dynamic type. *)
Inductive any : Type :=
| PtrContainerInfo (p : loc)
| OtherValue (dyntype : string).

(** [chan struct{}]: the elements carry no data, so a buffered channel is
    its length and its capacity. *)
Record chan : Type := mkChan { chan_len : nat; chan_cap : nat }.

(** [containerInfo], lines 41-44. The field [id] is called [ctnID] here,
    [id] being the identity function. *)
Record containerInfo : Type := mkContainerInfo {
  ctnID : string;
  manageChan : chan
}.

(** [domain.Window] *)
Record Window : Type := mkWindow { Height : nat; Width : nat }.

(** The endpoints of one session: the resize channel [winCh] (pending
    events, and whether its producer closed it), [stdin] (pending bytes, and
    whether it reached end of file), and the unbuffered channel [outputErr]
    made on line 167. The goroutine that sends on it ends right after the
    send and a single value is ever sent, so the channel is a cell holding
    the value in flight. *)
Record Session : Type := mkSession {
  winCh : list Window;
  winClosed : bool;
  stdin : list byte;
  stdinEOF : bool;
  outputErr : option (option error)
}.

(** What the program does to the world outside its memory, plus the
    channel and registry operations the properties of interest count. *)
Inductive Event : Type :=
| EvContainerCreate (name : string)
| EvContainerInspect (name : string)
| EvContainerStart (id : string)
| EvContainerStop (id : string) (timeout : nat)
| EvContainerExecCreate (id : string)
| EvContainerExecResize (execID : string) (height width : nat)
| EvContainerExecAttach (execID : string)
| EvStreamRead (s : sid)
| EvWrite (s : sid) (dst : StdType) (data : list byte)
| EvStreamWrite (s : sid) (data : list byte)
| EvCloseWrite (s : sid)
| EvStreamClose (s : sid)
| EvPrintln (e : error)
| EvFatalf (msg : string) (e : error)
| EvStore (u : UserName) (v : any)
| EvSend (p : loc) (len_after : nat)
| EvRecv (p : loc) (len_after : nat).

(** The memory all goroutines share, the log of events, and whether
    [os.Exit] was called. *)
Record Shared : Type := mkShared {
  containerMap : gmap string any;
  heap : list containerInfo;
  sessions : list Session;
  trace : list Event;
  exited : bool
}.

Definition set_containerMap (m : gmap string any) (sh : Shared) : Shared :=
  mkShared m (heap sh) (sessions sh) (trace sh) (exited sh).
Definition set_heap (h : list containerInfo) (sh : Shared) : Shared :=
  mkShared (containerMap sh) h (sessions sh) (trace sh) (exited sh).
Definition set_sessions (ss : list Session) (sh : Shared) : Shared :=
  mkShared (containerMap sh) (heap sh) ss (trace sh) (exited sh).
Definition emit (e : Event) (sh : Shared) : Shared :=
  mkShared (containerMap sh) (heap sh) (sessions sh) (trace sh ++ [e]) (exited sh).
Definition set_exited (sh : Shared) : Shared :=
  mkShared (containerMap sh) (heap sh) (sessions sh) (trace sh) true.

Definition set_chan_len (n : nat) (ci : containerInfo) : containerInfo :=
  mkContainerInfo (ctnID ci) (mkChan n (chan_cap (manageChan ci))).

Definition empty_shared : Shared := mkShared ∅ [] [] [] false.

(** ** Programs

    The operations a goroutine performs on shared memory ([op]), the
    requests it sends to the container runtime or the attached stream
    ([call], answered by the environment), and the control structure of a
    goroutine ([Prog]). *)

Inductive op : Type -> Type :=
| MapLoad (u : UserName) : op (option any)            (* containerMap.Load *)
| MapStore (u : UserName) (v : any) : op unit         (* containerMap.Store *)
| NewContainerInfo (id : string) (cap : nat) : op loc (* &containerInfo{id, make(chan struct{}, cap)} *)
| GetID (p : loc) : op string                         (* p.id *)
| ChanLen (p : loc) : op nat                          (* len(p.manageChan) *)
| ChanSend (p : loc) : op unit                        (* p.manageChan <- struct{}{} *)
| ChanRecv (p : loc) : op unit                        (* <-p.manageChan *)
| SendOutputErr (s : sid) (e : option error) : op unit (* outputErr <- err *)
| RecvOutputErr (s : sid) : op (option error)         (* <-outputErr *)
| ReadStdin (s : sid) : op (list byte)                (* read stdin up to end of file *)
| Emit (e : Event) : op unit.

Inductive call : Type -> Type :=
| ContainerCreate (name : string) : call (string * option error)
| ContainerInspect (name : string) : call (string * option error)
| ContainerStart (id : string) : call (option error)
| ContainerStop (id : string) (timeout : nat) : call (option error)
| ContainerExecCreate (id : string) : call (string * option error)
| ContainerExecResize (execID : string) (height width : nat) : call (option error)
| ContainerExecAttach (execID : string) : call (option error)
| StreamRead (s : sid) : call (list byte * option error).

Inductive Prog : Type :=
| Return (r : option error)                     (* return r; the end of a goroutine *)
| Fatalf (msg : string) (e : error)             (* log.Fatalf(msg, e) *)
| Do {X : Type} (o : op X) (k : X -> Prog)      (* x := o; k *)
| Call {X : Type} (c : call X) (k : X -> Prog)  (* x := w.cli.c(...); k *)
| Go (child : Prog) (k : Prog)                  (* go child(); k *)
| ForRange (s : sid) (body : Window -> Prog) (k : Prog) (* for win := range winCh { body }; k *)
| Continue                                      (* end of a loop body *)
| Break.                                        (* break *)

Notation "'let*' x ':=' o 'in' k" := (Do o (fun x => k))
  (at level 10, x pattern, o at level 100, k at level 200).
Notation "'let!' x ':=' c 'in' k" := (Call c (fun x => k))
  (at level 10, x pattern, c at level 100, k at level 200).

(** ** The program *)

Definition containerName (userName : UserName) : string := "user-" ++ userName.

(** [stopTimeout], in seconds. *)
Definition stopTimeout : nat := 10.

(** [Workspace.Create], lines 73-109. The container configuration is a
    constant that no branch inspects; the request carries the name. *)
Definition Create (userName : UserName) : Prog :=
  let ctnName := containerName userName in
  let! (resID, err) := ContainerCreate ctnName in
  if IsConflict err then
    let! (ctnInfoID, err) := ContainerInspect ctnName in
    match err with
    | Some e => Return (Some (Errorf "failed to inspect container" e))
    | None =>
        let* p := NewContainerInfo ctnInfoID 20 in
        let* _ := MapStore userName (PtrContainerInfo p) in
        Return None
    end
  else
    match err with
    | Some e => Return (Some (Errorf "failed to create container" e))
    | None =>
        let* p := NewContainerInfo resID 20 in
        let* _ := MapStore userName (PtrContainerInfo p) in
        Return None
    end.

(** The function deferred on lines 130-139; [r] is the value the
    surrounding function is returning. *)
Definition release (ctnInfo : loc) (r : option error) : Prog :=
  let* _ := ChanRecv ctnInfo in
  let* n := ChanLen ctnInfo in
  if Nat.eqb n 0 then
    let* id := GetID ctnInfo in
    let! err := ContainerStop id stopTimeout in
    match err with
    | Some e => Fatalf "failed to stop container" e
    | None => Return r
    end
  else Return r.

(** The body of the loop of lines 148-157. *)
Definition forward (execID : string) (win : Window) : Prog :=
  let! err := ContainerExecResize execID (Height win) (Width win) in
  match err with
  | Some e => let* _ := Emit (EvPrintln e) in Break
  | None => Continue
  end.

(** The goroutine of lines 147-158. *)
Definition resizePump (s : sid) (execID : string) : Prog :=
  ForRange s (forward execID) (Return None).

Fixpoint write_frames (s : sid) (fs : list Frame) (k : Prog) : Prog :=
  match fs with
  | [] => k
  | (dst, payload) :: fs' => let* _ := Emit (EvWrite s dst payload) in write_frames s fs' k
  end.

(** The goroutine of lines 169-177: [io.Copy] or [stdcopy.StdCopy] drains
    the reader up to end of file or an error, then the error is sent on
    [outputErr]. *)
Definition outputCopy (s : sid) (isTty : bool) : Prog :=
  let! (data, rerr) := StreamRead s in
  if isTty then
    let* _ := Emit (EvWrite s Stdout data) in
    let* _ := SendOutputErr s rerr in
    Return None
  else
    let (fs, derr) := StdCopy data in
    write_frames s fs
      (let* _ := SendOutputErr s (match derr with Some e => Some e | None => rerr end) in
       Return None).

(** The goroutine of lines 179-182, followed up to the end of [stdin]:
    [io.Copy] forwards what it reads and the deferred [CloseWrite] closes
    the write side. Its result is dropped by the program. *)
Definition stdinCopy (s : sid) : Prog :=
  let* data := ReadStdin s in
  let* _ := Emit (EvStreamWrite s data) in
  let* _ := Emit (EvCloseWrite s) in
  Return None.

(** Lines 184-189: wait for the output goroutine. [ret] runs the deferred
    functions and returns. *)
Definition await_output (s : sid) (ret : option error -> Prog) : Prog :=
  let* err := RecvOutputErr s in
  match err with
  | Some e => ret (Some (Errorf "failed to stdout" e))
  | None => ret None
  end.

(** [defer stream.Close()], line 165, in front of what was deferred before. *)
Definition close_stream (s : sid) (ret : option error -> Prog) (r : option error) : Prog :=
  let* _ := Emit (EvStreamClose s) in ret r.

(** Lines 161-189, after [ContainerExecCreate] succeeded. *)
Definition attach (s : sid) (isTty : bool) (execID : string)
    (ret : option error -> Prog) : Prog :=
  let! err := ContainerExecAttach execID in
  match err with
  | Some e => ret (Some (Errorf "failed to attach container" e))
  | None =>
      Go (outputCopy s isTty)
        (Go (stdinCopy s) (await_output s (close_stream s ret)))
  end.

(** Lines 121-189, with [ctnInfo] the pointer found in the registry. *)
Definition session (ctnInfo : loc) (isTty : bool) (s : sid) : Prog :=
  let* n := ChanLen ctnInfo in
  if Nat.leb 20 n then Return (Some (ErrorsNew "too many shell"))
  else
    let* id := GetID ctnInfo in
    let! err := ContainerStart id in
    match (if IsConflict err then None else err) with
    | Some e => Return (Some (Errorf "failed to start container" e))
    | None =>
        let* _ := ChanSend ctnInfo in
        let ret := release ctnInfo in
        let* id := GetID ctnInfo in
        let! (execID, err) := ContainerExecCreate id in
        match err with
        | Some e => ret (Some (Errorf "failed to create container" e))
        | None =>
            if isTty then Go (resizePump s execID) (attach s isTty execID ret)
            else attach s isTty execID ret
        end
    end.

(** [Workspace.Connect], lines 111-190. The arguments [winCh], [stdin],
    [stdout] and [stderr] are the endpoints of session [s]. *)
Definition Connect (userName : UserName) (isTty : bool) (s : sid) : Prog :=
  let* iContainerInfo := MapLoad userName in
  match iContainerInfo with
  | None => Return (Some (ErrorsNew "load container info error"))
  | Some (OtherValue _) => Return (Some (ErrorsNew "parse container info error"))
  | Some (PtrContainerInfo ctnInfo) => session ctnInfo isTty s
  end.

(** [Workspace.Remove], lines 192-194. *)
Definition Remove (userName : UserName) : Prog := Return None.

(** ** Semantics of one step *)

Definition update_session (s : sid) (f : Session -> Session) (sh : Shared) : Shared :=
  set_sessions (alter f s (sessions sh)) sh.

Definition set_outputErr (v : option (option error)) (ses : Session) : Session :=
  mkSession (winCh ses) (winClosed ses) (stdin ses) (stdinEOF ses) v.
Definition set_stdin (bs : list byte) (ses : Session) : Session :=
  mkSession (winCh ses) (winClosed ses) bs (stdinEOF ses) (outputErr ses).
Definition set_stdinEOF (ses : Session) : Session :=
  mkSession (winCh ses) (winClosed ses) (stdin ses) true (outputErr ses).
Definition set_winCh (ws : list Window) (ses : Session) : Session :=
  mkSession ws (winClosed ses) (stdin ses) (stdinEOF ses) (outputErr ses).
Definition set_winClosed (ses : Session) : Session :=
  mkSession (winCh ses) true (stdin ses) (stdinEOF ses) (outputErr ses).

(** The effect of an operation on shared memory and its result; [None]
    when the operation cannot proceed now: a send on a full channel, a
    receive on an empty one, a read of [stdin] before its end. *)
Definition do_op {X : Type} (o : op X) (sh : Shared) : option (X * Shared) :=
  match o in op X return option (X * Shared) with
  | MapLoad u => Some (containerMap sh !! u, sh)
  | MapStore u v =>
      Some (tt, emit (EvStore u v) (set_containerMap (<[u := v]> (containerMap sh)) sh))
  | NewContainerInfo id cap =>
      Some (length (heap sh), set_heap (heap sh ++ [mkContainerInfo id (mkChan 0 cap)]) sh)
  | GetID p =>
      match heap sh !! p with
      | Some ci => Some (ctnID ci, sh)
      | None => None
      end
  | ChanLen p =>
      match heap sh !! p with
      | Some ci => Some (chan_len (manageChan ci), sh)
      | None => None
      end
  | ChanSend p =>
      match heap sh !! p with
      | Some ci =>
          let n := chan_len (manageChan ci) in
          if decide (n < chan_cap (manageChan ci)) then
            Some (tt, emit (EvSend p (S n)) (set_heap (<[p := set_chan_len (S n) ci]> (heap sh)) sh))
          else None
      | None => None
      end
  | ChanRecv p =>
      match heap sh !! p with
      | Some ci =>
          match chan_len (manageChan ci) with
          | S n => Some (tt, emit (EvRecv p n) (set_heap (<[p := set_chan_len n ci]> (heap sh)) sh))
          | O => None
          end
      | None => None
      end
  | SendOutputErr s e =>
      match sessions sh !! s with
      | Some ses =>
          match outputErr ses with
          | None => Some (tt, update_session s (set_outputErr (Some e)) sh)
          | Some _ => None
          end
      | None => None
      end
  | RecvOutputErr s =>
      match sessions sh !! s with
      | Some ses =>
          match outputErr ses with
          | Some e => Some (e, update_session s (set_outputErr None) sh)
          | None => None
          end
      | None => None
      end
  | ReadStdin s =>
      match sessions sh !! s with
      | Some ses =>
          if stdinEOF ses then Some (stdin ses, update_session s (set_stdin []) sh)
          else None
      | None => None
      end
  | Emit e => Some (tt, emit e sh)
  end.

(** What the environment answers to a request. *)
Inductive Response : Type :=
| RErr (e : option error)
| RIdErr (id : string) (e : option error)
| RData (data : list byte) (e : option error).

Definition reply_of {X : Type} (c : call X) (r : Response) : option X :=
  match c in call X return option X with
  | ContainerCreate _ | ContainerInspect _ | ContainerExecCreate _ =>
      match r with RIdErr id e => Some (id, e) | _ => None end
  | ContainerStart _ | ContainerStop _ _ | ContainerExecResize _ _ _
  | ContainerExecAttach _ =>
      match r with RErr e => Some e | _ => None end
  | StreamRead _ =>
      match r with RData d e => Some (d, e) | _ => None end
  end.

Definition call_event {X : Type} (c : call X) : Event :=
  match c with
  | ContainerCreate n => EvContainerCreate n
  | ContainerInspect n => EvContainerInspect n
  | ContainerStart id => EvContainerStart id
  | ContainerStop id t => EvContainerStop id t
  | ContainerExecCreate id => EvContainerExecCreate id
  | ContainerExecResize e h w => EvContainerExecResize e h w
  | ContainerExecAttach e => EvContainerExecAttach e
  | StreamRead s => EvStreamRead s
  end.

(** [for win := range winCh]: the next event, the end of a closed channel,
    or nothing yet. *)
Inductive Recv : Type :=
| Got (w : Window) (sh' : Shared)
| Closed
| Wait.

Definition win_recv (s : sid) (sh : Shared) : Recv :=
  match sessions sh !! s with
  | Some ses =>
      match winCh ses with
      | w :: ws => Got w (update_session s (set_winCh ws) sh)
      | [] => if winClosed ses then Closed else Wait
      end
  | None => Wait
  end.

(** A loop body placed in its loop: [continue] goes to [again], [break] to
    [after]. *)
Fixpoint in_loop (again after : Prog) (P : Prog) : Prog :=
  match P with
  | Continue => again
  | Break => after
  | Do o k => Do o (fun x => in_loop again after (k x))
  | Call c k => Call c (fun x => in_loop again after (k x))
  | Go child k => Go child (in_loop again after k)
  | ForRange s body k => ForRange s body (in_loop again after k)
  | Return r => Return r
  | Fatalf msg e => Fatalf msg e
  end.

(** One step of a goroutine: its next program, the new shared state and
    the goroutines it started. [r] is the environment's answer when the
    step is a request. *)
Definition thread_step (P : Prog) (r : option Response) (sh : Shared)
  : option (Prog * Shared * list Prog) :=
  match P with
  | Return _ | Continue | Break => None
  | Fatalf msg e => Some (P, set_exited (emit (EvFatalf msg e) sh), [])
  | Do o k =>
      match do_op o sh with
      | Some (x, sh') => Some (k x, sh', [])
      | None => None
      end
  | Call c k =>
      match r with
      | Some r =>
          match reply_of c r with
          | Some x => Some (k x, emit (call_event c) sh, [])
          | None => None
          end
      | None => None
      end
  | Go child k => Some (k, sh, [child])
  | ForRange s body k =>
      match win_recv s sh with
      | Got w sh' => Some (in_loop P k (body w), sh', [])
      | Closed => Some (k, sh, [])
      | Wait => None
      end
  end.

(** ** The process: goroutines interleaved *)

Record World : Type := mkWorld {
  shared : Shared;
  threads : list Prog
}.

Definition new_session : Session := mkSession [] false [] false None.

(** What can happen next: a caller invokes [Create] or [Connect] (the
    latter with fresh endpoints), the peer of a session produces input, or
    goroutine [tid] takes a step. Nothing happens once the process has
    exited. *)
Inductive Action : Type :=
| ACreate (u : UserName)
| AConnect (u : UserName) (isTty : bool)
| AWinch (s : sid) (w : Window)
| AWinClose (s : sid)
| AStdin (s : sid) (data : list byte)
| AStdinEOF (s : sid)
| AStep (tid : nat) (r : option Response).

Definition step (w : World) (a : Action) : option World :=
  let sh := shared w in
  if exited sh then None else
  match a with
  | ACreate u => Some (mkWorld sh (threads w ++ [Create u]))
  | AConnect u isTty =>
      Some (mkWorld (set_sessions (sessions sh ++ [new_session]) sh)
              (threads w ++ [Connect u isTty (length (sessions sh))]))
  | AWinch s win =>
      Some (mkWorld (update_session s (fun ses => set_winCh (winCh ses ++ [win]) ses) sh) (threads w))
  | AWinClose s => Some (mkWorld (update_session s set_winClosed sh) (threads w))
  | AStdin s data =>
      Some (mkWorld (update_session s (fun ses => set_stdin (stdin ses ++ data) ses) sh) (threads w))
  | AStdinEOF s => Some (mkWorld (update_session s set_stdinEOF sh) (threads w))
  | AStep tid r =>
      match threads w !! tid with
      | Some P =>
          match thread_step P r sh with
          | Some (P', sh', new) => Some (mkWorld sh' (<[tid := P']> (threads w) ++ new))
          | None => None
          end
      | None => None
      end
  end.

Fixpoint run (w : World) (acts : list Action) : option World :=
  match acts with
  | [] => Some w
  | a :: acts' =>
      match step w a with
      | Some w' => run w' acts'
      | None => None
      end
  end.

Definition init : World := mkWorld empty_shared [].

Definition reachable (w : World) : Prop := exists acts, run init acts = Some w.

(** ** One goroutine run without interruption

    [exec P sh rs gs] runs [P] from [sh] until it returns, exits the
    process or cannot proceed, answering its requests from [rs] in order;
    [gs] collects the goroutines it starts (they are not run). *)

Inductive Outcome : Type :=
| Returned (r : option error)
| ProcessExit
| Blocked (P : Prog)
| Continued
| Broke.

Record Result : Type := mkResult {
  outcome : Outcome;
  final : Shared;
  started : list Prog;
  unread : list Response
}.

Definition Run : Type := Shared -> list Response -> list Prog -> Result.

Fixpoint range_loop (body : Window -> Run) (after : Run) (self k : Prog)
    (s : sid) (n : nat) : Run :=
  fun sh rs gs =>
  match win_recv s sh with
  | Closed => after sh rs gs
  | Wait => mkResult (Blocked self) sh gs rs
  | Got w sh' =>
      match n with
      | O => mkResult (Blocked self) sh gs rs
      | S n' =>
          let R := body w sh' rs gs in
          match outcome R with
          | Continued => range_loop body after self k s n' (final R) (unread R) (started R)
          | Broke => after (final R) (unread R) (started R)
          | Blocked P' => mkResult (Blocked (in_loop self k P')) (final R) (started R) (unread R)
          | _ => R
          end
      end
  end.

Definition pending (s : sid) (sh : Shared) : nat :=
  match sessions sh !! s with
  | Some ses => length (winCh ses)
  | None => 0
  end.

Fixpoint exec (P : Prog) : Run :=
  fun sh rs gs =>
  match P with
  | Return r => mkResult (Returned r) sh gs rs
  | Fatalf msg e => mkResult ProcessExit (set_exited (emit (EvFatalf msg e) sh)) gs rs
  | Continue => mkResult Continued sh gs rs
  | Break => mkResult Broke sh gs rs
  | Do o k =>
      match do_op o sh with
      | Some (x, sh') => exec (k x) sh' rs gs
      | None => mkResult (Blocked P) sh gs rs
      end
  | Call c k =>
      match rs with
      | r :: rs' =>
          match reply_of c r with
          | Some x => exec (k x) (emit (call_event c) sh) rs' gs
          | None => mkResult (Blocked P) sh gs rs
          end
      | [] => mkResult (Blocked P) sh gs rs
      end
  | Go child k => exec k sh rs (gs ++ [child])%list
  | ForRange s body k =>
      range_loop (fun w => exec (body w)) (exec k) P k s (pending s sh) sh rs gs
  end.

(** ** Vocabulary of the properties *)

(** Counting events of one kind in a trace. *)
Fixpoint count (f : Event -> bool) (tr : list Event) : nat :=
  match tr with
  | [] => 0
  | e :: tr' => (if f e then 1 else 0) + count f tr'
  end.

Definition is_start (id : string) (e : Event) : bool :=
  match e with EvContainerStart i => String.eqb i id | _ => false end.

Definition is_stop (id : string) (e : Event) : bool :=
  match e with EvContainerStop i _ => String.eqb i id | _ => false end.

(** The session count of record [p] went from 0 to 1, resp. from 1 to 0. *)
Definition is_first_in (p : loc) (e : Event) : bool :=
  match e with EvSend q 1 => Nat.eqb q p | _ => false end.

Definition is_last_out (p : loc) (e : Event) : bool :=
  match e with EvRecv q 0 => Nat.eqb q p | _ => false end.

(** The resize request a window event is forwarded as (lines 149-152). *)
Definition resize_request (execID : string) (w : Window) : Event :=
  EvContainerExecResize execID (Height w) (Width w).

Definition write_event (s : sid) (f : Frame) : Event := EvWrite s (fst f) (snd f).

(** The value [Connect] returns for the error the output goroutine sent
    (lines 184-189). *)
Definition output_result (err : option error) : option error :=
  match err with
  | Some e => Some (Errorf "failed to stdout" e)
  | None => None
  end.

(** A state in which user alice owns container S1 with [n] attached
    sessions, and one set of session endpoints exists. *)
Definition alice_state (n : nat) : Shared :=
  mkShared {[ "alice" := PtrContainerInfo 0 ]}
    [mkContainerInfo "S1" (mkChan n 20)] [new_session] [] false.

Definition boom : error := ClientError false "boom".
Definition conflict : error := ClientError true "Conflict".

(** *** Invariants of the process *)

(** Operations as [Create] and [Connect] perform them: records are
    allocated with slot capacity 20, the registry only receives
    [*containerInfo] values, and only a store reports a store. *)
Definition op_ok {X : Type} (o : op X) : Prop :=
  match o with
  | NewContainerInfo _ cap => cap = 20
  | MapStore _ v => exists p, v = PtrContainerInfo p
  | Emit (EvStore _ _) => False
  | _ => True
  end.

Fixpoint prog_ok (P : Prog) : Prop :=
  match P with
  | Do o k => op_ok o /\ forall x, prog_ok (k x)
  | Call c k => forall x, prog_ok (k x)
  | Go child k => prog_ok child /\ prog_ok k
  | ForRange s body k => (forall w, prog_ok (body w)) /\ prog_ok k
  | _ => True
  end.

Definition chan_ok (ci : containerInfo) : Prop :=
  chan_len (manageChan ci) <= chan_cap (manageChan ci) /\ chan_cap (manageChan ci) = 20.

Definition stored (u : UserName) (tr : list Event) : Prop :=
  exists v, In (EvStore u v) tr.

Definition shared_ok (sh : Shared) : Prop :=
  Forall chan_ok (heap sh)
  /\ (forall u v, containerMap sh !! u = Some v -> exists p, v = PtrContainerInfo p)
  /\ (forall u, is_Some (containerMap sh !! u) <-> stored u (trace sh)).

Definition world_ok (w : World) : Prop :=
  shared_ok (shared w) /\ Forall prog_ok (threads w).

(** Every [return] of the program delivers a value in [Q]. *)
Fixpoint returns_only (Q : option error -> Prop) (P : Prog) : Prop :=
  match P with
  | Return r => Q r
  | Do o k => forall x, returns_only Q (k x)
  | Call c k => forall x, returns_only Q (k x)
  | Go child k => returns_only Q k
  | ForRange s body k => (forall w, returns_only Q (body w)) /\ returns_only Q k
  | _ => True
  end.

(** *** Schedules

    Goroutine 0 is [Create "alice"], goroutines 1 and 2 are two [Connect]
    calls for alice on sessions 0 and 1, both without a terminal. *)
Definition internal (tid : nat) : Action := AStep tid None.
Definition answered (tid : nat) (r : Response) : Action := AStep tid (Some r).

Definition setup : list Action :=
  [ ACreate "alice"; answered 0 (RIdErr "S1" None); internal 0; internal 0;
    AConnect "alice" false; AConnect "alice" false ].

(** Lines 112-125: load, capacity check, read of the id, start. *)
Definition upto_start (tid : nat) : list Action :=
  [ internal tid; internal tid; internal tid; answered tid (RErr None) ].

(** Lines 129-184: acquire the slot, create and attach the execution, start
    the two copy goroutines; the session then waits on [outputErr]. *)
Definition upto_wait (tid : nat) (execID : string) : list Action :=
  [ internal tid; internal tid; answered tid (RIdErr execID None);
    answered tid (RErr None); internal tid; internal tid ].

(** The output goroutine [tid] reads end of file and reports no error; the
    session [main] receives it and closes the stream. *)
Definition output_ends (tid main : nat) : list Action :=
  [ answered tid (RData [] None); internal tid; internal main; internal main ].

(** Both sessions leave; each receives from the channel before either
    reads its length. *)
Definition double_stop : list Action :=
  (setup ++ upto_start 1 ++ upto_wait 1 "e1" ++ upto_start 2 ++ upto_wait 2 "e2"
   ++ output_ends 3 1 ++ output_ends 5 2
   ++ [ internal 1; internal 2 ]
   ++ [ internal 1; internal 1; answered 1 (RErr None) ]
   ++ [ internal 2; internal 2; answered 2 (RErr None) ])%list.

(** Session 2 has asked for the start but not yet acquired its slot when
    session 1 leaves and stops the container. *)
Definition stop_under_session : list Action :=
  (setup ++ upto_start 1 ++ upto_wait 1 "e1" ++ output_ends 3 1
   ++ upto_start 2
   ++ [ internal 1; internal 1; internal 1; answered 1 (RErr None) ]
   ++ [ internal 2 ])%list.

Definition trace_of (acts : list Action) : option (list Event) :=
  match run init acts with
  | Some w => Some (trace (shared w))
  | None => None
  end.

(** The events since the container was last asked to stop. *)
Fixpoint until_stop (id : string) (rtr : list Event) : list Event :=
  match rtr with
  | [] => []
  | e :: r => if is_stop id e then [] else e :: until_stop id r
  end.

Definition since_last_stop (id : string) (tr : list Event) : list Event :=
  rev (until_stop id (rev tr)).

(** One session of alice runs to its end and the stop request it then
    sends fails; the last step is the [log.Fatalf] of line 136. *)
Definition stop_fails : list Action :=
  (setup ++ upto_start 1 ++ upto_wait 1 "e1" ++ output_ends 3 1
   ++ [ internal 1; internal 1; internal 1; answered 1 (RErr (Some boom)); internal 1 ])%list.

(** *** Readings of the specification that the program does not satisfy *)

(** The process is still running after the schedule. *)
Definition process_survives (acts : list Action) : Prop :=
  exists w, run init acts = Some w /\ exited (shared w) = false.

(** A slot of record [p] was acquired and released again. *)
Definition slot_acquired_and_released (p : loc) (tr : list Event) : Prop :=
  exists n m, In (EvSend p n) tr /\ In (EvRecv p m) tr.

(** A failed start is reported and the slot acquired for the session is
    released. *)
Definition start_failure_releases_slot (sh : Shared) (u : UserName) (isTty : bool)
    (s : sid) (e : error) : Prop :=
  let R := exec (Connect u isTty s) sh [RErr (Some e)] [] in
  outcome R = Returned (Some (Errorf "failed to start container" e))
  /\ exists p, containerMap sh !! u = Some (PtrContainerInfo p)
       /\ slot_acquired_and_released p (trace (final R)).

(** A second [Create] leaves the record registered for the user as it
    was: same container id, same slot state. *)
Definition register_keeps_existing (sh : Shared) (u : UserName) (rs : list Response) : Prop :=
  forall p ci,
    containerMap sh !! u = Some (PtrContainerInfo p) ->
    heap sh !! p = Some ci ->
    let R := exec (Create u) sh rs [] in
    exists q, containerMap (final R) !! u = Some (PtrContainerInfo q)
              /\ heap (final R) !! q = Some ci.

(** The state after a successful [Create]: a new record with an empty slot
    channel of capacity 20 is allocated and the registry entry of the user
    points at it. *)
Definition registered (u : UserName) (id : string) (sh : Shared) : Shared :=
  emit (EvStore u (PtrContainerInfo (length (heap sh))))
    (set_containerMap (<[u := PtrContainerInfo (length (heap sh))]> (containerMap sh))
       (set_heap (heap sh ++ [mkContainerInfo id (mkChan 0 20)]) sh)).

(** The state after the slot of record [p] was acquired (line 129),
    following the start request. *)
Definition acquired (p : loc) (ci : containerInfo) (sh : Shared) : Shared :=
  emit (EvSend p (S (chan_len (manageChan ci))))
    (set_heap (<[p := set_chan_len (S (chan_len (manageChan ci))) ci]> (heap sh))
       (emit (EvContainerStart (ctnID ci)) sh)).

(** The state after a slot of record [p] was released (line 131). *)
Definition released (p : loc) (ci : containerInfo) (sh : Shared) : Shared :=
  emit (EvRecv p (pred (chan_len (manageChan ci))))
    (set_heap (<[p := set_chan_len (pred (chan_len (manageChan ci))) ci]> (heap sh)) sh).

Definition emit_all (es : list Event) (sh : Shared) : Shared :=
  fold_left (fun sh e => emit e sh) es sh.

(** What the output goroutine writes and the error it reports, for the
    bytes [data] and the error [rerr] (or end of file) that the reader
    yields. *)
Definition copy_writes (s : sid) (isTty : bool) (data : list byte) : list Event :=
  if isTty then [EvWrite s Stdout data]
  else map (write_event s) (fst (StdCopy data)).

Definition copy_error (isTty : bool) (data : list byte) (rerr : option error)
  : option error :=
  if isTty then rerr
  else match snd (StdCopy data) with
       | Some e => Some e
       | None => rerr
       end.

(** The state in which a session waits for its output goroutine: the
    container was asked to start, the slot acquired, the execution created
    and attached. *)
Definition attached (p : loc) (ci : containerInfo) (execID : string) (sh : Shared) : Shared :=
  emit (EvContainerExecAttach execID)
    (emit (EvContainerExecCreate (ctnID ci)) (acquired p ci sh)).

(** The goroutines a session has started by then. *)
Definition session_goroutines (s : sid) (isTty : bool) (execID : string) : list Prog :=
  ((if isTty then [resizePump s execID] else []) ++ [outputCopy s isTty; stdinCopy s])%list.

(** One complete session under the schedule: the caller's goroutine runs
    up to the wait on [outputErr], the output goroutine runs to its end,
    the caller's goroutine resumes and returns. The other goroutines of the
    session stay where they were started. *)
Definition run_session (u : UserName) (isTty : bool) (s : sid) (sh : Shared)
    (rs_main : list Response) (out : Response) (rs_end : list Response) : Result :=
  let R1 := exec (Connect u isTty s) sh rs_main [] in
  match outcome R1 with
  | Blocked P =>
      let R2 := exec (outputCopy s isTty) (final R1) [out] [] in
      exec P (final R2) rs_end (started R1)
  | _ => R1
  end.

(** Registry, records and the exit flag are the same in both states. *)
Definition same_memory (sh sh' : Shared) : Prop :=
  containerMap sh' = containerMap sh /\ heap sh' = heap sh /\ exited sh' = exited sh.

(** The loop of the resize goroutine with [n] iterations in hand. *)
Definition resize_loop (s : sid) (execID : string) (n : nat) : Run :=
  range_loop (fun w => exec (forward execID w)) (exec (Return None))
    (resizePump s execID) (Return None) s n.

(** The session of user bob in the scenario: one pending resize event,
    after which the channel was closed. *)
Definition bob_state : Shared :=
  mkShared {[ "bob" := PtrContainerInfo 0 ]}
    [mkContainerInfo "S2" (mkChan 1 20)]
    [mkSession [mkWindow 80 24] true [] false None] [] false.

(** The two errors [Connect] can return from its lookup (lines 112-119). *)
Definition load_error : option error := Some (ErrorsNew "load container info error").
Definition parse_error : option error := Some (ErrorsNew "parse container info error").

Definition not_lookup_error (r : option error) : Prop :=
  r <> load_error /\ r <> parse_error.

(** *** Programs whose loops are not nested *)

Fixpoint no_loop (P : Prog) : Prop :=
  match P with
  | Do o k => forall x, no_loop (k x)
  | Call c k => forall x, no_loop (k x)
  | Go child k => no_loop k
  | ForRange _ _ _ => False
  | _ => True
  end.

Fixpoint simple (P : Prog) : Prop :=
  match P with
  | Do o k => forall x, simple (k x)
  | Call c k => forall x, simple (k x)
  | Go child k => simple k
  | ForRange s body k => (forall w, no_loop (body w)) /\ simple k
  | _ => True
  end.

(** The program a goroutine is left with after an uninterrupted run. *)
Definition at_outcome (o : Outcome) (Q : Prog) : Prop :=
  match o with
  | Returned r => Q = Return r
  | Blocked P => Q = P
  | Continued => Q = Continue
  | Broke => Q = Break
  | ProcessExit => exists msg e, Q = Fatalf msg e
  end.

(** All actions are steps of goroutine [tid]. *)
Definition steps_of (tid : nat) (acts : list Action) : Prop :=
  Forall (fun a => exists r, a = AStep tid r) acts.

(** The uninterrupted run [R] of goroutine [tid], which sits in context
    [C] in the pool [ths], is a run of the process from [w] in which only
    that goroutine moves. *)
Definition is_run_of (C : Prog -> Prog) (tid : nat) (ths : list Prog) (w : World)
    (R : Result) : Prop :=
  exists acts w' Q,
    run w acts = Some w'
    /\ shared w' = final R
    /\ steps_of tid acts
    /\ at_outcome (outcome R) Q
    /\ threads w' = (<[tid := C Q]> ths ++ started R)%list
    /\ (outcome R <> ProcessExit -> exited (final R) = false).

(** The session returns [nil] exactly when the output copy met no error. *)
Definition returns_iff_copy_ok (R : Result) (copy_err : option error) : Prop :=
  outcome R = Returned None <-> copy_err = None.

(** Alice's only session, with a terminal: the output copy ends without
    error, and the stop request that follows the release fails. *)
Definition last_session_stop_fails : Result :=
  run_session "alice" true 0 (alice_state 0)
    [RErr None; RIdErr "e1" None; RErr None] (RData [x68; x69] None)
    [RErr (Some boom)].

(** *** Vocabulary of the further properties *)

(** Registry and records of [sh'] are those of [sh] with one more record,
    to which the entry of user [u] points. *)
Definition registers (u : UserName) (id : string) (sh sh' : Shared) : Prop :=
  containerMap sh' = <[u := PtrContainerInfo (length (heap sh))]> (containerMap sh)
  /\ heap sh' = (heap sh ++ [mkContainerInfo id (mkChan 0 20)])%list.

(** Operations that leave the registry alone, allocate nothing, and use no
    slot channel but that of record [p]. *)
Definition op_confined {X : Type} (p : loc) (o : op X) : Prop :=
  match o with
  | MapStore _ _ => False
  | NewContainerInfo _ _ => False
  | ChanSend q => q = p
  | ChanRecv q => q = p
  | _ => True
  end.

Fixpoint confined (p : loc) (P : Prog) : Prop :=
  match P with
  | Do o k => op_confined p o /\ forall x, confined p (k x)
  | Call c k => forall x, confined p (k x)
  | Go child k => confined p k
  | ForRange s body k => (forall w, confined p (body w)) /\ confined p k
  | _ => True
  end.

(** From [sh] to [sh'] the registry is the same, every record but [p] is
    the same, and record [p] has kept its id and its capacity. *)
Definition record_kept (p : loc) (sh sh' : Shared) : Prop :=
  containerMap sh' = containerMap sh
  /\ length (heap sh') = length (heap sh)
  /\ (forall q, q <> p -> heap sh' !! q = heap sh !! q)
  /\ (forall ci, heap sh !! p = Some ci ->
      exists ci', heap sh' !! p = Some ci'
                  /\ ctnID ci' = ctnID ci
                  /\ chan_cap (manageChan ci') = chan_cap (manageChan ci)).

(** Every record of [sh] is still there in [sh'], with its id and its
    capacity. *)
Definition records_persist (sh sh' : Shared) : Prop :=
  forall p ci, heap sh !! p = Some ci ->
    exists ci', heap sh' !! p = Some ci'
                /\ ctnID ci' = ctnID ci
                /\ chan_cap (manageChan ci') = chan_cap (manageChan ci).

(** What the deferred release of record [p] does when the count it leaves
    behind is [n]: the receive, and the stop request when [n] is 0; and
    the answers of the runtime it consumes, a successful stop in that case. *)
Definition leave_events (p : loc) (id : string) (n : nat) : list Event :=
  EvRecv p n :: (if Nat.eqb n 0 then [EvContainerStop id stopTimeout] else []).

Definition stop_answer (n : nat) (rs : list Response) : list Response :=
  if Nat.eqb n 0 then RErr None :: rs else rs.

(** The events of a session up to the acquisition of its slot and the
    creation of its execution. *)
Definition enter_events (p : loc) (id : string) (n : nat) : list Event :=
  [EvContainerStart id; EvSend p (S n); EvContainerExecCreate id].

(** *** Pointers stored in the registry *)

(** With [h] records allocated, operation [o] stores no pointer beyond the
    allocated records, and what follows it satisfies [K] for the result of
    [o] and the number of records allocated then. *)
Definition op_stores_valid {X : Type} (o : op X) (h : nat) (K : X -> nat -> Prop) : Prop :=
  match o in op X return (X -> nat -> Prop) -> Prop with
  | MapStore u v => fun K => (forall p, v = PtrContainerInfo p -> p < h) /\ K tt h
  | NewContainerInfo id cap => fun K => forall h', h <= h' -> K h' (S h')
  | _ => fun K => forall x, K x h
  end K.

Fixpoint stores_valid (P : Prog) (h : nat) {struct P} : Prop :=
  match P with
  | Do o k => op_stores_valid o h (fun x h' => stores_valid (k x) h')
  | Call c k => forall x, stores_valid (k x) h
  | Go child k => stores_valid child h /\ stores_valid k h
  | ForRange s body k => (forall w, stores_valid (body w) h) /\ stores_valid k h
  | _ => True
  end.

Definition registry_valid (sh : Shared) : Prop :=
  forall u p, containerMap sh !! u = Some (PtrContainerInfo p) -> p < length (heap sh).

Definition pointers_ok (w : World) : Prop :=
  registry_valid (shared w)
  /\ Forall (fun P => stores_valid P (length (heap (shared w)))) (threads w).

(** *** Requests and the end of the process *)

(** A stop request carries the timeout of line 38, create and inspect
    requests carry the container name of some user, and the fatal log entry
    is that of line 136. *)
Definition request_ok (e : Event) : Prop :=
  match e with
  | EvContainerStop _ t => t = stopTimeout
  | EvContainerCreate n | EvContainerInspect n => exists u, n = containerName u
  | EvFatalf msg _ => msg = "failed to stop container"
  | _ => True
  end.

Definition is_fatal (e : Event) : bool :=
  match e with EvFatalf _ _ => true | _ => false end.

(** The events that report an operation on shared memory. *)
Definition is_memory_event (e : Event) : bool :=
  match e with EvStore _ _ | EvSend _ _ | EvRecv _ _ => true | _ => false end.

Definition op_requests_ok {X : Type} (o : op X) : Prop :=
  match o with
  | Emit e => request_ok e /\ is_fatal e = false /\ is_memory_event e = false
  | _ => True
  end.

Fixpoint requests_ok (P : Prog) : Prop :=
  match P with
  | Fatalf msg e => msg = "failed to stop container"
  | Do o k => op_requests_ok o /\ forall x, requests_ok (k x)
  | Call c k => request_ok (call_event c) /\ forall x, requests_ok (k x)
  | Go child k => requests_ok child /\ requests_ok k
  | ForRange s body k => (forall w, requests_ok (body w)) /\ requests_ok k
  | _ => True
  end.

Definition trace_ok (sh : Shared) : Prop :=
  Forall request_ok (trace sh)
  /\ (exited sh = true <-> existsb is_fatal (trace sh) = true).

Definition events_ok (w : World) : Prop :=
  trace_ok (shared w) /\ Forall requests_ok (threads w).

(** *** Slots taken and given back *)

Definition is_send (p : loc) (e : Event) : bool :=
  match e with EvSend q _ => Nat.eqb q p | _ => false end.

Definition is_recv (p : loc) (e : Event) : bool :=
  match e with EvRecv q _ => Nat.eqb q p | _ => false end.

(** [len(p.manageChan)], 0 where there is no record. *)
Definition slots (p : loc) (sh : Shared) : nat :=
  match heap sh !! p with
  | Some ci => chan_len (manageChan ci)
  | None => 0
  end.

Definition slots_balanced (sh : Shared) : Prop :=
  forall p, count (is_send p) (trace sh) = count (is_recv p) (trace sh) + slots p sh.

(** The state a schedule leads to from the start of the process. *)
Definition world_after (acts : list Action) : World :=
  match run init acts with
  | Some w => w
  | None => init
  end.

(** *** Sessions counted per user *)

(** The records that were registered for user [u], in the order of their
    registration. *)
Definition records_of (u : UserName) (tr : list Event) : list loc :=
  flat_map (fun e =>
              match e with
              | EvStore u' (PtrContainerInfo p) => if String.eqb u' u then [p] else []
              | _ => []
              end) tr.

(** The sessions of user [u] that hold a slot: the slots held on all the
    records that were registered for the user. *)
Definition active_sessions (u : UserName) (sh : Shared) : nat :=
  sum_list (List.map (fun p => slots p sh) (records_of u (trace sh))).

(** No user has more than 20 sessions holding a slot after the schedule. *)
Definition session_limit_per_user (acts : list Action) : Prop :=
  forall w, run init acts = Some w -> forall u, active_sessions u (shared w) <= 20.

(** A call of [Connect] for alice as goroutine [tid], run up to the
    acquisition of its slot (lines 112-129). *)
Definition acquire (tid : nat) : list Action :=
  (AConnect "alice" false :: upto_start tid ++ [internal tid])%list.

(** Alice is registered and 20 of her sessions acquire a slot; [Create] is
    called for her again, finds the container by its name and registers it
    anew; a further session of hers acquires a slot. *)
Definition over_limit : list Action :=
  ([ ACreate "alice"; answered 0 (RIdErr "S1" None); internal 0; internal 0 ]
   ++ flat_map acquire (seq 1 20)
   ++ [ ACreate "alice"; answered 21 (RIdErr "S1" (Some conflict));
        answered 21 (RIdErr "S1" None); internal 21; internal 21 ]
   ++ acquire 22)%list.

(** Alice has 19 sessions; two more are called and both pass the capacity
    check of line 121 and ask for the start before either acquires its
    slot; then goroutine 20 acquires the last slot. *)
Definition check_then_acquire : list Action :=
  ([ ACreate "alice"; answered 0 (RIdErr "S1" None); internal 0; internal 0 ]
   ++ flat_map acquire (seq 1 19)
   ++ [ AConnect "alice" false; AConnect "alice" false ]
   ++ upto_start 20 ++ upto_start 21
   ++ [ internal 20 ])%list.

(** The goroutine is at the send of line 129 on the channel of record [p]. *)
Definition at_send (p : loc) (P : Prog) : bool :=
  match P with
  | Do o _ => match o with ChanSend q => Nat.eqb q p | _ => false end
  | _ => false
  end.

(** *** The release with any answer to the stop request

    [n] is the count the release leaves behind and [serr] what the runtime
    answers to a stop request. The request is sent only when [n] is 0. *)
Definition stop_reply (n : nat) (serr : option error) (rs : list Response) : list Response :=
  if Nat.eqb n 0 then RErr serr :: rs else rs.

(** The error of the stop request, when one was sent and it failed. *)
Definition stop_failed (n : nat) (serr : option error) : option error :=
  if Nat.eqb n 0 then serr else None.

(** How a function whose deferred release runs ends when it returns [r]:
    with [r], unless the stop request failed (line 136). *)
Definition leave_outcome (n : nat) (serr : option error) (r : option error) : Outcome :=
  match stop_failed n serr with
  | Some _ => ProcessExit
  | None => Returned r
  end.

Definition fatal_events (n : nat) (serr : option error) : list Event :=
  match stop_failed n serr with
  | Some e => [EvFatalf "failed to stop container" e]
  | None => []
  end.

Definition exited_after (n : nat) (serr : option error) (sh : Shared) : bool :=
  match stop_failed n serr with
  | Some _ => true
  | None => exited sh
  end.

(** *** The order of start, acquire, release and stop

    A goroutine holds [a] start permits, one for each start request it has
    sent and not yet followed by an acquisition, and [b] release permits,
    one for each slot it has given back and not yet followed by a stop
    request. [permits P a b]: with these, [P] never acquires a slot without
    a start permit and never asks for a stop without a release permit. *)
Definition is_any_start (e : Event) : bool :=
  match e with EvContainerStart _ => true | _ => false end.
Definition is_any_stop (e : Event) : bool :=
  match e with EvContainerStop _ _ => true | _ => false end.
Definition is_any_send (e : Event) : bool :=
  match e with EvSend _ _ => true | _ => false end.
Definition is_any_recv (e : Event) : bool :=
  match e with EvRecv _ _ => true | _ => false end.

Definition is_slot_event (e : Event) : bool :=
  is_any_start e || is_any_stop e || is_any_send e || is_any_recv e.

Definition op_permits {X : Type} (o : op X) (a b : nat) (K : X -> nat -> nat -> Prop) : Prop :=
  match o in op X return (X -> nat -> nat -> Prop) -> Prop with
  | ChanSend _ => fun K => exists a', a = S a' /\ K tt a' b
  | ChanRecv _ => fun K => K tt a (S b)
  | Emit e => fun K => is_slot_event e = false /\ K tt a b
  | _ => fun K => forall x, K x a b
  end K.

Definition call_permits {X : Type} (c : call X) (a b : nat) (K : X -> nat -> nat -> Prop)
  : Prop :=
  match c in call X return (X -> nat -> nat -> Prop) -> Prop with
  | ContainerStart _ => fun K => forall x, K x (S a) b
  | ContainerStop _ _ => fun K => exists b', b = S b' /\ forall x, K x a b'
  | _ => fun K => forall x, K x a b
  end K.

Fixpoint permits (P : Prog) (a b : nat) {struct P} : Prop :=
  match P with
  | Do o k => op_permits o a b (fun x a' b' => permits (k x) a' b')
  | Call c k => call_permits c a b (fun x a' b' => permits (k x) a' b')
  | Go child k => permits child 0 0 /\ permits k a b
  | ForRange s body k => (forall w, permits (body w) 0 0) /\ permits k a b
  | _ => True
  end.

Fixpoint sum_fst (ps : list (nat * nat)) : nat :=
  match ps with
  | [] => 0
  | ab :: ps' => fst ab + sum_fst ps'
  end.

Fixpoint sum_snd (ps : list (nat * nat)) : nat :=
  match ps with
  | [] => 0
  | ab :: ps' => snd ab + sum_snd ps'
  end.

(** Each goroutine has its permits, and the permits held are covered: by
    start requests not yet followed by an acquisition, and by releases not
    yet followed by a stop request. *)
Definition permits_ok (w : World) : Prop :=
  exists ps : list (nat * nat),
    Forall2 (fun P ab => permits P (fst ab) (snd ab)) (threads w) ps
    /\ count is_any_send (trace (shared w)) + sum_fst ps
       <= count is_any_start (trace (shared w))
    /\ count is_any_stop (trace (shared w)) + sum_snd ps
       <= count is_any_recv (trace (shared w)).

(** *** Which containers the requests name

    The container a stop request or the creation of an execution names,
    and the container a start request names. *)
Definition needs_start (e : Event) : option string :=
  match e with
  | EvContainerStop id _ | EvContainerExecCreate id => Some id
  | _ => None
  end.

Definition started_id (e : Event) : option string :=
  match e with
  | EvContainerStart id => Some id
  | _ => None
  end.

(** Every stop request and every creation of an execution in the trace
    comes after a start request for the same container. *)
Definition started_first (tr : list Event) : Prop :=
  forall tr1 e tr2 id,
    tr = (tr1 ++ e :: tr2)%list -> needs_start e = Some id ->
    In (EvContainerStart id) tr1.

(** Every container that was asked to start is the container of a record. *)
Definition starts_registered (sh : Shared) : Prop :=
  forall id, In (EvContainerStart id) (trace sh) ->
    exists p ci, heap sh !! p = Some ci /\ ctnID ci = id.

(** What a goroutine has learnt: [kn] lists the ids it has read from
    records, [st] the containers it has asked to start. *)
Definition knows (kn : list (loc * string)) (st : list string) (sh : Shared) : Prop :=
  (forall p id, In (p, id) kn -> exists ci, heap sh !! p = Some ci /\ ctnID ci = id)
  /\ (forall id, In id st -> In (EvContainerStart id) (trace sh)).

(** [ids P kn st]: having learnt [kn] and [st], [P] asks to start only
    containers whose id it has read from a record, and to stop or to run
    an execution in only containers it has asked to start. An id read from
    a record again is the id read from it before. *)
Definition op_ids {X : Type} (o : op X) (kn : list (loc * string))
    (K : X -> list (loc * string) -> Prop) : Prop :=
  match o in op X return (X -> list (loc * string) -> Prop) -> Prop with
  | GetID p => fun K =>
      forall id, (forall id0, In (p, id0) kn -> id0 = id) -> K id ((p, id) :: kn)
  | Emit e => fun K => needs_start e = None /\ started_id e = None /\ K tt kn
  | _ => fun K => forall x, K x kn
  end K.

Definition call_ids {X : Type} (c : call X) (kn : list (loc * string)) (st : list string)
    (K : X -> list string -> Prop) : Prop :=
  match c in call X return (X -> list string -> Prop) -> Prop with
  | ContainerStart id => fun K => (exists p, In (p, id) kn) /\ forall x, K x (id :: st)
  | ContainerStop id _ => fun K => In id st /\ forall x, K x st
  | ContainerExecCreate id => fun K => In id st /\ forall x, K x st
  | _ => fun K => forall x, K x st
  end K.

Fixpoint ids (P : Prog) (kn : list (loc * string)) (st : list string) {struct P} : Prop :=
  match P with
  | Do o k => op_ids o kn (fun x kn' => ids (k x) kn' st)
  | Call c k => call_ids c kn st (fun x st' => ids (k x) kn st')
  | Go child k => ids child [] [] /\ ids k kn st
  | ForRange s body k => (forall w, ids (body w) [] []) /\ ids k kn st
  | _ => True
  end.

Definition ids_ok (w : World) : Prop :=
  started_first (trace (shared w))
  /\ starts_registered (shared w)
  /\ Forall (fun P => exists kn st, ids P kn st /\ knows kn st (shared w)) (threads w).

(* ===================================================================== *)
(** * Properties *)
(* ===================================================================== *)

(** ** Framing *)

Lemma to_N_byte_of_N (n : N) : Byte.to_N (byte_of_N n) = (n mod 256)%N.
Proof.
  unfold byte_of_N.
  destruct (Byte.of_N (n mod 256)) as [b|] eqn:E.
  - exact (Byte.to_of_N _ E).
  - apply Byte.of_N_None_iff in E.
    pose proof (N.mod_upper_bound n 256). lia.
Qed.

Lemma lor_shiftl_add (b a k : N) :
  (a < 2 ^ k)%N -> N.lor (N.shiftl b k) a = (b * 2 ^ k + a)%N.
Proof.
  intros Ha.
  rewrite <- N.lxor_lor, <- N.add_nocarry_lxor, N.shiftl_mul_pow2; trivial.
  all: apply N.bits_inj; intros i; rewrite N.land_spec, N.bits_0.
  all: destruct (N.lt_ge_cases i k) as [Hi|Hi].
  all: try (rewrite N.shiftl_spec_low by trivial; reflexivity).
  all: rewrite <- (N.mod_small a (2 ^ k)) by trivial.
  all: rewrite N.mod_pow2_bits_high by trivial; apply Bool.andb_false_r.
Qed.

Lemma base256_digits (n : N) :
  (n < 4294967296)%N ->
  (((n / 16777216) mod 256) * 16777216
   + (((n / 65536) mod 256) * 65536 + (((n / 256) mod 256) * 256 + n mod 256)) = n)%N.
Proof.
  intros H.
  change 16777216%N with (256 * 256 * 256)%N. change 65536%N with (256 * 256)%N.
  rewrite <- !N.Div0.div_div.
  pose proof (N.div_mod n 256). pose proof (N.div_mod (n / 256) 256).
  pose proof (N.div_mod (n / 256 / 256) 256).
  rewrite (N.mod_small (n / 256 / 256 / 256) 256).
  2:{ do 3 apply N.Div0.div_lt_upper_bound. exact H. }
  lia.
Qed.

Lemma Uint32_PutUint32 (n : N) :
  (n < 4294967296)%N ->
  Uint32 (byte_of_N (N.shiftr n 24)) (byte_of_N (N.shiftr n 16))
         (byte_of_N (N.shiftr n 8)) (byte_of_N n) = n.
Proof.
  intros H. unfold Uint32. rewrite !to_N_byte_of_N, !N.shiftr_div_pow2.
  change (2 ^ 24)%N with 16777216%N. change (2 ^ 16)%N with 65536%N.
  change (2 ^ 8)%N with 256%N.
  pose proof (N.mod_upper_bound n 256).
  pose proof (N.mod_upper_bound (n / 256) 256).
  pose proof (N.mod_upper_bound (n / 65536) 256).
  rewrite (lor_shiftl_add _ (n mod 256) 8) by (change (2 ^ 8)%N with 256%N; lia).
  rewrite (lor_shiftl_add _ _ 16) by (change (2 ^ 16)%N with 65536%N; lia).
  rewrite (lor_shiftl_add _ _ 24) by (change (2 ^ 24)%N with 16777216%N; lia).
  change (2 ^ 24)%N with 16777216%N. change (2 ^ 16)%N with 65536%N.
  change (2 ^ 8)%N with 256%N.
  apply base256_digits, H.
Qed.

Section FramingFacts.

Variable selector : StdType -> byte.
Hypothesis selector_distinct : selector Stdout <> selector Stderr.

Lemma byte_eqb_eq (a b : byte) : byte_eqb a b = true <-> a = b.
Proof.
  unfold byte_eqb. rewrite N.eqb_eq. split; [|congruence].
  intros E. pose proof (Byte.of_to_N a) as Ha. rewrite E, Byte.of_to_N in Ha.
  congruence.
Qed.

Lemma stream_of_selector (st : StdType) : stream_of selector (selector st) = Some st.
Proof.
  unfold stream_of. destruct st.
  - rewrite (proj2 (byte_eqb_eq _ _) eq_refl). reflexivity.
  - destruct (byte_eqb (selector Stderr) (selector Stdout)) eqn:E.
    + apply byte_eqb_eq in E. congruence.
    + rewrite (proj2 (byte_eqb_eq _ _) eq_refl). reflexivity.
Qed.

Lemma decode_aux_frame (fuel : nat) (f : Frame) (bs : list byte) :
  fits f ->
  decode_aux selector (S fuel) (encode_frame selector f ++ bs)
  = (f :: fst (decode_aux selector fuel bs), snd (decode_aux selector fuel bs)).
Proof.
  intros Hf. destruct f as [st payload]. unfold encode_frame, PutUint32.
  cbn [fst snd app decode_aux]. rewrite stream_of_selector.
  rewrite Uint32_PutUint32 by exact Hf. rewrite Nat2N.id.
  rewrite decide_True by (rewrite length_app; lia).
  rewrite drop_app_length, take_app_length.
  destruct (decode_aux selector fuel bs); reflexivity.
Qed.

Lemma decode_aux_encode (fs : list Frame) (fuel : nat) :
  Forall fits fs -> length fs <= fuel ->
  decode_aux selector fuel (encode selector fs) = (fs, None).
Proof.
  intros Hfs. revert fuel. induction Hfs as [|f fs Hf _ IH]; intros fuel Hlen.
  - destruct fuel; reflexivity.
  - destruct fuel as [|fuel]; [cbn in Hlen; lia|].
    unfold encode. cbn [map concat]. fold (encode selector fs).
    rewrite decode_aux_frame by exact Hf.
    rewrite IH by (cbn in Hlen; lia). reflexivity.
Qed.

(** The fuel of [decode] is never what ends the decoding: any larger
    amount gives the same result. *)
Lemma decode_aux_fuel (fuel : nat) :
  forall (fuel' : nat) (bs : list byte),
    length bs <= fuel -> length bs <= fuel' ->
    decode_aux selector fuel bs = decode_aux selector fuel' bs.
Proof.
  induction fuel as [|fuel IH]; intros fuel' bs H H'.
  - destruct bs; [destruct fuel'; reflexivity | cbn in H; lia].
  - destruct bs as [|b0 [|b1 [|b2 [|b3 [|l3 [|l2 [|l1 [|l0 rest]]]]]]]];
      try (destruct fuel'; reflexivity).
    destruct fuel' as [|fuel']; [cbn in H'; lia|].
    cbn [decode_aux]. destruct (stream_of selector b0); [|reflexivity].
    destruct (decide _); [|reflexivity].
    rewrite (IH fuel') by (rewrite length_drop; cbn in H, H'; lia).
    reflexivity.
Qed.

Lemma length_encode (fs : list Frame) : length fs <= length (encode selector fs).
Proof.
  induction fs as [|f fs IH]; [cbn; lia|].
  unfold encode. cbn [map concat]. fold (encode selector fs).
  rewrite length_app. unfold encode_frame. cbn [length]. lia.
Qed.

Lemma decode_encode (fs : list Frame) :
  Forall fits fs -> decode selector (encode selector fs) = (fs, None).
Proof.
  intros H. apply decode_aux_encode; [exact H | apply length_encode].
Qed.

End FramingFacts.

(** ** Invariants of the interleaved process *)

Lemma prog_ok_write_frames (s : sid) (fs : list Frame) (k : Prog) :
  prog_ok k -> prog_ok (write_frames s fs k).
Proof.
  intros Hk. induction fs as [|[dst payload] fs IH]; cbn; auto.
Qed.

Lemma prog_ok_Create (u : UserName) : prog_ok (Create u).
Proof.
  unfold Create. cbn. intros [resID err].
  destruct (IsConflict err).
  - cbn. intros [infoID [e|]]; cbn; eauto.
  - destruct err; cbn; eauto.
Qed.

Lemma prog_ok_release (p : loc) (r : option error) : prog_ok (release p r).
Proof.
  unfold release. cbn. split; [exact I|]. intros _. split; [exact I|].
  intros n. destruct (Nat.eqb n 0); cbn; [|exact I].
  split; [exact I|]. intros _ [e|]; exact I.
Qed.

Lemma prog_ok_attach (s : sid) (isTty : bool) (execID : string)
    (ret : option error -> Prog) :
  (forall r, prog_ok (ret r)) -> prog_ok (attach s isTty execID ret).
Proof.
  intros Hret. unfold attach. cbn. intros [e|]; [apply Hret|].
  cbn. repeat split.
  - intros [data rerr]. destruct isTty; cbn; [tauto|].
    destruct (StdCopy data) as [fs derr]. apply prog_ok_write_frames. cbn. tauto.
  - intros [e|]; cbn; auto.
Qed.

Lemma prog_ok_session (p : loc) (isTty : bool) (s : sid) : prog_ok (session p isTty s).
Proof.
  unfold session. cbn [prog_ok op_ok]. split; [exact I|]. intros n.
  destruct (Nat.leb 20 n); cbn [prog_ok op_ok]; [exact I|].
  split; [exact I|]. intros _ err.
  destruct (if IsConflict err then None else err); cbn [prog_ok op_ok]; [exact I|].
  split; [exact I|]. intros _. split; [exact I|]. intros _ [execID [e|]].
  - apply prog_ok_release.
  - assert (prog_ok (attach s isTty execID (release p))) as Ha
      by (apply prog_ok_attach; intros; apply prog_ok_release).
    destruct isTty; [|exact Ha].
    cbn [prog_ok op_ok resizePump]. repeat split; try exact Ha.
    intros w. unfold forward. cbn [prog_ok]. intros [e|]; cbn [prog_ok op_ok]; auto.
Qed.

Lemma prog_ok_Connect (u : UserName) (isTty : bool) (s : sid) :
  prog_ok (Connect u isTty s).
Proof.
  unfold Connect. cbn [prog_ok op_ok]. split; [exact I|].
  intros [[p|t]|]; cbn [prog_ok]; auto using prog_ok_session.
Qed.

Lemma prog_ok_in_loop (again after P : Prog) :
  prog_ok again -> prog_ok after -> prog_ok P -> prog_ok (in_loop again after P).
Proof.
  intros Ha Hb. induction P; cbn; intros HP; auto; try tauto;
    destruct HP; split; auto.
Qed.

Lemma thread_step_ok (P P' : Prog) (r : option Response) (sh sh' : Shared)
    (new : list Prog) :
  prog_ok P -> thread_step P r sh = Some (P', sh', new) ->
  prog_ok P' /\ Forall prog_ok new.
Proof.
  intros HP Hs. destruct P; cbn in Hs; try discriminate.
  - inversion Hs; subst. split; [exact HP | constructor].
  - destruct (do_op o sh) as [[x sh1]|]; [|discriminate].
    inversion Hs; subst. split; [apply HP | constructor].
  - destruct r as [r|]; [|discriminate].
    destruct (reply_of c r); [|discriminate].
    inversion Hs; subst. split; [apply HP | constructor].
  - inversion Hs; subst. destruct HP. split; [assumption | repeat constructor; assumption].
  - destruct HP as [Hbody Hk].
    destruct (win_recv s sh); inversion Hs; subst.
    + split; [|constructor]. apply prog_ok_in_loop; cbn; auto.
    + split; [assumption | constructor].
Qed.

Lemma stored_app (u : UserName) (tr : list Event) (e : Event) :
  stored u (tr ++ [e]) <-> stored u tr \/ exists v, e = EvStore u v.
Proof.
  unfold stored. split.
  - intros [v Hv]. apply in_app_or in Hv as [Hv|[Hv|[]]]; eauto.
  - intros [[v Hv]|[v ->]]; exists v; apply in_or_app; [left|right; left]; auto.
Qed.

Lemma shared_ok_emit (e : Event) (sh : Shared) :
  (forall u v, e <> EvStore u v) -> shared_ok sh -> shared_ok (emit e sh).
Proof.
  intros He (Hh & Hm & Ht). repeat split; cbn; auto.
  - intros H. apply stored_app. left. apply Ht, H.
  - intros H. apply stored_app in H as [H|[v ->]]; [apply Ht, H|].
    exfalso. eapply He. reflexivity.
Qed.

Lemma shared_ok_heap_insert (p : loc) (ci : containerInfo) (sh : Shared) :
  chan_ok ci -> shared_ok sh -> shared_ok (set_heap (<[p := ci]> (heap sh)) sh).
Proof.
  intros Hci (Hh & Hm & Ht). repeat split; cbn; try apply Hm; try apply Ht.
  apply Forall_insert; assumption.
Qed.

Lemma do_op_ok {X : Type} (o : op X) (sh sh' : Shared) (x : X) :
  op_ok o -> shared_ok sh -> do_op o sh = Some (x, sh') -> shared_ok sh'.
Proof.
  intros Ho Hsh Hd. destruct o; cbn in Hd.
  - inversion Hd; subst; assumption.
  - inversion Hd; subst. destruct Ho as [p ->]. destruct Hsh as (Hh & Hm & Ht).
    repeat split; cbn; auto.
    + intros u' v'. destruct (decide (u = u')) as [->|Hne].
      * rewrite lookup_insert_eq. intros [= <-]. eauto.
      * rewrite lookup_insert_ne by assumption. apply Hm.
    + intros H. apply stored_app. destruct (decide (u = u0)) as [->|Hne]; [eauto|].
      rewrite lookup_insert_ne in H by assumption. left. apply Ht, H.
    + intros H. destruct (decide (u = u0)) as [->|Hne].
      * rewrite lookup_insert_eq. eauto.
      * rewrite lookup_insert_ne by assumption. apply Ht.
        apply stored_app in H as [H|[v [= -> _]]]; [assumption | congruence].
  - inversion Hd; subst. cbn in Ho. subst cap. destruct Hsh as (Hh & Hm & Ht).
    repeat split; cbn; try apply Hm; try apply Ht.
    apply Forall_app. split; [assumption|].
    repeat constructor; cbn; lia.
  - destruct (heap sh !! p); inversion Hd; subst; assumption.
  - destruct (heap sh !! p); inversion Hd; subst; assumption.
  - destruct (heap sh !! p) as [ci|] eqn:Hp; [|discriminate].
    destruct (decide _) as [Hlt|]; [|discriminate]. inversion Hd; subst.
    apply shared_ok_emit; [discriminate|].
    apply shared_ok_heap_insert; [|assumption].
    destruct Hsh as (Hh & _). rewrite Forall_lookup in Hh.
    destruct (Hh _ _ Hp) as [_ Hcap]. split; cbn; [lia | assumption].
  - destruct (heap sh !! p) as [ci|] eqn:Hp; [|discriminate].
    destruct (chan_len (manageChan ci)) as [|n] eqn:Hn; [discriminate|].
    inversion Hd; subst.
    apply shared_ok_emit; [discriminate|].
    apply shared_ok_heap_insert; [|assumption].
    destruct Hsh as (Hh & _). rewrite Forall_lookup in Hh.
    destruct (Hh _ _ Hp) as [Hle Hcap]. split; cbn; [lia | assumption].
  - destruct (sessions sh !! s) as [ses|]; [|discriminate].
    destruct (outputErr ses); inversion Hd; subst. assumption.
  - destruct (sessions sh !! s) as [ses|]; [|discriminate].
    destruct (outputErr ses); inversion Hd; subst. assumption.
  - destruct (sessions sh !! s) as [ses|]; [|discriminate].
    destruct (stdinEOF ses); inversion Hd; subst. assumption.
  - inversion Hd; subst. apply shared_ok_emit; [|assumption].
    intros u v ->. exact Ho.
Qed.

Lemma call_event_not_store {X : Type} (c : call X) (u : UserName) (v : any) :
  call_event c <> EvStore u v.
Proof. destruct c; discriminate. Qed.

Lemma thread_step_shared_ok (P P' : Prog) (r : option Response) (sh sh' : Shared)
    (new : list Prog) :
  prog_ok P -> shared_ok sh -> thread_step P r sh = Some (P', sh', new) ->
  shared_ok sh'.
Proof.
  intros HP Hsh Hs. destruct P; cbn in Hs; try discriminate.
  - inversion Hs; subst. apply (shared_ok_emit (EvFatalf msg e) sh); [discriminate | assumption].
  - destruct (do_op o sh) as [[x sh1]|] eqn:Hd; [|discriminate].
    inversion Hs; subst. eapply do_op_ok; [apply HP | eassumption | eassumption].
  - destruct r as [r|]; [|discriminate].
    destruct (reply_of c r); [|discriminate].
    inversion Hs; subst. apply shared_ok_emit; [|assumption].
    intros u v. apply call_event_not_store.
  - inversion Hs; subst. assumption.
  - unfold win_recv in Hs. destruct (sessions sh !! s) as [ses|]; [|discriminate].
    destruct (winCh ses); [destruct (winClosed ses)|]; inversion Hs; subst; assumption.
Qed.

Lemma step_ok (w w' : World) (a : Action) :
  world_ok w -> step w a = Some w' -> world_ok w'.
Proof.
  intros [Hsh Hth] Hs. unfold step in Hs.
  destruct (exited (shared w)); [discriminate|].
  destruct a; try (inversion Hs; subst; split; cbn; assumption).
  - inversion Hs; subst. split; cbn; [assumption|].
    apply Forall_app. split; [assumption|]. constructor; [apply prog_ok_Create | constructor].
  - inversion Hs; subst. split; cbn; [assumption|].
    apply Forall_app. split; [assumption|]. constructor; [apply prog_ok_Connect | constructor].
  - destruct (threads w !! tid) as [P|] eqn:HP; [|discriminate].
    destruct (thread_step P r (shared w)) as [[[P' sh'] new]|] eqn:Ht; [|discriminate].
    inversion Hs; subst.
    assert (prog_ok P) as HPok by (rewrite Forall_lookup in Hth; eapply Hth; eassumption).
    destruct (thread_step_ok _ _ _ _ _ _ HPok Ht) as [HP' Hnew].
    split; cbn.
    + exact (thread_step_shared_ok _ _ _ _ _ _ HPok Hsh Ht).
    + apply Forall_app. split; [|assumption]. apply Forall_insert; assumption.
Qed.

Lemma init_ok : world_ok init.
Proof.
  split; [|constructor]. repeat split; cbn; try constructor.
  - intros u v. rewrite lookup_empty. discriminate.
  - rewrite lookup_empty. intros [v Hv]. discriminate.
  - intros [v []].
Qed.

Lemma run_ok (acts : list Action) (w w' : World) :
  world_ok w -> run w acts = Some w' -> world_ok w'.
Proof.
  revert w. induction acts as [|a acts IH]; cbn; intros w Hw Hr.
  - inversion Hr; subst. assumption.
  - destruct (step w a) as [w1|] eqn:Hs; [|discriminate].
    eapply IH; [eapply step_ok; eassumption | assumption].
Qed.

Lemma reachable_ok (w : World) : reachable w -> world_ok w.
Proof. intros [acts Hr]. eapply run_ok; [apply init_ok | exact Hr]. Qed.

(** ** [Create] *)

Lemma Create_success (sh : Shared) (u : UserName) (id : string)
    (rs : list Response) (gs : list Prog) :
  exec (Create u) sh (RIdErr id None :: rs) gs
  = mkResult (Returned None)
      (registered u id (emit (EvContainerCreate (containerName u)) sh)) gs rs.
Proof. reflexivity. Qed.

Lemma Create_conflict (sh : Shared) (u : UserName) (x id : string) (e : error)
    (rs : list Response) (gs : list Prog) :
  IsConflict (Some e) = true ->
  exec (Create u) sh (RIdErr x (Some e) :: RIdErr id None :: rs) gs
  = mkResult (Returned None)
      (registered u id
         (emit (EvContainerInspect (containerName u))
            (emit (EvContainerCreate (containerName u)) sh))) gs rs.
Proof.
  intros He. unfold Create. cbn [exec reply_of]. rewrite He. reflexivity.
Qed.

Lemma Create_inspect_failure (sh : Shared) (u : UserName) (x y : string) (e e' : error)
    (rs : list Response) (gs : list Prog) :
  IsConflict (Some e) = true ->
  exec (Create u) sh (RIdErr x (Some e) :: RIdErr y (Some e') :: rs) gs
  = mkResult (Returned (Some (Errorf "failed to inspect container" e')))
      (emit (EvContainerInspect (containerName u))
         (emit (EvContainerCreate (containerName u)) sh)) gs rs.
Proof.
  intros He. unfold Create. cbn [exec reply_of]. rewrite He. reflexivity.
Qed.

Lemma Create_failure (sh : Shared) (u : UserName) (x : string) (e : error)
    (rs : list Response) (gs : list Prog) :
  IsConflict (Some e) = false ->
  exec (Create u) sh (RIdErr x (Some e) :: rs) gs
  = mkResult (Returned (Some (Errorf "failed to create container" e)))
      (emit (EvContainerCreate (containerName u)) sh) gs rs.
Proof.
  intros He. unfold Create. cbn [exec reply_of]. rewrite He. reflexivity.
Qed.

Lemma registered_lookup (u : UserName) (id : string) (sh : Shared) :
  containerMap (registered u id sh) !! u = Some (PtrContainerInfo (length (heap sh)))
  /\ heap (registered u id sh) !! length (heap sh)
     = Some (mkContainerInfo id (mkChan 0 20)).
Proof.
  split; cbn.
  - apply lookup_insert_eq.
  - rewrite lookup_app_r by lia. rewrite Nat.sub_diag. reflexivity.
Qed.

Lemma registered_frame (u : UserName) (id : string) (sh : Shared) :
  (forall u', u' <> u -> containerMap (registered u id sh) !! u' = containerMap sh !! u')
  /\ (forall q ci, heap sh !! q = Some ci -> heap (registered u id sh) !! q = Some ci).
Proof.
  split; cbn.
  - intros u' Hne. apply lookup_insert_ne. congruence.
  - intros q ci Hq. apply lookup_app_l_Some. exact Hq.
Qed.

(** C4. [Create] is idempotent. When the runtime answers the create
    request with a conflict, [Create] inspects the container of that name,
    registers a record with the id the inspection reports and an empty
    20-slot channel, and returns [nil]. Called a second time for the same
    user, with the second call seeing the conflict, it leaves the registry
    with the same set of users, so one record for the user, and that record
    carries the id of the container that already existed. On an error that
    is not a conflict, or when the inspection fails, [Create] returns the
    wrapped error and neither the registry nor the heap changes: a user
    without a record still has none. *)
Theorem Create_idempotent (sh : Shared) (u : UserName) (x id : string) (e : error)
    (rs : list Response) (gs : list Prog) :
  IsConflict (Some e) = true ->
  (let R := exec (Create u) sh (RIdErr x (Some e) :: RIdErr id None :: rs) gs in
   outcome R = Returned None
   /\ trace (final R)
      = (trace sh ++ [EvContainerCreate (containerName u)]
           ++ [EvContainerInspect (containerName u)]
           ++ [EvStore u (PtrContainerInfo (length (heap sh)))])%list
   /\ exists p, containerMap (final R) !! u = Some (PtrContainerInfo p)
        /\ heap (final R) !! p = Some (mkContainerInfo id (mkChan 0 20)))
  /\ (let Ra := exec (Create u) sh [RIdErr id None] [] in
      let Rb := exec (Create u) (final Ra) [RIdErr x (Some e); RIdErr id None] [] in
      outcome Ra = Returned None /\ outcome Rb = Returned None
      /\ dom (containerMap (final Rb)) = dom (containerMap (final Ra))
      /\ exists p, containerMap (final Rb) !! u = Some (PtrContainerInfo p)
           /\ ctnID <$> heap (final Rb) !! p = Some id)
  /\ (forall e', IsConflict (Some e') = false ->
      let R := exec (Create u) sh (RIdErr x (Some e') :: rs) gs in
      outcome R = Returned (Some (Errorf "failed to create container" e'))
      /\ containerMap (final R) = containerMap sh /\ heap (final R) = heap sh
      /\ (containerMap sh !! u = None -> containerMap (final R) !! u = None))
  /\ (forall y e',
      let R := exec (Create u) sh (RIdErr x (Some e) :: RIdErr y (Some e') :: rs) gs in
      outcome R = Returned (Some (Errorf "failed to inspect container" e'))
      /\ containerMap (final R) = containerMap sh /\ heap (final R) = heap sh
      /\ (containerMap sh !! u = None -> containerMap (final R) !! u = None)).
Proof.
  intros He. repeat apply conj.
  - rewrite Create_conflict by exact He. reflexivity.
  - rewrite Create_conflict by exact He. cbn. rewrite <- !app_assoc. reflexivity.
  - rewrite Create_conflict by exact He. eexists. apply registered_lookup.
  - reflexivity.
  - rewrite Create_success, Create_conflict by exact He. reflexivity.
  - rewrite Create_success, Create_conflict by exact He. cbn.
    rewrite !dom_insert_L. apply set_eq. intros z.
    rewrite !elem_of_union, !elem_of_singleton. tauto.
  - rewrite Create_success. cbn [final]. rewrite Create_conflict by exact He.
    cbn [final].
    match goal with |- context [registered ?a ?b ?c] =>
      destruct (registered_lookup a b c) as [H1 H2] end.
    eexists. split; [exact H1 | exact (f_equal (fmap ctnID) H2)].
  - intros e' He'. rewrite Create_failure by assumption. cbn. auto.
  - intros y e'. rewrite Create_inspect_failure by assumption. cbn. auto.
Qed.

Lemma Create_idempotent_witness :
  IsConflict (Some conflict) = true
  /\ outcome (exec (Create "alice") empty_shared
                [RIdErr "" (Some conflict); RIdErr "S1" None] []) = Returned None.
Proof.
  split; [reflexivity|].
  exact (proj1 (proj1 (Create_idempotent empty_shared "alice" "" "S1" conflict [] []
                         eq_refl))).
Defined.

(** C5 (as the program has it). The registry's store is unconditional:
    a successful [Create], whether the container was just created or was
    found by inspection after a conflict, makes the user's entry point at a
    newly allocated record that carries the id reported by the runtime and
    an empty channel of capacity 20, whatever was registered before. The
    records allocated earlier stay in memory as they were, and the entries
    of other users are not touched. *)
Theorem Create_overwrites (sh : Shared) (u : UserName) (x id : string) (e : error)
    (rs : list Response) (gs : list Prog) (R : Result) :
  IsConflict (Some e) = true ->
  R = exec (Create u) sh (RIdErr id None :: rs) gs
  \/ R = exec (Create u) sh (RIdErr x (Some e) :: RIdErr id None :: rs) gs ->
  outcome R = Returned None
  /\ containerMap (final R) !! u = Some (PtrContainerInfo (length (heap sh)))
  /\ heap (final R) = (heap sh ++ [mkContainerInfo id (mkChan 0 20)])%list
  /\ (forall u', u' <> u -> containerMap (final R) !! u' = containerMap sh !! u').
Proof.
  intros He [-> | ->].
  - rewrite Create_success. repeat split.
    + apply (registered_lookup u id (emit _ sh)).
    + apply (registered_frame u id (emit _ sh)).
  - rewrite Create_conflict by exact He. repeat split.
    + apply (registered_lookup u id (emit _ (emit _ sh))).
    + apply (registered_frame u id (emit _ (emit _ sh))).
Qed.

Lemma Create_overwrites_witness :
  IsConflict (Some conflict) = true
  /\ containerMap
       (final (exec (Create "alice") (alice_state 1)
                 [RIdErr "" (Some conflict); RIdErr "S1" None] []))
     !! "alice" = Some (PtrContainerInfo 1).
Proof.
  split; [reflexivity|].
  exact (proj1 (proj2 (Create_overwrites (alice_state 1) "alice" "" "S1" conflict [] [] _
                         eq_refl (or_intror eq_refl)))).
Defined.

(** C5, as stated, fails: alice has a record with one attached session;
    a second [Create] that meets the conflict and finds the same container
    replaces the record by one with no attached session. *)
Lemma register_overwrites_existing :
  ~ register_keeps_existing (alice_state 1) "alice"
      [RIdErr "" (Some conflict); RIdErr "S1" None].
Proof.
  intros H.
  destruct (H 0 (mkContainerInfo "S1" (mkChan 1 20)) eq_refl eq_refl) as (q & Hq & Hh).
  vm_compute in Hq. inversion Hq; subst q.
  vm_compute in Hh. discriminate Hh.
Qed.

(** ** [Connect]: lookup, capacity check and start *)

Lemma Connect_registered (sh : Shared) (u : UserName) (isTty : bool) (s : sid) (p : loc)
    (rs : list Response) (gs : list Prog) :
  containerMap sh !! u = Some (PtrContainerInfo p) ->
  exec (Connect u isTty s) sh rs gs = exec (session p isTty s) sh rs gs.
Proof. intros Hu. unfold Connect. cbn [exec do_op]. rewrite Hu. reflexivity. Qed.

Lemma session_full (sh : Shared) (isTty : bool) (s : sid) (p : loc) (ci : containerInfo)
    (rs : list Response) (gs : list Prog) :
  heap sh !! p = Some ci ->
  20 <= chan_len (manageChan ci) ->
  exec (session p isTty s) sh rs gs
  = mkResult (Returned (Some (ErrorsNew "too many shell"))) sh gs rs.
Proof.
  intros Hp Hn. unfold session. cbn [exec do_op]. rewrite Hp.
  destruct (Nat.leb_spec 20 (chan_len (manageChan ci))); [reflexivity | lia].
Qed.

Lemma session_start_failure (sh : Shared) (isTty : bool) (s : sid) (p : loc)
    (ci : containerInfo) (e : error) (rs : list Response) (gs : list Prog) :
  heap sh !! p = Some ci ->
  chan_len (manageChan ci) < 20 ->
  IsConflict (Some e) = false ->
  exec (session p isTty s) sh (RErr (Some e) :: rs) gs
  = mkResult (Returned (Some (Errorf "failed to start container" e)))
      (emit (EvContainerStart (ctnID ci)) sh) gs rs.
Proof.
  intros Hp Hn Hc. unfold session. cbn [exec do_op]. rewrite Hp.
  destruct (Nat.leb_spec 20 (chan_len (manageChan ci))); [lia|].
  cbn [exec do_op]. rewrite Hp. cbn [exec reply_of]. rewrite Hc. reflexivity.
Qed.

Lemma session_start_conflict (sh : Shared) (isTty : bool) (s : sid) (p : loc)
    (ci : containerInfo) (e : error) (rs : list Response) (gs : list Prog) :
  heap sh !! p = Some ci ->
  chan_len (manageChan ci) < 20 ->
  IsConflict (Some e) = true ->
  exec (session p isTty s) sh (RErr (Some e) :: rs) gs
  = exec (session p isTty s) sh (RErr None :: rs) gs.
Proof.
  intros Hp Hn Hc. unfold session. cbn [exec do_op]. rewrite Hp.
  destruct (Nat.leb_spec 20 (chan_len (manageChan ci))); [lia|].
  cbn [exec do_op]. rewrite Hp. cbn [exec reply_of]. rewrite Hc. reflexivity.
Qed.



(** C3, as stated, fails: the count is not kept per user. Twenty sessions
    of alice hold a slot; [Create] is called for her again and registers a
    fresh record for the same container; the next [Connect] of alice finds
    no slot held on that record, is not rejected and acquires a slot, which
    makes 21 sessions of alice holding a slot. *)
Lemma over_limit_exceeds : ~ session_limit_per_user over_limit.
Proof.
  intros H.
  assert (run init over_limit = Some (world_after over_limit)) as Hrun.
  { unfold world_after. destruct (run init over_limit) eqn:E; [reflexivity|].
    vm_compute in E. discriminate E. }
  specialize (H _ Hrun "alice"). vm_compute in H. lia.
Qed.

(** The capacity check reserves nothing. In [check_then_acquire] 19 slots
    are held when two calls pass the check of line 121; both ask for the
    start; one takes the twentieth slot, and the other is then at the send
    of line 129 on a full channel, where it cannot proceed: it waits for a
    slot, having been neither rejected nor admitted. *)
Lemma capacity_check_races :
  exists w P,
    run init check_then_acquire = Some w
    /\ slots 0 (shared w) = 20
    /\ threads w !! 21 = Some P /\ at_send 0 P = true
    /\ step w (internal 21) = None
    /\ count (is_start "S1") (trace (shared w)) = 21
    /\ count (is_send 0) (trace (shared w)) = 20.
Proof.
  assert (run init check_then_acquire = Some (world_after check_then_acquire)) as Hrun.
  { unfold world_after. destruct (run init check_then_acquire) eqn:E; [reflexivity|].
    vm_compute in E. discriminate E. }
  destruct (threads (world_after check_then_acquire) !! 21) as [P|] eqn:HP;
    [|vm_compute in HP; discriminate HP].
  exists (world_after check_then_acquire), P.
  split; [exact Hrun|]. split; [vm_compute; reflexivity|].
  split; [exact HP|].
  assert (Some P = threads (world_after check_then_acquire) !! 21) as HP' by (symmetry; exact HP).
  split; [|split; [|split]].
  - vm_compute in HP'. inversion HP'; subst P. reflexivity.
  - vm_compute. reflexivity.
  - vm_compute. reflexivity.
  - vm_compute. reflexivity.
Qed.

(** C6 (as the program has it). In [Connect] a conflict answer to the
    start request is treated exactly like success. Any other start failure
    is returned to the caller wrapped as a start error; on that path the
    only thing that happened is the start request itself: the slot is
    acquired after the start, so no slot was acquired, none is released, no
    stop is requested, and the session count is what it was. *)
Theorem start_failure_takes_no_slot (sh : Shared) (u : UserName) (isTty : bool) (s : sid)
    (p : loc) (ci : containerInfo) (e : error) (rs : list Response) (gs : list Prog) :
  containerMap sh !! u = Some (PtrContainerInfo p) ->
  heap sh !! p = Some ci ->
  chan_len (manageChan ci) < 20 ->
  (IsConflict (Some e) = true ->
   exec (Connect u isTty s) sh (RErr (Some e) :: rs) gs
   = exec (Connect u isTty s) sh (RErr None :: rs) gs)
  /\ (IsConflict (Some e) = false ->
      exec (Connect u isTty s) sh (RErr (Some e) :: rs) gs
      = mkResult (Returned (Some (Errorf "failed to start container" e)))
          (emit (EvContainerStart (ctnID ci)) sh) gs rs).
Proof.
  intros Hu Hp Hn. rewrite !(Connect_registered _ _ _ _ _ _ _ Hu). split; intros Hc.
  - eapply session_start_conflict; eassumption.
  - eapply session_start_failure; eassumption.
Qed.

Lemma start_failure_takes_no_slot_witness :
  exec (Connect "alice" false 0) (alice_state 0) [RErr (Some boom)] []
  = mkResult (Returned (Some (Errorf "failed to start container" boom)))
      (emit (EvContainerStart "S1") (alice_state 0)) [] [].
Proof.
  apply (proj2 (start_failure_takes_no_slot (alice_state 0) "alice" false 0 0
                  (mkContainerInfo "S1" (mkChan 0 20)) boom [] []
                  eq_refl eq_refl ltac:(simpl; lia))).
  reflexivity.
Defined.

(** C6, as stated, fails: when the start of alice's container fails, the
    call returns the start error without having acquired, or released, any
    slot. *)
Lemma start_failure_acquires_nothing :
  ~ start_failure_releases_slot (alice_state 0) "alice" false 0 boom.
Proof.
  intros (_ & p & _ & n & m & Hsend & _).
  vm_compute in Hsend. destruct Hsend as [Hsend|[]]. discriminate Hsend.
Qed.

(** ** The deferred release *)

Lemma lookup_after_insert (h : list containerInfo) (p : loc) (ci ci' : containerInfo) :
  h !! p = Some ci -> <[p := ci']> h !! p = Some ci'.
Proof. intros H. apply list_lookup_insert_eq. eapply lookup_lt_Some, H. Qed.

Lemma release_not_last (sh : Shared) (p : loc) (ci : containerInfo) (r : option error)
    (n : nat) (rs : list Response) (gs : list Prog) :
  heap sh !! p = Some ci ->
  chan_len (manageChan ci) = S (S n) ->
  exec (release p r) sh rs gs = mkResult (Returned r) (released p ci sh) gs rs.
Proof.
  intros Hp Hn. unfold release, released. cbn [exec do_op]. rewrite Hp, Hn.
  cbn [exec do_op emit set_heap heap pred].
  rewrite (lookup_after_insert _ _ _ _ Hp). reflexivity.
Qed.

Lemma release_last (sh : Shared) (p : loc) (ci : containerInfo) (r : option error)
    (rs : list Response) (gs : list Prog) :
  heap sh !! p = Some ci ->
  chan_len (manageChan ci) = 1 ->
  exec (release p r) sh (RErr None :: rs) gs
  = mkResult (Returned r)
      (emit (EvContainerStop (ctnID ci) stopTimeout) (released p ci sh)) gs rs.
Proof.
  intros Hp Hn. unfold release, released. cbn [exec do_op]. rewrite Hp, Hn.
  cbn [exec do_op emit set_heap heap pred].
  rewrite (lookup_after_insert _ _ _ _ Hp).
  cbn [exec do_op emit set_heap heap pred set_chan_len manageChan chan_len Nat.eqb].
  rewrite (lookup_after_insert _ _ _ _ Hp). reflexivity.
Qed.

Lemma release_last_stop_fails (sh : Shared) (p : loc) (ci : containerInfo)
    (r : option error) (e : error) (rs : list Response) (gs : list Prog) :
  heap sh !! p = Some ci ->
  chan_len (manageChan ci) = 1 ->
  exec (release p r) sh (RErr (Some e) :: rs) gs
  = mkResult ProcessExit
      (set_exited
         (emit (EvFatalf "failed to stop container" e)
            (emit (EvContainerStop (ctnID ci) stopTimeout) (released p ci sh)))) gs rs.
Proof.
  intros Hp Hn. unfold release, released. cbn [exec do_op]. rewrite Hp, Hn.
  cbn [exec do_op emit set_heap heap pred].
  rewrite (lookup_after_insert _ _ _ _ Hp).
  cbn [exec do_op emit set_heap heap pred set_chan_len manageChan chan_len Nat.eqb].
  rewrite (lookup_after_insert _ _ _ _ Hp). reflexivity.
Qed.

Lemma step_after_exit (w : World) (a : Action) :
  exited (shared w) = true -> step w a = None.
Proof. intros H. unfold step. rewrite H. reflexivity. Qed.

(** C2 (as the program has it). When the deferred release takes the last
    slot of a record and the stop request then fails, the failure is
    logged with [log.Fatalf], which ends the process: the call does not
    return to its caller, and from then on no goroutine, of this user or of
    any other, takes another step. *)
Theorem failed_stop_ends_process (sh : Shared) (p : loc) (ci : containerInfo)
    (r : option error) (e : error) (rs : list Response) (gs : list Prog) :
  heap sh !! p = Some ci ->
  chan_len (manageChan ci) = 1 ->
  let R := exec (release p r) sh (RErr (Some e) :: rs) gs in
  outcome R = ProcessExit
  /\ exited (final R) = true
  /\ trace (final R)
     = (trace sh ++ [EvRecv p 0] ++ [EvContainerStop (ctnID ci) stopTimeout]
          ++ [EvFatalf "failed to stop container" e])%list
  /\ forall ths a, step (mkWorld (final R) ths) a = None.
Proof.
  intros Hp Hn R. subst R. rewrite (release_last_stop_fails _ _ _ _ _ _ _ Hp Hn).
  split; [reflexivity|]. split; [reflexivity|]. split.
  - cbn. rewrite Hn. cbn. rewrite <- !app_assoc. reflexivity.
  - intros ths a. apply step_after_exit. reflexivity.
Qed.

Lemma failed_stop_ends_process_witness :
  outcome (exec (release 0 None) (alice_state 1) [RErr (Some boom)] []) = ProcessExit.
Proof.
  exact (proj1 (failed_stop_ends_process (alice_state 1) 0
                  (mkContainerInfo "S1" (mkChan 1 20)) None boom [] [] eq_refl eq_refl)).
Defined.

(** C2, as stated, fails: alice's only session ends, the stop request
    fails, and the process has exited. *)
Lemma failed_stop_is_fatal : ~ process_survives stop_fails.
Proof.
  intros (w & Hrun & Hex). vm_compute in Hrun. inversion Hrun; subst w.
  discriminate Hex.
Qed.

(** ** Races on the session count *)

(** C1 fails on lines 131-132, where the receive and the reading of the
    length are two steps. In [double_stop] two sessions of alice end, both
    receive before either reads the length, and both find it 0: the count
    went from 0 to 1 once and from 1 to 0 once, yet the start is requested
    twice (once per call, line 125) and the container is stopped twice. In [stop_under_session] a second session has sent its
    start request (line 125) but not yet acquired its slot (line 129) when
    the first one leaves and stops the container: the second then holds a
    slot of a container that has been stopped, and nothing starts it
    again. *)
Theorem stop_is_not_once_per_drain :
  (exists tr, trace_of double_stop = Some tr
     /\ count (is_first_in 0) tr = 1
     /\ count (is_last_out 0) tr = 1
     /\ count (is_start "S1") tr = 2
     /\ count (is_stop "S1") tr = 2)
  /\ (exists w, run init stop_under_session = Some w
        /\ heap (shared w) !! 0 = Some (mkContainerInfo "S1" (mkChan 1 20))
        /\ since_last_stop "S1" (trace (shared w)) = [EvSend 0 1]).
Proof.
  split.
  - eexists. split; [vm_compute; reflexivity|]. repeat split.
  - eexists. split; [vm_compute; reflexivity|]. split; reflexivity.
Qed.

(** ** The output goroutine *)

Lemma emit_all_app (es : list Event) (e : Event) (sh : Shared) :
  emit_all (es ++ [e]) sh = emit e (emit_all es sh).
Proof. unfold emit_all. rewrite fold_left_app. reflexivity. Qed.

Lemma emit_all_fields (es : list Event) (sh : Shared) :
  containerMap (emit_all es sh) = containerMap sh
  /\ heap (emit_all es sh) = heap sh
  /\ sessions (emit_all es sh) = sessions sh
  /\ trace (emit_all es sh) = (trace sh ++ es)%list
  /\ exited (emit_all es sh) = exited sh.
Proof.
  revert sh. induction es as [|e es IH]; intros sh.
  - cbn. rewrite app_nil_r. auto.
  - destruct (IH (emit e sh)) as (H1 & H2 & H3 & H4 & H5).
    change (emit_all (e :: es) sh) with (emit_all es (emit e sh)).
    rewrite H1, H2, H3, H4, H5. cbn. rewrite <- app_assoc. auto.
Qed.

Lemma exec_write_frames (s : sid) (fs : list Frame) (k : Prog) (sh : Shared)
    (rs : list Response) (gs : list Prog) :
  exec (write_frames s fs k) sh rs gs
  = exec k (emit_all (map (write_event s) fs) sh) rs gs.
Proof.
  revert sh. induction fs as [|[dst payload] fs IH]; intros sh; [reflexivity|].
  cbn [write_frames exec do_op]. rewrite IH. reflexivity.
Qed.

Lemma outputCopy_step (s : sid) (isTty : bool) (sh : Shared) (data : list byte)
    (rerr : option error) (rs : list Response) (gs : list Prog) :
  exec (outputCopy s isTty) sh (RData data rerr :: rs) gs
  = exec (let* _ := SendOutputErr s (copy_error isTty data rerr) in Return None)
      (emit_all (copy_writes s isTty data) (emit (EvStreamRead s) sh)) rs gs.
Proof.
  unfold outputCopy, copy_error, copy_writes. cbn [exec reply_of call_event].
  destruct isTty; [reflexivity|].
  destruct (StdCopy data) as [fs derr]. rewrite exec_write_frames. reflexivity.
Qed.

Lemma outputCopy_trace (s : sid) (isTty : bool) (sh : Shared) (data : list byte)
    (rerr : option error) (rs : list Response) (gs : list Prog) :
  trace (final (exec (outputCopy s isTty) sh (RData data rerr :: rs) gs))
  = (trace sh ++ EvStreamRead s :: copy_writes s isTty data)%list.
Proof.
  rewrite outputCopy_step. cbn [exec do_op].
  set (sh' := emit_all _ _).
  assert (trace sh' = (trace sh ++ EvStreamRead s :: copy_writes s isTty data)%list) as Ht.
  { subst sh'. rewrite (proj1 (proj2 (proj2 (proj2 (emit_all_fields _ _))))).
    cbn. rewrite <- app_assoc. reflexivity. }
  destruct (sessions sh' !! s) as [ses|]; [|exact Ht].
  destruct (outputErr ses); exact Ht.
Qed.

(** The output goroutine of a session whose [outputErr] channel is empty
    runs to its end and leaves its error in the channel; it touches neither
    the registry nor the records. *)
Lemma outputCopy_sends (s : sid) (isTty : bool) (sh : Shared) (ses : Session)
    (data : list byte) (rerr : option error) (rs : list Response) (gs : list Prog) :
  sessions sh !! s = Some ses ->
  outputErr ses = None ->
  let R := exec (outputCopy s isTty) sh (RData data rerr :: rs) gs in
  outcome R = Returned None
  /\ sessions (final R) !! s = Some (set_outputErr (Some (copy_error isTty data rerr)) ses)
  /\ heap (final R) = heap sh
  /\ containerMap (final R) = containerMap sh
  /\ exited (final R) = exited sh
  /\ started R = gs /\ unread R = rs.
Proof.
  intros Hs Ho R. subst R. rewrite outputCopy_step. cbn [exec do_op].
  destruct (emit_all_fields (copy_writes s isTty data) (emit (EvStreamRead s) sh))
    as (H1 & H2 & H3 & H4 & H5).
  rewrite H3. cbn [emit sessions]. rewrite Hs, Ho. cbn.
  rewrite H1, H2, H3, H5. cbn.
  rewrite list_lookup_alter_eq, Hs. repeat split.
Qed.

(** C7. Round trip of the demultiplexing format: a sequence of (stream,
    payload) writes, each payload short enough for the 4-byte length
    field, encoded as records of a selector byte, three reserved bytes, the
    big-endian length and the payload, decodes to the same sequence in the
    same order and without error, for any convention that gives the two
    streams different selector bytes and also when payloads are empty; so
    each of the two writers receives its payloads in order. Fed such a
    stream, the output goroutine of a session without terminal performs
    exactly these writes. *)
Theorem demux_round_trip (selector : StdType -> byte) (fs : list Frame) :
  selector Stdout <> selector Stderr ->
  Forall fits fs ->
  decode selector (encode selector fs) = (fs, None)
  /\ (forall dst, written dst (fst (decode selector (encode selector fs))) = written dst fs)
  /\ (forall s sh rs gs,
        trace (final (exec (outputCopy s false) sh
                        (RData (encode spec_selector fs) None :: rs) gs))
        = (trace sh ++ EvStreamRead s :: map (write_event s) fs)%list).
Proof.
  intros Hsel Hfs.
  assert (decode selector (encode selector fs) = (fs, None)) as Hd
    by (apply decode_encode; assumption).
  split; [exact Hd|]. split.
  - intros dst. rewrite Hd. reflexivity.
  - intros s sh rs gs. rewrite outputCopy_trace. unfold copy_writes, StdCopy.
    rewrite decode_encode by (assumption || discriminate). reflexivity.
Qed.

Lemma demux_round_trip_witness :
  decode spec_selector
    (encode spec_selector [(Stdout, [x68; x69]); (Stderr, []); (Stdout, [x0a])])
  = ([(Stdout, [x68; x69]); (Stderr, []); (Stdout, [x0a])], None).
Proof.
  apply (demux_round_trip spec_selector
           [(Stdout, [x68; x69]); (Stderr, []); (Stdout, [x0a])]).
  - discriminate.
  - repeat constructor.
Defined.

(** ** A session from the acquisition of its slot to its return *)

Lemma session_reaches_wait (sh : Shared) (isTty : bool) (s : sid) (p : loc)
    (ci : containerInfo) (ses : Session) (execID : string)
    (rs : list Response) (gs : list Prog) :
  heap sh !! p = Some ci ->
  chan_len (manageChan ci) < 20 ->
  chan_cap (manageChan ci) = 20 ->
  sessions sh !! s = Some ses ->
  outputErr ses = None ->
  exec (session p isTty s) sh (RErr None :: RIdErr execID None :: RErr None :: rs) gs
  = mkResult (Blocked (await_output s (close_stream s (release p))))
      (attached p ci execID sh) (gs ++ session_goroutines s isTty execID) rs.
Proof.
  intros Hp Hn Hcap Hs Ho. unfold session. cbn [exec do_op]. rewrite Hp.
  destruct (Nat.leb_spec 20 (chan_len (manageChan ci))); [lia|].
  cbn [exec do_op]. rewrite Hp.
  cbn [exec do_op reply_of IsConflict emit heap call_event]. rewrite Hp.
  rewrite decide_True by lia.
  cbn [exec do_op emit set_heap heap]. rewrite (lookup_after_insert _ _ _ _ Hp).
  cbn [exec reply_of].
  assert (forall gs',
    exec (attach s isTty execID (release p))
      (emit (EvContainerExecCreate (ctnID ci)) (acquired p ci sh)) (RErr None :: rs) gs'
    = mkResult (Blocked (await_output s (close_stream s (release p))))
        (attached p ci execID sh) (gs' ++ [outputCopy s isTty; stdinCopy s]) rs) as Ha.
  { intros gs'. unfold attach. cbn [exec reply_of]. unfold await_output at 1.
    cbn [exec do_op emit sessions set_heap acquired]. rewrite Hs, Ho.
    rewrite <- app_assoc. reflexivity. }
  unfold session_goroutines.
  destruct isTty; cbn [exec]; rewrite Ha; [rewrite <- app_assoc|]; reflexivity.
Qed.

(** Resuming after the wait, in any state in which the output goroutine
    has delivered [err]: the other sessions of the user may have come and
    gone in between, and the stdin goroutine may be anywhere. *)
Lemma await_output_not_last (sh : Shared) (s : sid) (p : loc) (ci : containerInfo)
    (ses : Session) (err : option error) (n : nat) (rs : list Response) (gs : list Prog) :
  sessions sh !! s = Some ses ->
  outputErr ses = Some err ->
  heap sh !! p = Some ci ->
  chan_len (manageChan ci) = S (S n) ->
  exec (await_output s (close_stream s (release p))) sh rs gs
  = mkResult (Returned (output_result err))
      (released p ci (emit (EvStreamClose s) (update_session s (set_outputErr None) sh)))
      gs rs.
Proof.
  intros Hs Ho Hp Hn. unfold await_output. cbn [exec do_op]. rewrite Hs, Ho.
  destruct err as [e|]; unfold close_stream; cbn [exec do_op output_result];
    apply (release_not_last _ _ _ _ n); assumption.
Qed.

Lemma await_output_last (sh : Shared) (s : sid) (p : loc) (ci : containerInfo)
    (ses : Session) (err : option error) (rs : list Response) (gs : list Prog) :
  sessions sh !! s = Some ses ->
  outputErr ses = Some err ->
  heap sh !! p = Some ci ->
  chan_len (manageChan ci) = 1 ->
  exec (await_output s (close_stream s (release p))) sh (RErr None :: rs) gs
  = mkResult (Returned (output_result err))
      (emit (EvContainerStop (ctnID ci) stopTimeout)
         (released p ci (emit (EvStreamClose s) (update_session s (set_outputErr None) sh))))
      gs rs.
Proof.
  intros Hs Ho Hp Hn. unfold await_output. cbn [exec do_op]. rewrite Hs, Ho.
  destruct err as [e|]; unfold close_stream; cbn [exec do_op output_result];
    apply release_last; assumption.
Qed.

Lemma stdinCopy_waits (sh : Shared) (s : sid) (ses : Session)
    (rs : list Response) (gs : list Prog) :
  sessions sh !! s = Some ses ->
  stdinEOF ses = false ->
  exec (stdinCopy s) sh rs gs = mkResult (Blocked (stdinCopy s)) sh gs rs.
Proof.
  intros Hs He. unfold stdinCopy. cbn [exec do_op]. rewrite Hs, He. reflexivity.
Qed.

Lemma stdinCopy_closes (sh : Shared) (s : sid) (ses : Session)
    (rs : list Response) (gs : list Prog) :
  sessions sh !! s = Some ses ->
  stdinEOF ses = true ->
  exec (stdinCopy s) sh rs gs
  = mkResult (Returned None)
      (emit (EvCloseWrite s)
         (emit (EvStreamWrite s (stdin ses)) (update_session s (set_stdin []) sh))) gs rs.
Proof.
  intros Hs He. unfold stdinCopy. cbn [exec do_op]. rewrite Hs, He. reflexivity.
Qed.

Lemma run_session_result (sh : Shared) (u : UserName) (isTty : bool) (s : sid) (p : loc)
    (ci : containerInfo) (ses : Session) (execID : string) (data : list byte)
    (rerr : option error) (rs_end : list Response) :
  containerMap sh !! u = Some (PtrContainerInfo p) ->
  heap sh !! p = Some ci ->
  chan_len (manageChan ci) < 20 ->
  chan_cap (manageChan ci) = 20 ->
  sessions sh !! s = Some ses ->
  outputErr ses = None ->
  (chan_len (manageChan ci) = 0 -> exists rs', rs_end = RErr None :: rs') ->
  let R := run_session u isTty s sh [RErr None; RIdErr execID None; RErr None]
             (RData data rerr) rs_end in
  outcome R = Returned (output_result (copy_error isTty data rerr))
  /\ started R = session_goroutines s isTty execID
  /\ exited (final R) = exited sh
  /\ exists ses', sessions (final R) !! s = Some ses'
       /\ stdin ses' = stdin ses /\ stdinEOF ses' = stdinEOF ses.
Proof.
  intros Hu Hp Hn Hcap Hs Ho Hlast R. subst R. unfold run_session.
  rewrite (Connect_registered _ _ _ _ _ _ _ Hu).
  rewrite (session_reaches_wait _ _ _ _ _ _ _ _ _ Hp Hn Hcap Hs Ho).
  cbn [outcome final started app].
  set (sh1 := attached p ci execID sh).
  assert (sessions sh1 !! s = Some ses) as Hs1 by exact Hs.
  destruct (outputCopy_sends s isTty sh1 ses data rerr [] [] Hs1 Ho)
    as (_ & Hs2 & Hh2 & _ & Hx2 & _).
  set (sh2 := final (exec (outputCopy s isTty) sh1 [RData data rerr] [])) in *.
  set (ci' := set_chan_len (S (chan_len (manageChan ci))) ci).
  assert (heap sh2 !! p = Some ci') as Hp2.
  { rewrite Hh2. exact (lookup_after_insert _ _ _ _ Hp). }
  assert (exists sh3,
    exec (await_output s (close_stream s (release p))) sh2 rs_end
      (session_goroutines s isTty execID)
    = mkResult (Returned (output_result (copy_error isTty data rerr))) sh3
        (session_goroutines s isTty execID) (tl rs_end)
      \/ exec (await_output s (close_stream s (release p))) sh2 rs_end
           (session_goroutines s isTty execID)
         = mkResult (Returned (output_result (copy_error isTty data rerr))) sh3
             (session_goroutines s isTty execID) rs_end) as (sh3 & Hex).
  { destruct (chan_len (manageChan ci)) as [|n] eqn:Hlen.
    - destruct (Hlast eq_refl) as [rs' ->]. eexists. left.
      apply (await_output_last sh2 s p ci' _ _ rs' _ Hs2 eq_refl Hp2).
      subst ci'. cbn. try rewrite Hlen. reflexivity.
    - eexists. right.
      apply (await_output_not_last sh2 s p ci' _ _ n rs_end _ Hs2 eq_refl Hp2).
      subst ci'. cbn. try rewrite Hlen. reflexivity. }
  assert (forall sh3 rs3,
    exec (await_output s (close_stream s (release p))) sh2 rs_end
      (session_goroutines s isTty execID)
    = mkResult (Returned (output_result (copy_error isTty data rerr))) sh3
        (session_goroutines s isTty execID) rs3 ->
    sessions sh3 = alter (set_outputErr None) s (sessions sh2)
    /\ exited sh3 = exited sh2) as Hfields.
  { intros sh3' rs3 Heq.
    destruct (chan_len (manageChan ci)) as [|n] eqn:Hlen.
    - destruct (Hlast eq_refl) as [rs' ->].
      rewrite (await_output_last sh2 s p ci' _ _ rs' _ Hs2 eq_refl Hp2) in Heq
        by (subst ci'; cbn; try rewrite Hlen; reflexivity).
      inversion Heq; subst sh3'. split; reflexivity.
    - rewrite (await_output_not_last sh2 s p ci' _ _ n rs_end _ Hs2 eq_refl Hp2) in Heq
        by (subst ci'; cbn; try rewrite Hlen; reflexivity).
      inversion Heq; subst sh3'. split; reflexivity. }
  assert (exited sh2 = exited sh) as Hx by (rewrite Hx2; reflexivity).
  destruct Hex as [Hex|Hex]; rewrite Hex; cbn [outcome final started];
    destruct (Hfields _ _ Hex) as [Hss Hxx];
    (split; [reflexivity|]); (split; [reflexivity|]);
    (split; [congruence|]);
    rewrite Hss, list_lookup_alter_eq, Hs2; eexists; (split; [reflexivity|]);
    split; reflexivity.
Qed.

(** C8 (as the program has it). The result of [Connect] is the result of
    the output copy, unless the process ends in the deferred release. A
    session that got as far as attaching its execution, and whose final
    stop request (if it is the last session to leave) does not fail,
    returns: [nil] exactly when the copy of the execution's output ended
    without error, and the copy error wrapped as a stream-copy error
    otherwise. It returns whether or not stdin has ended: the stdin
    goroutine is started and never waited for; it is still where it was
    started when [Connect] has returned, blocked as long as stdin has not
    ended, and once stdin has ended it writes what it read to the stream
    and closes the stream's write side. *)
Theorem Connect_result_is_output_result (sh : Shared) (u : UserName) (isTty : bool)
    (s : sid) (p : loc) (ci : containerInfo) (ses : Session) (execID : string)
    (data : list byte) (rerr : option error) (rs_end : list Response) :
  containerMap sh !! u = Some (PtrContainerInfo p) ->
  heap sh !! p = Some ci ->
  chan_len (manageChan ci) < 20 ->
  chan_cap (manageChan ci) = 20 ->
  sessions sh !! s = Some ses ->
  outputErr ses = None ->
  (chan_len (manageChan ci) = 0 -> exists rs', rs_end = RErr None :: rs') ->
  let R := run_session u isTty s sh [RErr None; RIdErr execID None; RErr None]
             (RData data rerr) rs_end in
  outcome R = Returned (output_result (copy_error isTty data rerr))
  /\ (outcome R = Returned None <-> copy_error isTty data rerr = None)
  /\ In (stdinCopy s) (started R)
  /\ (stdinEOF ses = false ->
      outcome (exec (stdinCopy s) (final R) [] []) = Blocked (stdinCopy s))
  /\ (stdinEOF ses = true ->
      let R' := exec (stdinCopy s) (final R) [] [] in
      outcome R' = Returned None
      /\ trace (final R')
         = (trace (final R) ++ [EvStreamWrite s (stdin ses)] ++ [EvCloseWrite s])%list).
Proof.
  intros Hu Hp Hn Hcap Hs Ho Hlast R.
  destruct (run_session_result sh u isTty s p ci ses execID data rerr rs_end
              Hu Hp Hn Hcap Hs Ho Hlast)
    as (Hout & Hst & _ & ses' & Hs' & Hin & Heof).
  fold R in Hout, Hst, Hs'. split; [|split; [|split; [|split]]].
  - exact Hout.
  - rewrite Hout. destruct (copy_error isTty data rerr); cbn; split; congruence.
  - rewrite Hst. unfold session_goroutines. apply in_or_app. right. right. left.
    reflexivity.
  - intros He. rewrite (stdinCopy_waits _ _ _ _ _ Hs') by congruence. reflexivity.
  - intros He. rewrite (stdinCopy_closes _ _ _ _ _ Hs') by congruence.
    split; [reflexivity|]. cbn. rewrite Hin, <- app_assoc. reflexivity.
Qed.

Lemma Connect_result_is_output_result_witness :
  outcome (run_session "alice" true 0 (alice_state 0)
             [RErr None; RIdErr "e1" None; RErr None] (RData [x68; x69] None)
             [RErr None])
  = Returned None.
Proof.
  exact (proj1 (Connect_result_is_output_result (alice_state 0) "alice" true 0 0
                  (mkContainerInfo "S1" (mkChan 0 20)) new_session "e1" [x68; x69] None
                  [RErr None] eq_refl eq_refl ltac:(simpl; lia) eq_refl eq_refl eq_refl
                  (fun _ => ex_intro _ [] eq_refl))).
Defined.

(** C8, as stated, fails: the output copy of alice's only session ends
    without error, the stop request after the release fails, and [Connect]
    does not return [nil]: the process exits. *)
Lemma copy_ok_but_no_return :
  ~ returns_iff_copy_ok last_session_stop_fails (copy_error true [x68; x69] None).
Proof.
  intros [_ H]. specialize (H eq_refl). vm_compute in H. discriminate H.
Qed.

(** ** The resize goroutine *)

Lemma exec_resizePump (s : sid) (execID : string) (sh : Shared)
    (rs : list Response) (gs : list Prog) :
  exec (resizePump s execID) sh rs gs = resize_loop s execID (pending s sh) sh rs gs.
Proof. reflexivity. Qed.

Lemma win_recv_got (s : sid) (sh : Shared) (ses : Session) (w : Window) (ws : list Window) :
  sessions sh !! s = Some ses -> winCh ses = w :: ws ->
  win_recv s sh = Got w (update_session s (set_winCh ws) sh).
Proof. intros Hs Hw. unfold win_recv. rewrite Hs, Hw. reflexivity. Qed.

Lemma win_recv_end (s : sid) (sh : Shared) (ses : Session) :
  sessions sh !! s = Some ses -> winCh ses = [] ->
  win_recv s sh = if winClosed ses then Closed else Wait.
Proof. intros Hs Hw. unfold win_recv. rewrite Hs, Hw. reflexivity. Qed.

Lemma set_winCh_id (ses : Session) : set_winCh (winCh ses) ses = ses.
Proof. destruct ses; reflexivity. Qed.

Lemma resize_loop_forwards (s : sid) (execID : string) (ws1 : list Window) :
  forall (rest : list Window) (n : nat) (sh : Shared) (ses : Session)
         (rs : list Response) (gs : list Prog),
    sessions sh !! s = Some ses ->
    winCh ses = (ws1 ++ rest)%list ->
    length ws1 <= n ->
    exists sh',
      resize_loop s execID n sh (repeat (RErr None) (length ws1) ++ rs)%list gs
      = resize_loop s execID (n - length ws1) sh' rs gs
      /\ trace sh' = (trace sh ++ map (resize_request execID) ws1)%list
      /\ same_memory sh sh'
      /\ sessions sh' !! s = Some (set_winCh rest ses).
Proof.
  induction ws1 as [|w ws1 IH]; intros rest n sh ses rs gs Hs Hw Hn.
  - exists sh. cbn [length repeat app map] in *. rewrite Nat.sub_0_r, app_nil_r.
    repeat split. rewrite Hs, <- Hw, set_winCh_id. reflexivity.
  - destruct n as [|n]; [cbn in Hn; lia|].
    cbn [length repeat app] in *.
    set (sh1 := emit (resize_request execID w)
                  (update_session s (set_winCh (ws1 ++ rest)%list) sh)).
    assert (sessions sh1 !! s = Some (set_winCh (ws1 ++ rest)%list ses)) as Hs1.
    { subst sh1. cbn. rewrite list_lookup_alter_eq, Hs. reflexivity. }
    destruct (IH rest n sh1 _ rs gs Hs1 eq_refl ltac:(lia))
      as (sh' & Hrun & Htr & (Hm1 & Hm2 & Hm3) & Hs').
    exists sh'. split; [|split; [|split]].
    + rewrite Nat.sub_succ, <- Hrun. unfold resize_loop at 1. cbn [range_loop].
      rewrite (win_recv_got _ _ _ _ _ Hs Hw). reflexivity.
    + rewrite Htr. subst sh1. cbn. rewrite <- app_assoc. reflexivity.
    + repeat split; [rewrite Hm1 | rewrite Hm2 | rewrite Hm3]; reflexivity.
    + rewrite Hs'. reflexivity.
Qed.

Lemma resizePump_all_forwarded (s : sid) (execID : string) (sh : Shared) (ses : Session)
    (rs : list Response) (gs : list Prog) :
  sessions sh !! s = Some ses ->
  exists sh',
    exec (resizePump s execID) sh (repeat (RErr None) (length (winCh ses)) ++ rs)%list gs
    = mkResult (if winClosed ses then Returned None else Blocked (resizePump s execID))
        sh' gs rs
    /\ trace sh' = (trace sh ++ map (resize_request execID) (winCh ses))%list
    /\ same_memory sh sh'.
Proof.
  intros Hs. rewrite exec_resizePump. unfold pending. rewrite Hs.
  destruct (resize_loop_forwards s execID (winCh ses) [] (length (winCh ses)) sh ses rs gs
              Hs ltac:(rewrite app_nil_r; reflexivity) ltac:(lia))
    as (sh' & Hrun & Htr & Hm & Hs').
  exists sh'. split; [|split; assumption].
  rewrite Hrun, Nat.sub_diag. unfold resize_loop. cbn [range_loop].
  rewrite (win_recv_end _ _ _ Hs' eq_refl). cbn [winClosed set_winCh].
  destruct (winClosed ses); reflexivity.
Qed.

Lemma resizePump_forward_fails (s : sid) (execID : string) (sh : Shared) (ses : Session)
    (ws1 ws2 : list Window) (w : Window) (e : error)
    (rs : list Response) (gs : list Prog) :
  sessions sh !! s = Some ses ->
  winCh ses = (ws1 ++ w :: ws2)%list ->
  exists sh',
    exec (resizePump s execID) sh
      (repeat (RErr None) (length ws1) ++ RErr (Some e) :: rs)%list gs
    = mkResult (Returned None) sh' gs rs
    /\ trace sh'
       = (trace sh ++ map (resize_request execID) ws1
            ++ [resize_request execID w] ++ [EvPrintln e])%list
    /\ same_memory sh sh'
    /\ exists ses', sessions sh' !! s = Some ses' /\ winCh ses' = ws2.
Proof.
  intros Hs Hw. rewrite exec_resizePump. unfold pending. rewrite Hs, Hw.
  destruct (resize_loop_forwards s execID ws1 (w :: ws2) (length (ws1 ++ w :: ws2)) sh ses
              (RErr (Some e) :: rs) gs Hs Hw ltac:(rewrite length_app; lia))
    as (sh1 & Hrun & Htr & (Hm1 & Hm2 & Hm3) & Hs1).
  rewrite Hrun. rewrite length_app. cbn [length].
  replace (length ws1 + S (length ws2) - length ws1) with (S (length ws2)) by lia.
  unfold resize_loop. cbn [range_loop].
  rewrite (win_recv_got _ _ _ w ws2 Hs1 eq_refl).
  eexists. split; [reflexivity|]. cbn. split; [|split].
  - rewrite Htr, <- !app_assoc. reflexivity.
  - repeat split; assumption.
  - rewrite list_lookup_alter_eq, Hs1. eexists. split; reflexivity.
Qed.

Lemma step_frame (w w' : World) (tid t : nat) (r : option Response) :
  step w (AStep tid r) = Some w' ->
  t <> tid -> t < length (threads w) ->
  threads w' !! t = threads w !! t.
Proof.
  intros Hstep Hne Hlt. unfold step in Hstep.
  destruct (exited (shared w)); [discriminate|].
  destruct (threads w !! tid) as [P|]; [|discriminate].
  destruct (thread_step P r (shared w)) as [[[P' sh'] new]|]; [|discriminate].
  inversion Hstep; subst. cbn.
  rewrite lookup_app_l by (rewrite length_insert; exact Hlt).
  apply list_lookup_insert_ne. congruence.
Qed.

(** C9. The resize goroutine of an interactive session sends one resize
    request per event it takes from the channel, in the order of the
    events. When every request succeeds it has forwarded all pending
    events, and then ends if the channel was closed and waits for the next
    event otherwise. When a request fails it prints the error and ends: the
    events behind the failed one stay in the channel and are not forwarded.
    In both cases it ends by returning, registry, records and the exit flag
    of the process are untouched, and a step of the goroutine changes no
    other goroutine, so the session goes on. *)
Theorem resize_forwarding (s : sid) (execID : string) (sh : Shared) (ses : Session)
    (rs : list Response) (gs : list Prog) :
  sessions sh !! s = Some ses ->
  (exists sh',
     exec (resizePump s execID) sh
       (repeat (RErr None) (length (winCh ses)) ++ rs)%list gs
     = mkResult (if winClosed ses then Returned None else Blocked (resizePump s execID))
         sh' gs rs
     /\ trace sh' = (trace sh ++ map (resize_request execID) (winCh ses))%list
     /\ same_memory sh sh')
  /\ (forall ws1 w ws2 e,
        winCh ses = (ws1 ++ w :: ws2)%list ->
        exists sh',
          exec (resizePump s execID) sh
            (repeat (RErr None) (length ws1) ++ RErr (Some e) :: rs)%list gs
          = mkResult (Returned None) sh' gs rs
          /\ trace sh'
             = (trace sh ++ map (resize_request execID) ws1
                  ++ [resize_request execID w] ++ [EvPrintln e])%list
          /\ same_memory sh sh'
          /\ exists ses', sessions sh' !! s = Some ses' /\ winCh ses' = ws2)
  /\ (forall w w' tid t r,
        step w (AStep tid r) = Some w' ->
        t <> tid -> t < length (threads w) ->
        threads w' !! t = threads w !! t).
Proof.
  intros Hs. split; [|split].
  - apply resizePump_all_forwarded, Hs.
  - intros ws1 w ws2 e Hw. eapply resizePump_forward_fails; eassumption.
  - intros w w' tid t r. apply step_frame.
Qed.

(** The scenario of user bob: the channel holds the event {80,24} and is
    closed; exactly one resize request is sent and the goroutine ends. *)
Lemma resize_forwarding_witness :
  exists sh',
    exec (resizePump 0 "e1") bob_state [RErr None] []
    = mkResult (Returned None) sh' [] []
    /\ trace sh' = [EvContainerExecResize "e1" 80 24]
    /\ same_memory bob_state sh'.
Proof.
  exact (proj1 (resize_forwarding 0 "e1" bob_state
                  (mkSession [mkWindow 80 24] true [] false None) [] [] eq_refl)).
Defined.

(** ** The lookup errors *)

Lemma range_loop_returns (Q : option error -> Prop) (body : Window -> Run) (after : Run)
    (self k : Prog) (s : sid) :
  (forall w sh rs gs r, outcome (body w sh rs gs) = Returned r -> Q r) ->
  (forall sh rs gs r, outcome (after sh rs gs) = Returned r -> Q r) ->
  forall n sh rs gs r,
    outcome (range_loop body after self k s n sh rs gs) = Returned r -> Q r.
Proof.
  intros Hbody Hafter. induction n as [|n IH]; intros sh rs gs r; cbn [range_loop].
  - destruct (win_recv s sh); cbn; try discriminate. apply Hafter.
  - destruct (win_recv s sh) as [w sh'| |]; cbn; try discriminate; [|apply Hafter].
    destruct (outcome (body w sh' rs gs)) eqn:Hb; cbn; try discriminate.
    + rewrite Hb. intros [= <-]. eapply Hbody, Hb.
    + rewrite Hb. discriminate.
    + apply IH.
    + apply Hafter.
Qed.

Lemma exec_returns_only (Q : option error -> Prop) (P : Prog) :
  returns_only Q P ->
  forall sh rs gs r, outcome (exec P sh rs gs) = Returned r -> Q r.
Proof.
  induction P as [r0| | X o k IH | X c k IH | child _ k IH | s body IHb k IHk | |];
    intros HP sh rs gs r; cbn [exec]; cbn [outcome]; try discriminate.
  - intros [= <-]. exact HP.
  - destruct (do_op o sh) as [[x sh']|]; [|discriminate]. apply IH, HP.
  - destruct rs as [|a rs]; [discriminate|].
    destruct (reply_of c a); [|discriminate]. apply IH, HP.
  - apply IH, HP.
  - destruct HP as [Hb Hk]. apply range_loop_returns.
    + intros w. apply IHb, Hb.
    + apply IHk, Hk.
Qed.

Lemma returns_only_release (Q : option error -> Prop) (p : loc) (r : option error) :
  Q r -> returns_only Q (release p r).
Proof.
  intros Hr. unfold release. cbn [returns_only]. intros _ n.
  destruct (Nat.eqb n 0); cbn [returns_only]; [|exact Hr].
  intros _ [e|]; cbn [returns_only]; [exact I | exact Hr].
Qed.

Lemma returns_only_session (p : loc) (isTty : bool) (s : sid) :
  returns_only not_lookup_error (session p isTty s).
Proof.
  assert (forall msg e, not_lookup_error (Some (Errorf msg e))) as Hw
    by (intros msg e; split; discriminate).
  assert (not_lookup_error None) as Hnil by (split; discriminate).
  assert (forall execID, returns_only not_lookup_error (attach s isTty execID (release p)))
    as Hattach.
  { intros execID. unfold attach. cbn [returns_only]. intros [e|].
    - apply returns_only_release, Hw.
    - cbn [returns_only]. unfold await_output. cbn [returns_only].
      intros [e|]; unfold close_stream; cbn [returns_only]; intros _;
        apply returns_only_release; auto. }
  unfold session. cbn [returns_only]. intros n.
  destruct (Nat.leb 20 n); cbn [returns_only]; [split; discriminate|].
  intros _ err. destruct (if IsConflict err then None else err); cbn [returns_only];
    [apply Hw|].
  intros _ _ [execID [e|]]; [apply returns_only_release, Hw|].
  destruct isTty; cbn [returns_only]; apply Hattach.
Qed.

(** C10. Every state the process can reach satisfies the invariant that
    the registry holds nothing but [*containerInfo] values, each put there
    by a store of [Create]. Under that invariant the type assertion of
    line 116 cannot fail: [Connect] never returns the parse error; it
    returns the load error exactly when the registry has no entry for the
    user, and that is exactly when no [Create] has stored a record for the
    user. *)
Theorem parse_error_unreachable :
  (forall w, reachable w -> shared_ok (shared w))
  /\ (forall sh u isTty s rs gs,
        shared_ok sh ->
        let R := exec (Connect u isTty s) sh rs gs in
        outcome R <> Returned parse_error
        /\ (outcome R = Returned load_error <-> containerMap sh !! u = None)
        /\ (containerMap sh !! u = None <-> ~ stored u (trace sh))).
Proof.
  split; [intros w Hw; apply reachable_ok, Hw|].
  intros sh u isTty s rs gs (Hh & Hm & Ht) R. subst R.
  assert (containerMap sh !! u = None <-> ¬ stored u (trace sh)) as Hiff.
  { rewrite <- Ht, <- eq_None_not_Some. reflexivity. }
  destruct (containerMap sh !! u) as [v|] eqn:Hu.
  - destruct (Hm _ _ Hu) as [p ->].
    rewrite (Connect_registered _ _ _ _ _ _ _ Hu).
    pose proof (exec_returns_only _ _ (returns_only_session p isTty s) sh rs gs) as Hret.
    split; [|split; [|exact Hiff]].
    + intros H. apply Hret in H as [_ H]. congruence.
    + split; [|discriminate]. intros H. apply Hret in H as [H _]. congruence.
  - unfold Connect. cbn [exec do_op]. rewrite Hu. cbn.
    split; [discriminate|]. split; [|exact Hiff]. split; reflexivity.
Qed.

Lemma parse_error_unreachable_witness :
  outcome (exec (Connect "alice" false 0) empty_shared [] []) = Returned load_error.
Proof.
  apply (proj2 parse_error_unreachable empty_shared "alice" false 0 [] []
           (proj1 init_ok)).
  apply lookup_empty.
Defined.

(** ** Uninterrupted runs are runs of the process *)

Lemma do_op_exited {X : Type} (o : op X) (sh sh' : Shared) (x : X) :
  do_op o sh = Some (x, sh') -> exited sh' = exited sh.
Proof.
  intros H. destruct o; cbn in H;
    repeat match type of H with
      | match ?t with _ => _ end = _ => destruct t eqn:?; try discriminate
      end;
    inversion H; subst; reflexivity.
Qed.

Lemma win_recv_exited (s : sid) (sh sh' : Shared) (w : Window) :
  win_recv s sh = Got w sh' -> exited sh' = exited sh.
Proof.
  unfold win_recv. destruct (sessions sh !! s) as [ses|]; [|discriminate].
  destruct (winCh ses); [destruct (winClosed ses); discriminate|].
  intros [= _ <-]. reflexivity.
Qed.

Lemma step_thread (w : World) (ths gs : list Prog) (tid : nat) (P P' : Prog)
    (r : option Response) (sh' : Shared) (new : list Prog) :
  threads w = (ths ++ gs)%list ->
  ths !! tid = Some P ->
  exited (shared w) = false ->
  thread_step P r (shared w) = Some (P', sh', new) ->
  step w (AStep tid r) = Some (mkWorld sh' (<[tid := P']> ths ++ (gs ++ new))%list)
  /\ <[tid := P']> ths !! tid = Some P'.
Proof.
  intros Hth HP Hex Hstep. pose proof (lookup_lt_Some _ _ _ HP) as Hlt. split.
  - unfold step. rewrite Hex, Hth, (lookup_app_l_Some _ _ _ _ HP), Hstep.
    rewrite insert_app_l by exact Hlt. rewrite <- app_assoc. reflexivity.
  - apply list_lookup_insert_eq, Hlt.
Qed.

Lemma run_cons_step (w w1 w' : World) (a : Action) (acts : list Action) :
  step w a = Some w1 -> run w1 acts = Some w' -> run w (a :: acts) = Some w'.
Proof. intros Hs Hr. cbn. rewrite Hs. exact Hr. Qed.

Lemma steps_of_cons (tid : nat) (r : option Response) (acts : list Action) :
  steps_of tid acts -> steps_of tid (AStep tid r :: acts).
Proof. intros H. constructor; [eauto | exact H]. Qed.

Lemma is_run_of_here (C : Prog -> Prog) (tid : nat) (ths gs : list Prog) (w : World)
    (o : Outcome) (Q : Prog) (rs : list Response) :
  threads w = (ths ++ gs)%list -> ths !! tid = Some (C Q) ->
  exited (shared w) = false -> at_outcome o Q ->
  is_run_of C tid ths w (mkResult o (shared w) gs rs).
Proof.
  intros Hth Htid Hex Hat. exists [], w, Q. cbn.
  repeat (split; [first [reflexivity | constructor | assumption]|]).
  split; [|auto]. rewrite list_insert_id; assumption.
Qed.

Lemma is_run_of_step (C : Prog -> Prog) (tid : nat) (ths gs : list Prog) (w : World)
    (P P' : Prog) (r : option Response) (sh' : Shared) (new : list Prog) (R : Result) :
  threads w = (ths ++ gs)%list -> ths !! tid = Some P ->
  exited (shared w) = false ->
  thread_step P r (shared w) = Some (P', sh', new) ->
  is_run_of C tid (<[tid := P']> ths)
    (mkWorld sh' (<[tid := P']> ths ++ (gs ++ new))%list) R ->
  is_run_of C tid ths w R.
Proof.
  intros Hth Htid Hex Hstep (acts & w' & Q & Hrun & Hsh & Hacts & Hat & Hths & Hx).
  destruct (step_thread w ths gs tid _ _ _ _ _ Hth Htid Hex Hstep) as [Hs _].
  exists (AStep tid r :: acts), w', Q.
  split; [exact (run_cons_step _ _ _ _ _ Hs Hrun)|]. split; [exact Hsh|].
  split; [apply steps_of_cons, Hacts|]. split; [exact Hat|]. split; [|exact Hx].
  rewrite Hths, list_insert_insert_eq. reflexivity.
Qed.

Lemma lookup_insert_self (ths : list Prog) (tid : nat) (P P' : Prog) :
  ths !! tid = Some P -> <[tid := P']> ths !! tid = Some P'.
Proof. intros H. apply list_lookup_insert_eq. eapply lookup_lt_Some, H. Qed.

Section InContext.

(** A loop context: what surrounds the body of a loop, or nothing. *)
Variable C : Prog -> Prog.
Hypothesis C_Fatalf : forall msg e, C (Fatalf msg e) = Fatalf msg e.
Hypothesis C_Do : forall X (o : op X) k, C (Do o k) = Do o (fun x => C (k x)).
Hypothesis C_Call : forall X (c : call X) k, C (Call c k) = Call c (fun x => C (k x)).
Hypothesis C_Go : forall child k, C (Go child k) = Go child (C k).

Lemma exec_run_Fatalf (msg : string) (e : error) (w : World) (ths : list Prog) (tid : nat)
    (rs : list Response) (gs : list Prog) :
  threads w = (ths ++ gs)%list ->
  ths !! tid = Some (C (Fatalf msg e)) ->
  exited (shared w) = false ->
  is_run_of C tid ths w (exec (Fatalf msg e) (shared w) rs gs).
Proof.
  intros Hth Htid Hex. rewrite C_Fatalf in Htid.
  destruct (step_thread w ths gs tid _ _ None _ _ Hth Htid Hex eq_refl) as [Hs _].
  eexists [AStep tid None], _, (Fatalf msg e). cbn [exec outcome final started].
  split; [cbn [run]; rewrite Hs; reflexivity|]. split; [reflexivity|].
  split; [apply steps_of_cons; constructor|].
  split; [exists msg, e; reflexivity|].
  split; [cbn; rewrite C_Fatalf, app_nil_r; reflexivity | congruence].
Qed.

Lemma exec_run_Do {X : Type} (o : op X) (k : X -> Prog) (w : World) (ths : list Prog)
    (tid : nat) (rs : list Response) (gs : list Prog) :
  (forall x w' ths',
     threads w' = (ths' ++ gs)%list -> ths' !! tid = Some (C (k x)) ->
     exited (shared w') = false ->
     is_run_of C tid ths' w' (exec (k x) (shared w') rs gs)) ->
  threads w = (ths ++ gs)%list ->
  ths !! tid = Some (C (Do o k)) ->
  exited (shared w) = false ->
  is_run_of C tid ths w (exec (Do o k) (shared w) rs gs).
Proof.
  intros IH Hth Htid Hex. cbn [exec].
  destruct (do_op o (shared w)) as [[x sh']|] eqn:Hd;
    [|apply (is_run_of_here C tid ths gs w _ (Do o k)); [assumption | assumption | assumption | reflexivity]].
  rewrite C_Do in Htid.
  apply (is_run_of_step C tid ths gs w (Do o (fun x => C (k x))) (C (k x)) None sh' []);
    try assumption.
  - cbn. rewrite Hd. reflexivity.
  - rewrite app_nil_r.
    apply (IH x (mkWorld sh' (<[tid := C (k x)]> ths ++ gs)%list)); cbn.
    + reflexivity.
    + eapply lookup_insert_self, Htid.
    + rewrite (do_op_exited _ _ _ _ Hd). exact Hex.
Qed.

Lemma exec_run_Call {X : Type} (c : call X) (k : X -> Prog) (w : World) (ths : list Prog)
    (tid : nat) (rs : list Response) (gs : list Prog) :
  (forall x rs' w' ths',
     threads w' = (ths' ++ gs)%list -> ths' !! tid = Some (C (k x)) ->
     exited (shared w') = false ->
     is_run_of C tid ths' w' (exec (k x) (shared w') rs' gs)) ->
  threads w = (ths ++ gs)%list ->
  ths !! tid = Some (C (Call c k)) ->
  exited (shared w) = false ->
  is_run_of C tid ths w (exec (Call c k) (shared w) rs gs).
Proof.
  intros IH Hth Htid Hex. cbn [exec].
  destruct rs as [|a rs];
    [apply (is_run_of_here C tid ths gs w _ (Call c k)); [assumption | assumption | assumption | reflexivity]|].
  destruct (reply_of c a) as [x|] eqn:Hr;
    [|apply (is_run_of_here C tid ths gs w _ (Call c k)); [assumption | assumption | assumption | reflexivity]].
  rewrite C_Call in Htid.
  apply (is_run_of_step C tid ths gs w (Call c (fun x => C (k x))) (C (k x)) (Some a)
           (emit (call_event c) (shared w)) []); try assumption.
  - cbn. rewrite Hr. reflexivity.
  - rewrite app_nil_r.
    apply (IH x rs (mkWorld (emit (call_event c) (shared w))
                      (<[tid := C (k x)]> ths ++ gs)%list)); cbn.
    + reflexivity.
    + eapply lookup_insert_self, Htid.
    + exact Hex.
Qed.

Lemma exec_run_Go (child k : Prog) (w : World) (ths : list Prog)
    (tid : nat) (rs : list Response) (gs : list Prog) :
  (forall w' ths',
     threads w' = (ths' ++ (gs ++ [child]))%list -> ths' !! tid = Some (C k) ->
     exited (shared w') = false ->
     is_run_of C tid ths' w' (exec k (shared w') rs (gs ++ [child])%list)) ->
  threads w = (ths ++ gs)%list ->
  ths !! tid = Some (C (Go child k)) ->
  exited (shared w) = false ->
  is_run_of C tid ths w (exec (Go child k) (shared w) rs gs).
Proof.
  intros IH Hth Htid Hex. cbn [exec]. rewrite C_Go in Htid.
  apply (is_run_of_step C tid ths gs w (Go child (C k)) (C k) None (shared w) [child]);
    try assumption; [reflexivity|].
  apply (IH (mkWorld (shared w) (<[tid := C k]> ths ++ (gs ++ [child]))%list)); cbn.
  - reflexivity.
  - eapply lookup_insert_self, Htid.
  - exact Hex.
Qed.

Lemma exec_run_no_loop (P : Prog) :
  no_loop P ->
  forall (w : World) (ths : list Prog) (tid : nat) (rs : list Response) (gs : list Prog),
    threads w = (ths ++ gs)%list ->
    ths !! tid = Some (C P) ->
    exited (shared w) = false ->
    is_run_of C tid ths w (exec P (shared w) rs gs).
Proof.
  induction P as [r0|msg e| X o k IH | X c k IH | child _ k IH | s body _ k _ | |];
    intros HP w ths tid rs gs Hth Htid Hex.
  - apply (is_run_of_here C tid ths gs w _ (Return r0)); [assumption | assumption | assumption | reflexivity].
  - apply exec_run_Fatalf; assumption.
  - apply exec_run_Do; try assumption. intros x w' ths'. apply IH, HP.
  - apply exec_run_Call; try assumption. intros x rs' w' ths'. apply IH, HP.
  - apply exec_run_Go; try assumption. intros w' ths'. apply IH, HP.
  - destruct HP.
  - apply (is_run_of_here C tid ths gs w _ Continue); [assumption | assumption | assumption | reflexivity].
  - apply (is_run_of_here C tid ths gs w _ Break); [assumption | assumption | assumption | reflexivity].
Qed.

End InContext.

Lemma run_app (w w1 : World) (acts1 acts2 : list Action) :
  run w acts1 = Some w1 -> run w (acts1 ++ acts2) = run w1 acts2.
Proof.
  revert w. induction acts1 as [|a acts1 IH]; cbn; intros w H.
  - inversion H; reflexivity.
  - destruct (step w a); [apply IH, H | discriminate].
Qed.

Lemma is_run_of_trans (C : Prog -> Prog) (tid : nat) (ths : list Prog) (X : Prog)
    (w w2 : World) (acts1 : list Action) (R : Result) :
  run w acts1 = Some w2 ->
  steps_of tid acts1 ->
  is_run_of C tid (<[tid := X]> ths) w2 R ->
  is_run_of C tid ths w R.
Proof.
  intros Hrun1 Hacts1 (acts & w' & Q & Hrun & Hsh & Hacts & Hat & Hths & Hx).
  exists (acts1 ++ acts)%list, w', Q.
  split; [rewrite (run_app _ _ _ _ Hrun1); exact Hrun|]. split; [exact Hsh|].
  split; [apply Forall_app; split; assumption|]. split; [exact Hat|].
  split; [|exact Hx]. rewrite Hths, list_insert_insert_eq. reflexivity.
Qed.

Lemma range_loop_run (s : sid) (body : Window -> Prog) (k : Prog) (tid : nat)
    (ths : list Prog) :
  (forall w0, no_loop (body w0)) ->
  (forall w ths' rs gs,
     threads w = (ths' ++ gs)%list -> ths' !! tid = Some k ->
     exited (shared w) = false ->
     is_run_of (fun Q => Q) tid ths' w (exec k (shared w) rs gs)) ->
  ths !! tid = Some (ForRange s body k) ->
  forall n w rs gs,
    threads w = (ths ++ gs)%list ->
    exited (shared w) = false ->
    is_run_of (fun Q => Q) tid ths w
      (range_loop (fun w0 => exec (body w0)) (exec k) (ForRange s body k) k s n
         (shared w) rs gs).
Proof.
  intros Hbody IHk Htid. set (self := ForRange s body k) in *.
  assert (forall w rs gs,
    threads w = (ths ++ gs)%list -> exited (shared w) = false ->
    win_recv s (shared w) = Closed ->
    is_run_of (fun Q => Q) tid ths w (exec k (shared w) rs gs)) as Hclosed.
  { intros w rs gs Hth Hex Hrecv.
    apply (is_run_of_step (fun Q => Q) tid ths gs w self k None (shared w) []);
      try assumption.
    - cbn. rewrite Hrecv. reflexivity.
    - rewrite app_nil_r.
      apply (IHk (mkWorld (shared w) (<[tid := k]> ths ++ gs)%list)); cbn;
        [reflexivity | eapply lookup_insert_self, Htid | exact Hex]. }
  induction n as [|n IHn]; intros w rs gs Hth Hex; cbn [range_loop];
    destruct (win_recv s (shared w)) as [w0 sh'| |] eqn:Hrecv;
    try (apply Hclosed; assumption);
    try (apply (is_run_of_here (fun Q => Q) tid ths gs w _ self);
         [assumption | assumption | assumption | reflexivity]).
  set (T := in_loop self k (body w0)).
  set (w1 := mkWorld sh' (<[tid := T]> ths ++ gs)%list).
  assert (step w (AStep tid None) = Some w1) as Hstep.
  { destruct (step_thread w ths gs tid self T None sh' [] Hth Htid Hex) as [Hs _].
    - cbn. rewrite Hrecv. reflexivity.
    - rewrite app_nil_r in Hs. exact Hs. }
  assert (exited sh' = false) as Hex1
    by (rewrite (win_recv_exited _ _ _ _ Hrecv); exact Hex).
  destruct (exec_run_no_loop (in_loop self k)
              ltac:(reflexivity) ltac:(reflexivity) ltac:(reflexivity) ltac:(reflexivity)
              (body w0) (Hbody w0) w1 (<[tid := T]> ths) tid rs gs eq_refl
              (lookup_insert_self _ _ _ _ Htid) Hex1)
    as (acts1 & w2 & Qb & Hrun1 & Hsh2 & Hacts1 & Hat & Hths2 & Hx).
  cbn [shared w1] in Hsh2, Hat, Hths2, Hx.
  rewrite list_insert_insert_eq in Hths2.
  assert (run w (AStep tid None :: acts1) = Some w2) as Hrun
    by exact (run_cons_step _ _ _ _ _ Hstep Hrun1).
  assert (steps_of tid (AStep tid None :: acts1)) as Hsteps
    by (apply steps_of_cons, Hacts1).
  destruct (outcome (exec (body w0) sh' rs gs)) as [r| |P'| |] eqn:Hout.
  - exists (AStep tid None :: acts1), w2, Qb.
    rewrite Hout. repeat (split; [assumption|]). split; [|exact Hx].
    rewrite Hths2. cbn in Hat. subst Qb. reflexivity.
  - exists (AStep tid None :: acts1), w2, Qb.
    rewrite Hout. repeat (split; [assumption|]). split; [|exact Hx].
    rewrite Hths2. destruct Hat as (msg & e & ->). reflexivity.
  - exists (AStep tid None :: acts1), w2, (in_loop self k P').
    cbn [outcome final started]. cbn in Hat. subst Qb.
    split; [assumption|]. split; [assumption|]. split; [assumption|].
    split; [reflexivity|]. split; [exact Hths2|]. intros _. apply Hx. discriminate.
  - cbn in Hat. subst Qb. cbn [in_loop] in Hths2.
    apply (is_run_of_trans (fun Q => Q) tid ths self w w2 _ _ Hrun Hsteps).
    rewrite (list_insert_id _ _ _ Htid). rewrite <- Hsh2.
    apply IHn; [|rewrite Hsh2; apply Hx; discriminate].
    rewrite Hths2, (list_insert_id _ _ _ Htid). reflexivity.
  - cbn in Hat. subst Qb. cbn [in_loop] in Hths2.
    apply (is_run_of_trans (fun Q => Q) tid ths k w w2 _ _ Hrun Hsteps).
    rewrite <- Hsh2.
    apply IHk; [exact Hths2 | eapply lookup_insert_self, Htid |].
    rewrite Hsh2. apply Hx. discriminate.
Qed.

(** An uninterrupted run of a goroutine is a run of the process in which
    the other goroutines stand still. *)
Lemma exec_run (P : Prog) :
  simple P ->
  forall (w : World) (ths : list Prog) (tid : nat) (rs : list Response) (gs : list Prog),
    threads w = (ths ++ gs)%list ->
    ths !! tid = Some P ->
    exited (shared w) = false ->
    is_run_of (fun Q => Q) tid ths w (exec P (shared w) rs gs).
Proof.
  induction P as [r0|msg e| X o k IH | X c k IH | child _ k IH | s body _ k IHk | |];
    intros HP w ths tid rs gs Hth Htid Hex.
  - apply (is_run_of_here (fun Q => Q) tid ths gs w _ (Return r0));
      [assumption | assumption | assumption | reflexivity].
  - apply (exec_run_Fatalf (fun Q => Q)); [reflexivity | assumption..].
  - apply (exec_run_Do (fun Q => Q)); [reflexivity | | assumption..].
    intros x w' ths'. apply IH, HP.
  - apply (exec_run_Call (fun Q => Q)); [reflexivity | | assumption..].
    intros x rs' w' ths'. apply IH, HP.
  - apply (exec_run_Go (fun Q => Q)); [reflexivity | | assumption..].
    intros w' ths'. apply IH, HP.
  - destruct HP as [Hbody Hk]. cbn [exec].
    apply range_loop_run; try assumption.
    intros w' ths' rs' gs'. apply IHk, Hk.
  - apply (is_run_of_here (fun Q => Q) tid ths gs w _ Continue);
      [assumption | assumption | assumption | reflexivity].
  - apply (is_run_of_here (fun Q => Q) tid ths gs w _ Break);
      [assumption | assumption | assumption | reflexivity].
Qed.

Lemma simple_release (p : loc) (r : option error) : simple (release p r).
Proof.
  unfold release. cbn [simple]. intros _ n.
  destruct (Nat.eqb n 0); cbn [simple]; [|exact I]. intros _ [e|]; exact I.
Qed.

Lemma simple_attach (s : sid) (isTty : bool) (execID : string) (p : loc) :
  simple (attach s isTty execID (release p)).
Proof.
  unfold attach, await_output, close_stream. cbn [simple].
  intros [e|]; [apply simple_release|]. cbn [simple].
  intros [e|] _; apply simple_release.
Qed.

Lemma simple_Connect (u : UserName) (isTty : bool) (s : sid) : simple (Connect u isTty s).
Proof.
  unfold Connect. cbn [simple]. intros [[p|t]|]; cbn [simple]; try exact I.
  unfold session. cbn [simple]. intros n.
  destruct (Nat.leb 20 n); cbn [simple]; [exact I|]. intros _ err.
  destruct (if IsConflict err then None else err); cbn [simple]; [exact I|].
  intros _ _ [execID [e|]]; [apply simple_release|].
  destruct isTty; cbn [simple]; apply simple_attach.
Qed.

Lemma simple_Create (u : UserName) : simple (Create u).
Proof.
  unfold Create. cbn [simple]. intros [resID err].
  destruct (IsConflict err); cbn [simple].
  - intros [infoID [e|]]; cbn [simple]; auto.
  - destruct err; cbn [simple]; auto.
Qed.

Lemma simple_resizePump (s : sid) (execID : string) : simple (resizePump s execID).
Proof.
  unfold resizePump. cbn [simple]. split; [|exact I].
  intros w. unfold forward. cbn [no_loop]. intros [e|]; cbn [no_loop]; auto.
Qed.

Lemma simple_outputCopy (s : sid) (isTty : bool) : simple (outputCopy s isTty).
Proof.
  unfold outputCopy. cbn [simple]. intros [data rerr].
  destruct isTty; cbn [simple]; [auto|].
  destruct (StdCopy data) as [fs derr].
  induction fs as [|[dst payload] fs IH]; cbn [write_frames simple]; auto.
Qed.

Lemma simple_stdinCopy (s : sid) : simple (stdinCopy s).
Proof. unfold stdinCopy. cbn [simple]. auto. Qed.

(** The goroutines of the program, in any living state of the process:
    what [exec] computes for one of them is what the process does when
    that goroutine alone is scheduled. *)
Theorem exec_is_a_run (w : World) (tid : nat) (P : Prog) (rs : list Response) :
  threads w !! tid = Some P ->
  exited (shared w) = false ->
  (exists u, P = Create u) \/ (exists u isTty s, P = Connect u isTty s)
  \/ (exists s execID, P = resizePump s execID)
  \/ (exists s isTty, P = outputCopy s isTty) \/ (exists s, P = stdinCopy s) ->
  is_run_of (fun Q => Q) tid (threads w) w (exec P (shared w) rs []).
Proof.
  intros Htid Hex HP. apply exec_run; [|symmetry; apply app_nil_r|assumption..].
  destruct HP as [[u ->]|[(u & isTty & s & ->)|[(s & execID & ->)|[(s & isTty & ->)|[s ->]]]]].
  - apply simple_Create.
  - apply simple_Connect.
  - apply simple_resizePump.
  - apply simple_outputCopy.
  - apply simple_stdinCopy.
Qed.

(* ===================================================================== *)
(** * Further properties of the program *)
(* ===================================================================== *)

(** ** Container names *)

(** X1. The container of a user is named [user-] followed by the user
    name, and different users get different container names. *)
Theorem containerName_distinct :
  (forall u, String.prefix "user-" (containerName u) = true)
  /\ (forall u1 u2, u1 <> u2 -> containerName u1 <> containerName u2).
Proof.
  split.
  - intros u. unfold containerName. cbv [String.append]. cbn. destruct u; reflexivity.
  - intros u1 u2 Hne H. apply Hne. unfold containerName in H.
    cbv [String.append] in H. congruence.
Qed.

Lemma containerName_distinct_witness : containerName "alice" <> containerName "bob".
Proof.
  apply (proj2 containerName_distinct "alice" "bob"). discriminate.
Defined.

(** ** [Create] under every answer of the runtime *)

Lemma Create_cases (sh : Shared) (u : UserName) (rs : list Response) (gs : list Prog) :
  let R := exec (Create u) sh rs gs in
  (outcome R = Returned None /\ exists id, registers u id sh (final R))
  \/ (outcome R <> Returned None
      /\ containerMap (final R) = containerMap sh /\ heap (final R) = heap sh).
Proof.
  unfold Create. cbn [exec].
  destruct rs as [|r1 rs]; [right; repeat split; discriminate|].
  destruct r1 as [e1|id1 e1|d1 e1]; cbn [reply_of];
    try (right; repeat split; discriminate).
  destruct (IsConflict e1).
  - cbn [exec]. destruct rs as [|r2 rs]; [right; repeat split; discriminate|].
    destruct r2 as [e2|id2 e2|d2 e2]; cbn [reply_of];
      try (right; repeat split; discriminate).
    destruct e2 as [e2|].
    + right. repeat split; discriminate.
    + left. split; [reflexivity|]. exists id2. split; reflexivity.
  - destruct e1 as [e1|].
    + right. repeat split; discriminate.
    + left. split; [reflexivity|]. exists id1. split; reflexivity.
Qed.

Lemma Create_sessions (sh : Shared) (u : UserName) (rs : list Response) (gs : list Prog) :
  sessions (final (exec (Create u) sh rs gs)) = sessions sh
  /\ exited (final (exec (Create u) sh rs gs)) = exited sh.
Proof.
  unfold Create. cbn [exec].
  destruct rs as [|r1 rs]; [split; reflexivity|].
  destruct r1 as [e1|id1 e1|d1 e1]; cbn [reply_of]; try (split; reflexivity).
  destruct (IsConflict e1).
  - cbn [exec]. destruct rs as [|r2 rs]; [split; reflexivity|].
    destruct r2 as [e2|id2 e2|d2 e2]; cbn [reply_of]; try (split; reflexivity).
    destruct e2; split; reflexivity.
  - destruct e1; split; reflexivity.
Qed.

(** X2. [Create] is all or nothing, whatever the runtime answers and
    however many answers arrive: either it returns [nil] and has allocated
    one record with an empty 20-slot channel and made the user's entry point
    at it, or it has not returned [nil] and registry and records are exactly
    as before. In both cases the records that existed and the entries of
    all other users are as they were, the sessions are untouched and the
    process has not exited. *)
Theorem Create_all_or_nothing (sh : Shared) (u : UserName) (rs : list Response)
    (gs : list Prog) :
  let R := exec (Create u) sh rs gs in
  ((outcome R = Returned None /\ exists id, registers u id sh (final R))
   \/ (outcome R <> Returned None
       /\ containerMap (final R) = containerMap sh /\ heap (final R) = heap sh))
  /\ (forall q ci, heap sh !! q = Some ci -> heap (final R) !! q = Some ci)
  /\ (forall u', u' <> u -> containerMap (final R) !! u' = containerMap sh !! u')
  /\ sessions (final R) = sessions sh
  /\ exited (final R) = exited sh.
Proof.
  intros R. pose proof (Create_cases sh u rs gs) as Hc. fold R in Hc.
  split; [exact Hc|]. split; [|split; [|apply Create_sessions]].
  - intros q ci Hq. destruct Hc as [(_ & id & _ & Hh)|(_ & _ & Hh)]; rewrite Hh.
    + apply lookup_app_l_Some, Hq.
    + exact Hq.
  - intros u' Hne. destruct Hc as [(_ & id & Hm & _)|(_ & Hm & _)]; rewrite Hm.
    + apply lookup_insert_ne. congruence.
    + reflexivity.
Qed.

(** X3. What [Connect] starts is the container registered by the latest
    successful [Create] of the user: after a [Create] that succeeded with
    id [id], directly or through a conflict and an inspection, and whatever
    was registered before, the [Connect] of that user finds the new record,
    passes the capacity check and sends its start request for [id]. *)
Theorem Connect_after_Create (sh : Shared) (u : UserName) (x id : string)
    (c e : error) (isTty : bool) (s : sid) (rs : list Response) (gs : list Prog)
    (sh1 : Shared) :
  IsConflict (Some c) = true ->
  IsConflict (Some e) = false ->
  sh1 = final (exec (Create u) sh [RIdErr id None] [])
  \/ sh1 = final (exec (Create u) sh [RIdErr x (Some c); RIdErr id None] []) ->
  exec (Connect u isTty s) sh1 (RErr (Some e) :: rs) gs
  = mkResult (Returned (Some (Errorf "failed to start container" e)))
      (emit (EvContainerStart id) sh1) gs rs.
Proof.
  intros Hc He Hsh1.
  assert (exists sh0, sh1 = registered u id sh0) as [sh0 ->].
  { destruct Hsh1 as [-> | ->].
    - rewrite Create_success. eexists. reflexivity.
    - rewrite Create_conflict by exact Hc. eexists. reflexivity. }
  destruct (registered_lookup u id sh0) as [Hu Hp].
  rewrite (Connect_registered _ _ _ _ _ _ _ Hu).
  rewrite (session_start_failure _ _ _ _ _ _ _ _ Hp ltac:(cbn; lia) He).
  reflexivity.
Qed.

Lemma Connect_after_Create_witness :
  exec (Connect "alice" false 0)
    (final (exec (Create "alice") (alice_state 3) [RIdErr "S9" None] []))
    [RErr (Some boom)] []
  = mkResult (Returned (Some (Errorf "failed to start container" boom)))
      (emit (EvContainerStart "S9")
         (final (exec (Create "alice") (alice_state 3) [RIdErr "S9" None] []))) [] [].
Proof.
  exact (Connect_after_Create (alice_state 3) "alice" "" "S9" conflict boom false 0 [] [] _
           eq_refl eq_refl (or_introl eq_refl)).
Defined.

(** ** What [Connect] and its goroutines never touch *)

Lemma record_kept_same (p : loc) (sh sh' : Shared) :
  containerMap sh' = containerMap sh -> heap sh' = heap sh -> record_kept p sh sh'.
Proof.
  intros Hm Hh. unfold record_kept. rewrite Hm, Hh. repeat split; eauto.
Qed.

Lemma record_kept_trans (p : loc) (a b c : Shared) :
  record_kept p a b -> record_kept p b c -> record_kept p a c.
Proof.
  intros (Hm1 & Hl1 & Ho1 & Hp1) (Hm2 & Hl2 & Ho2 & Hp2). repeat split.
  - congruence.
  - congruence.
  - intros q Hq. rewrite Ho2, Ho1 by exact Hq. reflexivity.
  - intros ci Hci. destruct (Hp1 _ Hci) as (ci1 & H1 & Hid1 & Hcap1).
    destruct (Hp2 _ H1) as (ci2 & H2 & Hid2 & Hcap2).
    exists ci2. repeat split; congruence.
Qed.

Lemma record_kept_set_len (p : loc) (sh : Shared) (ci : containerInfo) (n : nat)
    (e : Event) :
  heap sh !! p = Some ci ->
  record_kept p sh (emit e (set_heap (<[p := set_chan_len n ci]> (heap sh)) sh)).
Proof.
  intros Hp. repeat split; cbn.
  - apply length_insert.
  - intros q Hq. apply list_lookup_insert_ne. congruence.
  - intros ci0 Hci0. rewrite Hp in Hci0. inversion Hci0; subst ci0.
    exists (set_chan_len n ci). split; [|split; reflexivity].
    exact (lookup_after_insert _ _ _ _ Hp).
Qed.

Lemma do_op_confined {X : Type} (p : loc) (o : op X) (sh sh' : Shared) (x : X) :
  op_confined p o -> do_op o sh = Some (x, sh') -> record_kept p sh sh'.
Proof.
  intros Ho Hd. destruct o; cbn in Ho, Hd; try contradiction.
  - inversion Hd; subst. apply record_kept_same; reflexivity.
  - destruct (heap sh !! p0); inversion Hd; subst. apply record_kept_same; reflexivity.
  - destruct (heap sh !! p0); inversion Hd; subst. apply record_kept_same; reflexivity.
  - subst p0. destruct (heap sh !! p) as [ci|] eqn:Hp; [|discriminate].
    destruct (decide _); inversion Hd; subst. apply record_kept_set_len, Hp.
  - subst p0. destruct (heap sh !! p) as [ci|] eqn:Hp; [|discriminate].
    destruct (chan_len (manageChan ci)); inversion Hd; subst.
    apply record_kept_set_len, Hp.
  - destruct (sessions sh !! s) as [ses|]; [|discriminate].
    destruct (outputErr ses); inversion Hd; subst. apply record_kept_same; reflexivity.
  - destruct (sessions sh !! s) as [ses|]; [|discriminate].
    destruct (outputErr ses); inversion Hd; subst. apply record_kept_same; reflexivity.
  - destruct (sessions sh !! s) as [ses|]; [|discriminate].
    destruct (stdinEOF ses); inversion Hd; subst. apply record_kept_same; reflexivity.
  - inversion Hd; subst. apply record_kept_same; reflexivity.
Qed.

Lemma win_recv_kept (p : loc) (s : sid) (sh sh' : Shared) (w : Window) :
  win_recv s sh = Got w sh' -> record_kept p sh sh'.
Proof.
  unfold win_recv. destruct (sessions sh !! s) as [ses|]; [|discriminate].
  destruct (winCh ses); [destruct (winClosed ses); discriminate|].
  intros [= _ <-]. apply record_kept_same; reflexivity.
Qed.

Lemma range_loop_kept (p : loc) (body : Window -> Run) (after : Run) (self k : Prog)
    (s : sid) :
  (forall w sh rs gs, record_kept p sh (final (body w sh rs gs))) ->
  (forall sh rs gs, record_kept p sh (final (after sh rs gs))) ->
  forall n sh rs gs, record_kept p sh (final (range_loop body after self k s n sh rs gs)).
Proof.
  intros Hbody Hafter. induction n as [|n IH]; intros sh rs gs; cbn [range_loop].
  - destruct (win_recv s sh); cbn; try apply Hafter;
      apply record_kept_same; reflexivity.
  - destruct (win_recv s sh) as [w sh'| |] eqn:Hr; cbn;
      [|apply Hafter | apply record_kept_same; reflexivity].
    apply (record_kept_trans _ _ sh'); [eapply win_recv_kept, Hr|].
    pose proof (Hbody w sh' rs gs) as Hb.
    destruct (outcome (body w sh' rs gs)); cbn; try exact Hb.
    + eapply record_kept_trans; [exact Hb | apply IH].
    + eapply record_kept_trans; [exact Hb | apply Hafter].
Qed.

Lemma exec_confined (p : loc) (P : Prog) :
  confined p P -> forall sh rs gs, record_kept p sh (final (exec P sh rs gs)).
Proof.
  induction P as [r0|msg e| X o k IH | X c k IH | child _ k IH | s body IHb k IHk | |];
    intros HP sh rs gs; cbn [exec]; cbn [final];
    try (apply record_kept_same; reflexivity).
  - destruct HP as [Ho Hk].
    destruct (do_op o sh) as [[x sh']|] eqn:Hd; [|apply record_kept_same; reflexivity].
    eapply record_kept_trans; [eapply do_op_confined; eassumption | apply IH, Hk].
  - destruct rs as [|a rs]; [apply record_kept_same; reflexivity|].
    destruct (reply_of c a) as [x|]; [|apply record_kept_same; reflexivity].
    eapply record_kept_trans; [|apply IH, HP]. apply record_kept_same; reflexivity.
  - apply IH, HP.
  - destruct HP as [Hb Hk]. apply range_loop_kept.
    + intros w. apply IHb, Hb.
    + apply IHk, Hk.
Qed.

Lemma confined_release (p : loc) (r : option error) : confined p (release p r).
Proof.
  unfold release. cbn [confined op_confined]. split; [reflexivity|]. intros _.
  split; [exact I|]. intros n. destruct (Nat.eqb n 0); cbn [confined op_confined]; auto.
  split; [exact I|]. intros _ [e|]; exact I.
Qed.

Lemma confined_session (p : loc) (isTty : bool) (s : sid) : confined p (session p isTty s).
Proof.
  assert (forall execID, confined p (attach s isTty execID (release p))) as Hattach.
  { intros execID. unfold attach, await_output, close_stream. cbn [confined op_confined].
    intros [e|]; [apply confined_release|]. cbn [confined op_confined].
    split; [exact I|]. intros [e|]; (split; [exact I|]); intros _; apply confined_release. }
  unfold session. cbn [confined op_confined]. split; [exact I|]. intros n.
  destruct (Nat.leb 20 n); cbn [confined op_confined]; [exact I|].
  split; [exact I|]. intros _ err.
  destruct (if IsConflict err then None else err); cbn [confined op_confined]; [exact I|].
  split; [reflexivity|]. intros _. split; [exact I|].
  intros _ [execID [e|]]; [apply confined_release|].
  destruct isTty; cbn [confined]; apply Hattach.
Qed.

Lemma confined_goroutines (p : loc) (s : sid) (isTty : bool) (execID : string) :
  confined p (resizePump s execID) /\ confined p (outputCopy s isTty)
  /\ confined p (stdinCopy s).
Proof.
  split; [|split].
  - unfold resizePump, forward. cbn [confined op_confined]. split; [|exact I].
    intros w [e|]; cbn [confined op_confined]; auto.
  - unfold outputCopy. cbn [confined]. intros [data rerr].
    destruct isTty; cbn [confined op_confined]; [auto|].
    destruct (StdCopy data) as [fs derr].
    induction fs as [|[dst payload] fs IH]; cbn [write_frames confined op_confined]; auto.
  - unfold stdinCopy. cbn [confined op_confined]. auto.
Qed.

Lemma kept_everywhere (sh sh' : Shared) :
  record_kept 0 sh sh' -> record_kept 1 sh sh' -> heap sh' = heap sh.
Proof.
  intros (_ & _ & H0 & _) (_ & _ & H1 & _). apply list_eq. intros q.
  destruct (decide (q = 0)) as [->|Hq]; [apply H1; discriminate | apply H0, Hq].
Qed.

(** X4. Whatever the runtime answers, a [Connect] changes nothing of the
    registry, nothing of any record but the one registered for its user, and
    of that record neither the id nor the capacity: only its slot count
    moves. A [Connect] for a user without a record changes nothing at all
    and sends no request. The three goroutines a session starts change
    neither the registry nor any record. *)
Theorem Connect_confined (sh : Shared) (u : UserName) (isTty : bool) (s : sid)
    (rs : list Response) (gs : list Prog) :
  match containerMap sh !! u with
  | Some (PtrContainerInfo p) =>
      record_kept p sh (final (exec (Connect u isTty s) sh rs gs))
  | Some (OtherValue _) | None => final (exec (Connect u isTty s) sh rs gs) = sh
  end
  /\ (forall P execID,
        P = resizePump s execID \/ P = outputCopy s isTty \/ P = stdinCopy s ->
        containerMap (final (exec P sh rs gs)) = containerMap sh
        /\ heap (final (exec P sh rs gs)) = heap sh).
Proof.
  split.
  - unfold Connect. cbn [exec do_op].
    destruct (containerMap sh !! u) as [[p|t]|]; try reflexivity.
    apply exec_confined, confined_session.
  - intros P execID HP.
    assert (forall p, confined p P) as Hc.
    { intros p. destruct (confined_goroutines p s isTty execID) as (H1 & H2 & H3).
      destruct HP as [-> | [-> | ->]]; assumption. }
    split.
    + apply (exec_confined 0 P (Hc 0)).
    + apply kept_everywhere; apply exec_confined, Hc.
Qed.

(** ** Records live as long as the process *)

Lemma records_persist_refl (sh sh' : Shared) : heap sh' = heap sh -> records_persist sh sh'.
Proof. intros Hh p ci Hp. rewrite Hh. eauto. Qed.

Lemma records_persist_trans (a b c : Shared) :
  records_persist a b -> records_persist b c -> records_persist a c.
Proof.
  intros H1 H2 p ci Hp. destruct (H1 _ _ Hp) as (ci1 & Hp1 & Hid1 & Hcap1).
  destruct (H2 _ _ Hp1) as (ci2 & Hp2 & Hid2 & Hcap2).
  exists ci2. repeat split; congruence.
Qed.

Lemma records_persist_set_len (sh : Shared) (p n : nat) (ci : containerInfo) (e : Event) :
  heap sh !! p = Some ci ->
  records_persist sh (emit e (set_heap (<[p := set_chan_len n ci]> (heap sh)) sh)).
Proof.
  intros Hp q cq Hq. cbn. destruct (decide (q = p)) as [->|Hne].
  - rewrite Hp in Hq. inversion Hq; subst cq.
    exists (set_chan_len n ci). split; [|split; reflexivity].
    exact (lookup_after_insert _ _ _ _ Hp).
  - exists cq. split; [|split; reflexivity].
    rewrite list_lookup_insert_ne by congruence. exact Hq.
Qed.

Lemma do_op_persist {X : Type} (o : op X) (sh sh' : Shared) (x : X) :
  do_op o sh = Some (x, sh') -> records_persist sh sh'.
Proof.
  intros Hd. destruct o; cbn in Hd.
  - inversion Hd; subst. apply records_persist_refl; reflexivity.
  - inversion Hd; subst. apply records_persist_refl; reflexivity.
  - inversion Hd; subst. intros q cq Hq. exists cq. split; [|split; reflexivity].
    cbn. apply lookup_app_l_Some, Hq.
  - destruct (heap sh !! p); inversion Hd; subst. apply records_persist_refl; reflexivity.
  - destruct (heap sh !! p); inversion Hd; subst. apply records_persist_refl; reflexivity.
  - destruct (heap sh !! p) as [ci|] eqn:Hp; [|discriminate].
    destruct (decide _); inversion Hd; subst. apply records_persist_set_len, Hp.
  - destruct (heap sh !! p) as [ci|] eqn:Hp; [|discriminate].
    destruct (chan_len (manageChan ci)); inversion Hd; subst.
    apply records_persist_set_len, Hp.
  - destruct (sessions sh !! s) as [ses|]; [|discriminate].
    destruct (outputErr ses); inversion Hd; subst. apply records_persist_refl; reflexivity.
  - destruct (sessions sh !! s) as [ses|]; [|discriminate].
    destruct (outputErr ses); inversion Hd; subst. apply records_persist_refl; reflexivity.
  - destruct (sessions sh !! s) as [ses|]; [|discriminate].
    destruct (stdinEOF ses); inversion Hd; subst. apply records_persist_refl; reflexivity.
  - inversion Hd; subst. apply records_persist_refl; reflexivity.
Qed.

Lemma thread_step_persist (P P' : Prog) (r : option Response) (sh sh' : Shared)
    (new : list Prog) :
  thread_step P r sh = Some (P', sh', new) -> records_persist sh sh'.
Proof.
  intros Hs. destruct P; cbn in Hs; try discriminate.
  - inversion Hs; subst. apply records_persist_refl; reflexivity.
  - destruct (do_op o sh) as [[x sh1]|] eqn:Hd; [|discriminate].
    inversion Hs; subst. eapply do_op_persist, Hd.
  - destruct r as [r|]; [|discriminate].
    destruct (reply_of c r); inversion Hs; subst. apply records_persist_refl; reflexivity.
  - inversion Hs; subst. apply records_persist_refl; reflexivity.
  - unfold win_recv in Hs. destruct (sessions sh !! s) as [ses|]; [|discriminate].
    destruct (winCh ses); [destruct (winClosed ses)|]; inversion Hs; subst;
      apply records_persist_refl; reflexivity.
Qed.



(** ** Every return of [Connect] gives the slot back *)

Lemma set_chan_len_back (ci : containerInfo) (n : nat) :
  chan_len (manageChan ci) = n -> set_chan_len n (set_chan_len (S n) ci) = ci.
Proof. destruct ci as [id [l c]]. cbn. intros ->. reflexivity. Qed.

Lemma release_returns (sh : Shared) (p : loc) (ci : containerInfo) (r : option error)
    (n : nat) (rs : list Response) (gs : list Prog) :
  heap sh !! p = Some ci ->
  chan_len (manageChan ci) = S n ->
  exists sh',
    exec (release p r) sh (stop_answer n rs) gs = mkResult (Returned r) sh' gs rs
    /\ heap sh' = <[p := set_chan_len n ci]> (heap sh)
    /\ containerMap sh' = containerMap sh
    /\ sessions sh' = sessions sh
    /\ exited sh' = exited sh
    /\ trace sh' = (trace sh ++ leave_events p (ctnID ci) n)%list.
Proof.
  intros Hp Hn. unfold stop_answer, leave_events. destruct n as [|n]; cbn [Nat.eqb].
  - rewrite (release_last _ _ _ _ _ _ Hp Hn). eexists. split; [reflexivity|].
    unfold released. rewrite Hn. cbn. rewrite <- app_assoc. repeat split.
  - rewrite (release_not_last _ _ _ _ (n) _ _ Hp Hn). eexists. split; [reflexivity|].
    unfold released. rewrite Hn. cbn. repeat split.
Qed.

Lemma session_acquires (sh : Shared) (isTty : bool) (s : sid) (p : loc)
    (ci : containerInfo) (x : string) (err : option error)
    (rs : list Response) (gs : list Prog) :
  heap sh !! p = Some ci ->
  chan_len (manageChan ci) < 20 ->
  chan_cap (manageChan ci) = 20 ->
  exec (session p isTty s) sh (RErr None :: RIdErr x err :: rs) gs
  = exec (match err with
          | Some e => release p (Some (Errorf "failed to create container" e))
          | None =>
              if isTty then Go (resizePump s x) (attach s isTty x (release p))
              else attach s isTty x (release p)
          end)
      (emit (EvContainerExecCreate (ctnID ci)) (acquired p ci sh)) rs gs.
Proof.
  intros Hp Hn Hcap. unfold session. cbn [exec do_op]. rewrite Hp.
  destruct (Nat.leb_spec 20 (chan_len (manageChan ci))); [lia|].
  cbn [exec do_op]. rewrite Hp.
  cbn [exec do_op reply_of IsConflict emit heap call_event]. rewrite Hp.
  rewrite decide_True by lia.
  cbn [exec do_op emit set_heap heap]. rewrite (lookup_after_insert _ _ _ _ Hp).
  cbn [exec reply_of]. reflexivity.
Qed.

Lemma acquired_fields (p : loc) (ci : containerInfo) (sh : Shared) (e : Event) :
  heap sh !! p = Some ci ->
  let sh1 := emit e (acquired p ci sh) in
  heap sh1 !! p = Some (set_chan_len (S (chan_len (manageChan ci))) ci)
  /\ heap sh1 = <[p := set_chan_len (S (chan_len (manageChan ci))) ci]> (heap sh)
  /\ containerMap sh1 = containerMap sh
  /\ sessions sh1 = sessions sh
  /\ exited sh1 = exited sh
  /\ trace sh1
     = (trace sh ++ [EvContainerStart (ctnID ci)]
          ++ [EvSend p (S (chan_len (manageChan ci)))] ++ [e])%list.
Proof.
  intros Hp sh1. subst sh1. cbn. rewrite <- !app_assoc.
  split; [exact (lookup_after_insert _ _ _ _ Hp)|]. repeat split.
Qed.

Lemma heap_back (h : list containerInfo) (p : loc) (ci : containerInfo) :
  h !! p = Some ci ->
  <[p := set_chan_len (chan_len (manageChan ci))
           (set_chan_len (S (chan_len (manageChan ci))) ci)]>
    (<[p := set_chan_len (S (chan_len (manageChan ci))) ci]> h) = h.
Proof.
  intros Hp. rewrite list_insert_insert_eq, set_chan_len_back by reflexivity.
  apply list_insert_id, Hp.
Qed.

Lemma release_any (sh : Shared) (p : loc) (ci : containerInfo) (r serr : option error)
    (n : nat) (rs : list Response) (gs : list Prog) :
  heap sh !! p = Some ci ->
  chan_len (manageChan ci) = S n ->
  exists sh',
    exec (release p r) sh (stop_reply n serr rs) gs
    = mkResult (leave_outcome n serr r) sh' gs rs
    /\ heap sh' = <[p := set_chan_len n ci]> (heap sh)
    /\ containerMap sh' = containerMap sh
    /\ exited sh' = exited_after n serr sh
    /\ trace sh'
       = (trace sh ++ leave_events p (ctnID ci) n ++ fatal_events n serr)%list.
Proof.
  intros Hp Hn.
  unfold stop_reply, leave_outcome, fatal_events, exited_after, stop_failed, leave_events.
  destruct n as [|n]; cbn [Nat.eqb]; [destruct serr as [e|]|].
  - rewrite (release_last_stop_fails _ _ _ _ _ _ _ Hp Hn). eexists. split; [reflexivity|].
    unfold released. rewrite Hn. cbn. rewrite <- ?app_assoc, ?app_nil_r. repeat split.
  - rewrite (release_last _ _ _ _ _ _ Hp Hn). eexists. split; [reflexivity|].
    unfold released. rewrite Hn. cbn. rewrite <- ?app_assoc, ?app_nil_r. repeat split.
  - rewrite (release_not_last _ _ _ _ (n) _ _ Hp Hn). eexists. split; [reflexivity|].
    unfold released. rewrite Hn. cbn. rewrite <- ?app_assoc, ?app_nil_r. repeat split.
Qed.





(** ** A session that runs to its normal end *)

Lemma await_output_returns (sh : Shared) (s : sid) (p : loc) (ci : containerInfo)
    (ses : Session) (err : option error) (n : nat) (rs : list Response) (gs : list Prog) :
  sessions sh !! s = Some ses ->
  outputErr ses = Some err ->
  heap sh !! p = Some ci ->
  chan_len (manageChan ci) = S n ->
  exists sh',
    exec (await_output s (close_stream s (release p))) sh (stop_answer n rs) gs
    = mkResult (Returned (output_result err)) sh' gs rs
    /\ heap sh' = <[p := set_chan_len n ci]> (heap sh)
    /\ containerMap sh' = containerMap sh
    /\ trace sh' = (trace sh ++ [EvStreamClose s] ++ leave_events p (ctnID ci) n)%list.
Proof.
  intros Hs Ho Hp Hn. unfold await_output. cbn [exec do_op]. rewrite Hs, Ho.
  set (sh1 := emit (EvStreamClose s) (update_session s (set_outputErr None) sh)).
  assert (heap sh1 !! p = Some ci) as Hp1 by exact Hp.
  destruct (release_returns sh1 p ci (output_result err) n rs gs Hp1 Hn)
    as (sh' & Hex & Hh & Hm & _ & _ & Ht).
  exists sh'. split; [|split; [exact Hh|split; [exact Hm|]]].
  - destruct err as [e|]; unfold close_stream; cbn [exec do_op output_result]; exact Hex.
  - rewrite Ht. subst sh1. cbn. rewrite <- app_assoc. reflexivity.
Qed.

(** X8. What one session does from its call to its normal return, while no
    other goroutine moves: it asks for the start once, acquires the slot,
    creates and attaches the execution, copies the output, closes the stream
    and only then gives the slot back; it asks for the stop once if no other
    session was attached when it came, and not at all otherwise. It returns
    the result of the output copy and leaves registry and records exactly as
    it found them. *)
Theorem session_alone (sh : Shared) (u : UserName) (isTty : bool) (s : sid) (p : loc)
    (ci : containerInfo) (ses : Session) (execID : string) (data : list byte)
    (rerr : option error) :
  containerMap sh !! u = Some (PtrContainerInfo p) ->
  heap sh !! p = Some ci ->
  chan_len (manageChan ci) < 20 ->
  chan_cap (manageChan ci) = 20 ->
  sessions sh !! s = Some ses ->
  outputErr ses = None ->
  let n := chan_len (manageChan ci) in
  let R := run_session u isTty s sh [RErr None; RIdErr execID None; RErr None]
             (RData data rerr) (stop_answer n []) in
  outcome R = Returned (output_result (copy_error isTty data rerr))
  /\ heap (final R) = heap sh
  /\ containerMap (final R) = containerMap sh
  /\ trace (final R)
     = (trace sh ++ enter_events p (ctnID ci) n
          ++ [EvContainerExecAttach execID] ++ [EvStreamRead s]
          ++ copy_writes s isTty data
          ++ [EvStreamClose s] ++ leave_events p (ctnID ci) n)%list
  /\ count (is_start (ctnID ci)) (enter_events p (ctnID ci) n) = 1
  /\ count (is_stop (ctnID ci)) (leave_events p (ctnID ci) n)
     = (if Nat.eqb n 0 then 1 else 0).
Proof.
  intros Hu Hp Hn Hcap Hs Ho n R. subst R. unfold run_session.
  rewrite (Connect_registered _ _ _ _ _ _ _ Hu).
  rewrite (session_reaches_wait _ _ _ _ _ _ _ _ _ Hp Hn Hcap Hs Ho).
  cbn [outcome final started app].
  destruct (acquired_fields p ci sh (EvContainerExecCreate (ctnID ci)) Hp)
    as (Hp1 & Hh1 & Hm1 & _ & _ & Ht1).
  set (sh1 := attached p ci execID sh).
  assert (sessions sh1 !! s = Some ses) as Hs1 by exact Hs.
  assert (heap sh1 = <[p := set_chan_len (S n) ci]> (heap sh)) as Hh1' by exact Hh1.
  assert (containerMap sh1 = containerMap sh) as Hm1' by exact Hm1.
  assert (trace sh1
          = ((trace sh ++ [EvContainerStart (ctnID ci)] ++ [EvSend p (S n)]
                ++ [EvContainerExecCreate (ctnID ci)])
               ++ [EvContainerExecAttach execID])%list) as Ht1'
    by (subst n; unfold sh1, attached, acquired; cbn; rewrite <- !app_assoc; reflexivity).
  destruct (outputCopy_sends s isTty sh1 ses data rerr [] [] Hs1 Ho)
    as (_ & Hs2 & Hh2 & Hm2 & _ & _).
  pose proof (outputCopy_trace s isTty sh1 data rerr [] []) as Ht2.
  set (sh2 := final (exec (outputCopy s isTty) sh1 [RData data rerr] [])) in *.
  assert (heap sh2 !! p = Some (set_chan_len (S n) ci)) as Hp2
    by (rewrite Hh2; exact Hp1).
  destruct (await_output_returns sh2 s p _ _ _ n [] (session_goroutines s isTty execID)
              Hs2 eq_refl Hp2 eq_refl) as (sh3 & Hex & Hh3 & Hm3 & Ht3).
  rewrite Hex. cbn [outcome final].
  split; [reflexivity|]. split; [|split; [|split; [|split]]].
  - rewrite Hh3, Hh2, Hh1'. apply heap_back, Hp.
  - rewrite Hm3, Hm2. exact Hm1'.
  - rewrite Ht3, Ht2, Ht1'.
    unfold enter_events. cbn [ctnID set_chan_len]. rewrite <- !app_assoc. reflexivity.
  - cbn. rewrite String.eqb_refl. reflexivity.
  - unfold leave_events. cbn. destruct (Nat.eqb n 0); cbn;
      [rewrite String.eqb_refl|]; reflexivity.
Qed.

Lemma session_alone_witness :
  heap (final (run_session "alice" false 0 (alice_state 0)
                 [RErr None; RIdErr "e1" None; RErr None] (RData [] None) [RErr None]))
  = heap (alice_state 0).
Proof.
  exact (proj1 (proj2 (session_alone (alice_state 0) "alice" false 0 0
                         (mkContainerInfo "S1" (mkChan 0 20)) new_session "e1" [] None
                         eq_refl eq_refl ltac:(simpl; lia) eq_refl eq_refl eq_refl))).
Defined.

(** ** What the program asks of the runtime, and how the process ends *)

Lemma requests_ok_write_frames (s : sid) (fs : list Frame) (k : Prog) :
  requests_ok k -> requests_ok (write_frames s fs k).
Proof.
  intros Hk. induction fs as [|[dst payload] fs IH]; cbn; auto.
Qed.

Lemma requests_ok_Create (u : UserName) : requests_ok (Create u).
Proof.
  unfold Create. cbn. split; [exists u; reflexivity|]. intros [resID err].
  destruct (IsConflict err).
  - cbn. split; [exists u; reflexivity|]. intros [infoID [e|]]; cbn; auto.
  - destruct err; cbn; auto.
Qed.

Lemma requests_ok_release (p : loc) (r : option error) : requests_ok (release p r).
Proof.
  unfold release. cbn. split; [exact I|]. intros _. split; [exact I|].
  intros n. destruct (Nat.eqb n 0); cbn; [|exact I].
  split; [exact I|]. intros id. split; [reflexivity|]. intros [e|]; cbn; auto.
Qed.

Lemma requests_ok_attach (s : sid) (isTty : bool) (execID : string)
    (ret : option error -> Prog) :
  (forall r, requests_ok (ret r)) -> requests_ok (attach s isTty execID ret).
Proof.
  intros Hret. unfold attach. cbn. split; [exact I|]. intros [e|]; [apply Hret|].
  cbn. split; [|split].
  - split; [exact I|]. intros [data rerr]. destruct isTty; cbn; [tauto|].
    destruct (StdCopy data) as [fs derr]. apply requests_ok_write_frames. cbn. tauto.
  - tauto.
  - split; [exact I|]. intros [e|]; cbn; auto.
Qed.

Lemma requests_ok_session (p : loc) (isTty : bool) (s : sid) :
  requests_ok (session p isTty s).
Proof.
  unfold session. cbn [requests_ok op_requests_ok]. split; [exact I|]. intros n.
  destruct (Nat.leb 20 n); cbn [requests_ok op_requests_ok]; [exact I|].
  split; [exact I|]. intros id. split; [exact I|]. intros err.
  destruct (if IsConflict err then None else err); cbn [requests_ok op_requests_ok];
    [exact I|].
  split; [exact I|]. intros _. split; [exact I|]. intros id'. split; [exact I|].
  intros [execID [e|]].
  - apply requests_ok_release.
  - assert (requests_ok (attach s isTty execID (release p))) as Ha
      by (apply requests_ok_attach; intros; apply requests_ok_release).
    destruct isTty; [|exact Ha].
    cbn [requests_ok op_requests_ok resizePump]. split; [|exact Ha].
    split; [|exact I]. intros w. unfold forward. cbn. split; [exact I|].
    intros [e|]; cbn; auto.
Qed.

Lemma requests_ok_Connect (u : UserName) (isTty : bool) (s : sid) :
  requests_ok (Connect u isTty s).
Proof.
  unfold Connect. cbn [requests_ok op_requests_ok]. split; [exact I|].
  intros [[p|t]|]; cbn [requests_ok]; auto using requests_ok_session.
Qed.

Lemma requests_ok_in_loop (again after P : Prog) :
  requests_ok again -> requests_ok after -> requests_ok P ->
  requests_ok (in_loop again after P).
Proof.
  intros Ha Hb. induction P; cbn; intros HP; auto; try tauto;
    destruct HP; split; auto.
Qed.

Lemma trace_ok_same (sh sh' : Shared) :
  trace sh' = trace sh -> exited sh' = exited sh -> trace_ok sh -> trace_ok sh'.
Proof. unfold trace_ok. intros -> ->. tauto. Qed.

Lemma trace_ok_emit (e : Event) (sh sh' : Shared) :
  trace sh' = (trace sh ++ [e])%list -> exited sh' = exited sh ->
  request_ok e -> is_fatal e = false -> trace_ok sh -> trace_ok sh'.
Proof.
  unfold trace_ok. intros -> -> He Hf [Htr Hex]. split.
  - apply Forall_app. split; [exact Htr | constructor; [exact He | constructor]].
  - rewrite existsb_app. cbn. rewrite Hf. cbn. rewrite orb_false_r. exact Hex.
Qed.

Lemma do_op_trace_ok {X : Type} (o : op X) (sh sh' : Shared) (x : X) :
  op_requests_ok o -> do_op o sh = Some (x, sh') -> trace_ok sh -> trace_ok sh'.
Proof.
  intros Ho Hd. destruct o; cbn in Hd.
  - inversion Hd; subst. auto.
  - inversion Hd; subst. apply trace_ok_emit with (e := EvStore u v); cbn; auto.
  - inversion Hd; subst. apply trace_ok_same; reflexivity.
  - destruct (heap sh !! p); inversion Hd; subst. auto.
  - destruct (heap sh !! p); inversion Hd; subst. auto.
  - destruct (heap sh !! p) as [ci|]; [|discriminate].
    destruct (decide _); inversion Hd; subst.
    apply trace_ok_emit with (e := EvSend p (S (chan_len (manageChan ci)))); cbn; auto.
  - destruct (heap sh !! p) as [ci|]; [|discriminate].
    destruct (chan_len (manageChan ci)) as [|n]; inversion Hd; subst.
    apply trace_ok_emit with (e := EvRecv p n); cbn; auto.
  - destruct (sessions sh !! s) as [ses|]; [|discriminate].
    destruct (outputErr ses); inversion Hd; subst. apply trace_ok_same; reflexivity.
  - destruct (sessions sh !! s) as [ses|]; [|discriminate].
    destruct (outputErr ses); inversion Hd; subst. apply trace_ok_same; reflexivity.
  - destruct (sessions sh !! s) as [ses|]; [|discriminate].
    destruct (stdinEOF ses); inversion Hd; subst. apply trace_ok_same; reflexivity.
  - inversion Hd; subst. destruct Ho as (He & Hf & _).
    apply trace_ok_emit with (e := e); cbn; auto.
Qed.

Lemma call_event_not_fatal {X : Type} (c : call X) : is_fatal (call_event c) = false.
Proof. destruct c; reflexivity. Qed.

Lemma thread_step_events (P P' : Prog) (r : option Response) (sh sh' : Shared)
    (new : list Prog) :
  requests_ok P -> trace_ok sh -> thread_step P r sh = Some (P', sh', new) ->
  requests_ok P' /\ Forall requests_ok new /\ trace_ok sh'.
Proof.
  intros HP Hsh Hs. destruct P; cbn in Hs; try discriminate.
  - inversion Hs; subst. split; [exact HP|]. split; [constructor|].
    cbn in HP. subst msg. destruct Hsh as [Htr _]. split; cbn.
    + apply Forall_app. split; [exact Htr | constructor; [reflexivity | constructor]].
    + rewrite existsb_app. cbn. rewrite orb_true_r. tauto.
  - destruct (do_op o sh) as [[x sh1]|] eqn:Hd; [|discriminate].
    inversion Hs; subst. destruct HP as [Ho Hk].
    split; [apply Hk|]. split; [constructor|]. eapply do_op_trace_ok; eauto.
  - destruct r as [r|]; [|discriminate].
    destruct (reply_of c r); [|discriminate].
    inversion Hs; subst. destruct HP as [Hc Hk].
    split; [apply Hk|]. split; [constructor|].
    apply trace_ok_emit with (e := call_event c) (sh := sh);
      auto using call_event_not_fatal.
  - inversion Hs; subst. destruct HP as [Hc Hk].
    split; [exact Hk|]. split; [constructor; [exact Hc | constructor] | exact Hsh].
  - destruct HP as [Hbody Hk]. unfold win_recv in Hs.
    destruct (sessions sh !! s) as [ses|]; [|discriminate].
    destruct (winCh ses) as [|w ws]; [destruct (winClosed ses)|]; inversion Hs; subst.
    + split; [exact Hk|]. split; [constructor | exact Hsh].
    + split; [|split; [constructor|]].
      * apply requests_ok_in_loop; [split; assumption | exact Hk | apply Hbody].
      * eapply trace_ok_same; [| |exact Hsh]; reflexivity.
Qed.

Lemma step_events (w w' : World) (a : Action) :
  events_ok w -> step w a = Some w' -> events_ok w'.
Proof.
  intros [Hsh Hth]. unfold step. destruct (exited (shared w)) eqn:Hex; [discriminate|].
  destruct a.
  - intros [= <-]. split; [exact Hsh|]. cbn.
    apply Forall_app. split; [exact Hth | constructor; [apply requests_ok_Create | constructor]].
  - intros [= <-]. split; cbn.
    + eapply trace_ok_same; [| |exact Hsh]; reflexivity.
    + apply Forall_app. split; [exact Hth|].
      constructor; [apply requests_ok_Connect | constructor].
  - intros [= <-]. split; [|exact Hth]. eapply trace_ok_same; [| |exact Hsh]; reflexivity.
  - intros [= <-]. split; [|exact Hth]. eapply trace_ok_same; [| |exact Hsh]; reflexivity.
  - intros [= <-]. split; [|exact Hth]. eapply trace_ok_same; [| |exact Hsh]; reflexivity.
  - intros [= <-]. split; [|exact Hth]. eapply trace_ok_same; [| |exact Hsh]; reflexivity.
  - destruct (threads w !! tid) as [P|] eqn:HP; [|discriminate].
    destruct (thread_step P r (shared w)) as [[[P' sh'] new]|] eqn:Ht; [|discriminate].
    intros [= <-].
    assert (requests_ok P) as HPok by (eapply Forall_lookup_1; eauto).
    destruct (thread_step_events _ _ _ _ _ _ HPok Hsh Ht) as (HP' & Hnew & Hsh').
    split; [exact Hsh'|]. cbn. apply Forall_app. split; [|exact Hnew].
    apply Forall_insert; assumption.
Qed.

Lemma run_events (acts : list Action) :
  forall w w', events_ok w -> run w acts = Some w' -> events_ok w'.
Proof.
  induction acts as [|a acts IH]; cbn; intros w w' Hw Hr.
  - inversion Hr; subst. exact Hw.
  - destruct (step w a) as [w1|] eqn:Hs; [|discriminate].
    eapply IH; [eapply step_events; eauto | exact Hr].
Qed.

Lemma reachable_events (w : World) : reachable w -> events_ok w.
Proof.
  intros [acts Hr]. eapply run_events; [|exact Hr].
  split; [split|]; cbn; [constructor | split; discriminate | constructor].
Qed.

Lemma reachable_world_after (acts : list Action) :
  is_Some (run init acts) -> reachable (world_after acts).
Proof.
  intros [w Hw]. exists acts. unfold world_after. rewrite Hw. reflexivity.
Qed.

Lemma run_snoc (acts : list Action) (a : Action) :
  forall w w', run w (acts ++ [a]) = Some w' ->
  exists w1, run w acts = Some w1 /\ step w1 a = Some w'.
Proof.
  induction acts as [|b acts IH]; cbn; intros w w' Hr.
  - exists w. split; [reflexivity|]. destruct (step w a); [exact Hr | discriminate].
  - destruct (step w b) as [w0|]; [|discriminate]. apply IH, Hr.
Qed.

Lemma step_exits (w w' : World) (a : Action) :
  step w a = Some w' -> exited (shared w') = true ->
  exited (shared w) = false
  /\ exists msg e, trace (shared w') = (trace (shared w) ++ [EvFatalf msg e])%list.
Proof.
  unfold step. destruct (exited (shared w)) eqn:Hex; [discriminate|].
  intros Hs Hex'. split; [reflexivity|].
  destruct a; try (inversion Hs; subst w'; cbn in Hex'; congruence).
  destruct (threads w !! tid) as [P|]; [|discriminate].
  destruct (thread_step P r (shared w)) as [[[P' sh'] new]|] eqn:Ht; [|discriminate].
  inversion Hs; subst w'. cbn in Hex'. cbn.
  destruct P; cbn in Ht; try discriminate.
  - inversion Ht; subst. exists msg, e. reflexivity.
  - destruct (do_op o (shared w)) as [[x sh1]|] eqn:Hd; [|discriminate].
    inversion Ht; subst. apply do_op_exited in Hd. congruence.
  - destruct r as [r|]; [|discriminate].
    destruct (reply_of c r); inversion Ht; subst. cbn in Hex'. congruence.
  - inversion Ht; subst. congruence.
  - unfold win_recv in Ht. destruct (sessions (shared w) !! s) as [ses|]; [|discriminate].
    destruct (winCh ses); [destruct (winClosed ses)|]; inversion Ht; subst;
      cbn in Hex'; congruence.
Qed.

Lemma existsb_is_fatal (tr : list Event) :
  existsb is_fatal tr = true <-> exists msg e, In (EvFatalf msg e) tr.
Proof.
  rewrite existsb_exists. split.
  - intros (x & Hin & Hx). destruct x; try discriminate. eauto.
  - intros (msg & e & Hin). exists (EvFatalf msg e). split; [exact Hin | reflexivity].
Qed.

(** X9. Whatever the callers, the peers and the runtime do, the requests the
    process has sent are well formed: every stop request carries the
    timeout [stopTimeout] of ten seconds, and every create and inspect
    request names the container of some user, [user-] followed by the user
    name. *)
Theorem requests_are_well_formed (w : World) :
  reachable w ->
  (forall id t, In (EvContainerStop id t) (trace (shared w)) -> t = 10)
  /\ (forall n, In (EvContainerCreate n) (trace (shared w))
                \/ In (EvContainerInspect n) (trace (shared w)) ->
                exists u, n = "user-" ++ u).
Proof.
  intros Hw. destruct (reachable_events w Hw) as [[Htr _] _].
  rewrite List.Forall_forall in Htr. split.
  - intros id t Hin. exact (Htr _ Hin).
  - intros n [Hin|Hin]; exact (Htr _ Hin).
Qed.

Lemma requests_are_well_formed_witness :
  (forall id t, In (EvContainerStop id t) (trace (shared (world_after double_stop))) -> t = 10)
  /\ (forall n, In (EvContainerCreate n) (trace (shared (world_after double_stop)))
                \/ In (EvContainerInspect n) (trace (shared (world_after double_stop))) ->
                exists u, n = "user-" ++ u).
Proof.
  apply (requests_are_well_formed (world_after double_stop)).
  exists double_stop. vm_compute. reflexivity.
Defined.

(** X10. The process ends in one way only. In every reachable state the
    process has exited exactly when the log holds the entry of line 136 for
    a failed stop request; no other fatal entry is ever logged, and the
    entry is the last thing the process did. *)
Theorem exit_only_by_failed_stop (w : World) :
  reachable w ->
  (exited (shared w) = true <->
   exists e, In (EvFatalf "failed to stop container" e) (trace (shared w)))
  /\ (forall msg e, In (EvFatalf msg e) (trace (shared w)) ->
        msg = "failed to stop container"
        /\ exists tr, trace (shared w) = (tr ++ [EvFatalf msg e])%list
                      /\ existsb is_fatal tr = false).
Proof.
  intros Hw. destruct (reachable_events w Hw) as [[Htr Hex] _].
  rewrite List.Forall_forall in Htr.
  assert (forall msg e, In (EvFatalf msg e) (trace (shared w)) ->
            msg = "failed to stop container") as Hmsg
    by (intros msg e Hin; exact (Htr _ Hin)).
  split.
  - rewrite Hex, existsb_is_fatal. split.
    + intros (msg & e & Hin). pose proof (Hmsg _ _ Hin) as ->. eauto.
    + intros (e & Hin). eauto.
  - intros msg e Hin. split; [exact (Hmsg _ _ Hin)|].
    assert (exited (shared w) = true) as Hexw
      by (apply Hex, existsb_is_fatal; eauto).
    destruct Hw as [acts Hr].
    destruct (exists_last (l := acts)) as (acts0 & a & ->).
    { intros ->. inversion Hr; subst w. discriminate Hexw. }
    apply run_snoc in Hr. destruct Hr as (w0 & Hr0 & Hs).
    destruct (step_exits _ _ _ Hs Hexw) as (Hex0 & msg' & e' & Ht).
    destruct (reachable_events w0 (ex_intro _ acts0 Hr0)) as [[_ Hex0'] _].
    assert (existsb is_fatal (trace (shared w0)) = false) as Hnone.
    { destruct (existsb is_fatal (trace (shared w0))); [|reflexivity].
      rewrite (proj2 Hex0' eq_refl) in Hex0. discriminate. }
    rewrite Ht in Hin. apply in_app_or in Hin. destruct Hin as [Hin|Hin].
    + assert (existsb is_fatal (trace (shared w0)) = true) as Hyes
        by (apply existsb_is_fatal; eauto).
      congruence.
    + destruct Hin as [Heq|[]]. inversion Heq; subst msg' e'.
      exists (trace (shared w0)). split; [exact Ht | exact Hnone].
Qed.

Lemma exit_only_by_failed_stop_witness :
  (exited (shared (world_after stop_fails)) = true <->
   exists e, In (EvFatalf "failed to stop container" e)
               (trace (shared (world_after stop_fails))))
  /\ (forall msg e, In (EvFatalf msg e) (trace (shared (world_after stop_fails))) ->
        msg = "failed to stop container"
        /\ exists tr, trace (shared (world_after stop_fails)) = (tr ++ [EvFatalf msg e])%list
                      /\ existsb is_fatal tr = false).
Proof.
  apply (exit_only_by_failed_stop (world_after stop_fails)).
  exists stop_fails. vm_compute. reflexivity.
Defined.

(** ** The registry points at records that exist *)

Lemma stores_valid_mono (P : Prog) :
  forall h h', h <= h' -> stores_valid P h -> stores_valid P h'.
Proof.
  induction P as [r|msg e|X o k IH|X c k IH|child IHc k IHk|s body IHb k IHk| |];
    intros h h' Hle HP; cbn in *; auto.
  - destruct o; cbn in *; try (intros x; eapply IH; [exact Hle | apply HP]).
    + destruct HP as [Hv Hk]. split; [intros p Hp; specialize (Hv p Hp); lia|].
      eapply IH; [exact Hle | exact Hk].
    + intros h'' Hle'. apply HP. lia.
  - intros x. eapply IH; [exact Hle | apply HP].
  - destruct HP. split; eauto.
  - destruct HP as [Hb Hk]. split; [intros w; eapply IHb; [exact Hle | apply Hb] | eauto].
Qed.

Lemma stores_valid_in_loop (again after P : Prog) :
  forall h, stores_valid again h -> stores_valid after h -> stores_valid P h ->
  stores_valid (in_loop again after P) h.
Proof.
  induction P as [r|msg e|X o k IH|X c k IH|child IHc k IHk|s body IHb k IHk| |];
    intros h Ha Hb HP; cbn in *; auto.
  - destruct o; cbn in *; try (intros x; apply IH; [exact Ha | exact Hb | apply HP]).
    + destruct HP as [Hv Hk]. split; [exact Hv|]. apply IH; assumption.
    + intros h' Hle. apply IH; [| |apply HP, Hle].
      * eapply stores_valid_mono; [|exact Ha]. lia.
      * eapply stores_valid_mono; [|exact Hb]. lia.
  - destruct HP. split; auto.
  - destruct HP. split; auto.
Qed.

Lemma stores_valid_write_frames (s : sid) (fs : list Frame) (k : Prog) (h : nat) :
  stores_valid k h -> stores_valid (write_frames s fs k) h.
Proof.
  intros Hk. induction fs as [|[dst payload] fs IH]; cbn; auto.
Qed.

Lemma stores_valid_Create (u : UserName) (h : nat) : stores_valid (Create u) h.
Proof.
  unfold Create. cbn. intros [resID err].
  destruct (IsConflict err).
  - cbn. intros [infoID [e|]]; cbn; [exact I|].
    intros h' _. split; [|exact I]. intros p [= <-]. lia.
  - destruct err; cbn; [exact I|].
    intros h' _. split; [|exact I]. intros p [= <-]. lia.
Qed.

Lemma stores_valid_release (p : loc) (r : option error) (h : nat) :
  stores_valid (release p r) h.
Proof.
  unfold release. cbn. intros _ n. destruct (Nat.eqb n 0); cbn; [|exact I].
  intros id [e|]; exact I.
Qed.

Lemma stores_valid_attach (s : sid) (isTty : bool) (execID : string)
    (ret : option error -> Prog) (h : nat) :
  (forall r, stores_valid (ret r) h) -> stores_valid (attach s isTty execID ret) h.
Proof.
  intros Hret. unfold attach. cbn. intros [e|]; [apply Hret|].
  cbn. split; [|split].
  - intros [data rerr]. destruct isTty; cbn; [intros _ _; exact I|].
    destruct (StdCopy data) as [fs derr]. apply stores_valid_write_frames. cbn.
    intros _; exact I.
  - intros _ _ _. exact I.
  - intros [e|]; cbn; intros _; apply Hret.
Qed.

Lemma stores_valid_session (p : loc) (isTty : bool) (s : sid) (h : nat) :
  stores_valid (session p isTty s) h.
Proof.
  unfold session. cbn [stores_valid op_stores_valid]. intros n.
  destruct (Nat.leb 20 n); cbn [stores_valid op_stores_valid]; [exact I|].
  intros id err.
  destruct (if IsConflict err then None else err); cbn [stores_valid op_stores_valid];
    [exact I|].
  intros _ id' [execID [e|]].
  - apply stores_valid_release.
  - assert (stores_valid (attach s isTty execID (release p)) h) as Ha
      by (apply stores_valid_attach; intros; apply stores_valid_release).
    destruct isTty; [|exact Ha].
    cbn [stores_valid op_stores_valid resizePump]. split; [|exact Ha].
    split; [|exact I]. intros w. unfold forward. cbn.
    intros [e|]; cbn; auto.
Qed.

Lemma stores_valid_Connect (u : UserName) (isTty : bool) (s : sid) (h : nat) :
  stores_valid (Connect u isTty s) h.
Proof.
  unfold Connect. cbn [stores_valid op_stores_valid].
  intros [[p|t]|]; cbn [stores_valid]; auto using stores_valid_session.
Qed.

Lemma registry_valid_same (sh sh' : Shared) :
  containerMap sh' = containerMap sh -> length (heap sh) <= length (heap sh') ->
  registry_valid sh -> registry_valid sh'.
Proof.
  intros Hm Hl Hv u p Hu. rewrite Hm in Hu. specialize (Hv u p Hu). lia.
Qed.

Lemma do_op_pointers {X : Type} (o : op X) (sh sh' : Shared) (x : X)
    (K : X -> nat -> Prop) :
  op_stores_valid o (length (heap sh)) K -> registry_valid sh ->
  do_op o sh = Some (x, sh') ->
  K x (length (heap sh')) /\ length (heap sh) <= length (heap sh') /\ registry_valid sh'.
Proof.
  intros Ho Hv Hd. destruct o; cbn in Hd, Ho.
  - inversion Hd; subst. auto.
  - inversion Hd; subst. destruct Ho as [Hp HK]. cbn. split; [exact HK|]. split; [lia|].
    intros u' p Hu. cbn in Hu. destruct (decide (u' = u)) as [->|Hne].
    + rewrite lookup_insert_eq in Hu. inversion Hu; subst. apply Hp. reflexivity.
    + rewrite lookup_insert_ne in Hu by congruence. apply (Hv u' p Hu).
  - inversion Hd; subst. cbn. rewrite length_app. cbn.
    replace (length (heap sh) + 1) with (S (length (heap sh))) by lia.
    split; [apply Ho; lia|]. split; [lia|].
    intros u p Hu. cbn in Hu. specialize (Hv u p Hu). cbn. rewrite length_app. cbn. lia.
  - destruct (heap sh !! p); inversion Hd; subst. auto.
  - destruct (heap sh !! p); inversion Hd; subst. auto.
  - destruct (heap sh !! p) as [ci|]; [|discriminate].
    destruct (decide _); inversion Hd; subst. cbn. rewrite length_insert.
    split; [apply Ho|]. split; [lia|].
    eapply registry_valid_same; [| |exact Hv]; cbn; [reflexivity|].
    rewrite length_insert. lia.
  - destruct (heap sh !! p) as [ci|]; [|discriminate].
    destruct (chan_len (manageChan ci)) as [|n]; inversion Hd; subst.
    cbn. rewrite length_insert.
    split; [apply Ho|]. split; [lia|].
    eapply registry_valid_same; [| |exact Hv]; cbn; [reflexivity|].
    rewrite length_insert. lia.
  - destruct (sessions sh !! s) as [ses|]; [|discriminate].
    destruct (outputErr ses); inversion Hd; subst. cbn. auto.
  - destruct (sessions sh !! s) as [ses|]; [|discriminate].
    destruct (outputErr ses); inversion Hd; subst. cbn. auto.
  - destruct (sessions sh !! s) as [ses|]; [|discriminate].
    destruct (stdinEOF ses); inversion Hd; subst. cbn. auto.
  - inversion Hd; subst. cbn. auto.
Qed.

Lemma thread_step_pointers (P P' : Prog) (r : option Response) (sh sh' : Shared)
    (new : list Prog) :
  stores_valid P (length (heap sh)) -> registry_valid sh ->
  thread_step P r sh = Some (P', sh', new) ->
  stores_valid P' (length (heap sh'))
  /\ Forall (fun Q => stores_valid Q (length (heap sh'))) new
  /\ length (heap sh) <= length (heap sh')
  /\ registry_valid sh'.
Proof.
  intros HP Hv Hs. destruct P; cbn in Hs; try discriminate.
  - inversion Hs; subst. cbn. auto.
  - destruct (do_op o sh) as [[x sh1]|] eqn:Hd; [|discriminate].
    inversion Hs; subst. cbn in HP.
    destruct (do_op_pointers _ _ _ _ _ HP Hv Hd) as (HK & Hl & Hv').
    auto.
  - destruct r as [r|]; [|discriminate].
    destruct (reply_of c r); [|discriminate].
    inversion Hs; subst. cbn. split; [apply HP|]. auto.
  - inversion Hs; subst. destruct HP as [Hc Hk].
    split; [exact Hk|]. split; [constructor; [exact Hc | constructor]|]. auto.
  - destruct HP as [Hbody Hk]. unfold win_recv in Hs.
    destruct (sessions sh !! s) as [ses|]; [|discriminate].
    destruct (winCh ses) as [|w ws]; [destruct (winClosed ses)|]; inversion Hs; subst.
    + auto.
    + cbn. split; [|auto].
      apply stores_valid_in_loop; [split; assumption | exact Hk | apply Hbody].
Qed.

Lemma step_pointers (w w' : World) (a : Action) :
  pointers_ok w -> step w a = Some w' -> pointers_ok w'.
Proof.
  intros [Hv Hth]. unfold step. destruct (exited (shared w)) eqn:Hex; [discriminate|].
  destruct a; try (intros [= <-]; split; [exact Hv | exact Hth]).
  - intros [= <-]. split; [exact Hv|]. cbn.
    apply Forall_app. split; [exact Hth | constructor; [apply stores_valid_Create | constructor]].
  - intros [= <-]. split; [exact Hv|]. cbn.
    apply Forall_app. split; [exact Hth|].
    constructor; [apply stores_valid_Connect | constructor].
  - destruct (threads w !! tid) as [P|] eqn:HP; [|discriminate].
    destruct (thread_step P r (shared w)) as [[[P' sh'] new]|] eqn:Ht; [|discriminate].
    intros [= <-].
    assert (stores_valid P (length (heap (shared w)))) as HPok
      by (eapply (Forall_lookup_1 (fun Q => stores_valid Q _)); eauto).
    destruct (thread_step_pointers _ _ _ _ _ _ HPok Hv Ht) as (HP' & Hnew & Hl & Hv').
    split; [exact Hv'|]. cbn. apply Forall_app. split; [|exact Hnew].
    apply Forall_insert; [|exact HP'].
    eapply Forall_impl; [exact Hth|]. intros Q HQ. cbn in HQ.
    eapply stores_valid_mono; [exact Hl | exact HQ].
Qed.

Lemma run_pointers (acts : list Action) :
  forall w w', pointers_ok w -> run w acts = Some w' -> pointers_ok w'.
Proof.
  induction acts as [|a acts IH]; cbn; intros w w' Hw Hr.
  - inversion Hr; subst. exact Hw.
  - destruct (step w a) as [w1|] eqn:Hs; [|discriminate].
    eapply IH; [eapply step_pointers; eauto | exact Hr].
Qed.

Lemma reachable_pointers (w : World) : reachable w -> pointers_ok w.
Proof.
  intros [acts Hr]. eapply run_pointers; [|exact Hr].
  split; [|constructor]. intros u p Hu. cbn in Hu. rewrite lookup_empty in Hu. discriminate.
Qed.

(** X11. An entry of the registry is always usable. In every state the
    process can reach, whatever is registered for a user is a pointer to a
    record that exists, whose channel has capacity 20 and holds at most 20
    elements. So for a registered user [Connect] always gets as far as the
    capacity check: if the start request then fails (with an error other
    than a conflict), the call returns either the capacity error or the
    start failure, and never stops at a missing record. *)
Theorem registry_entries_usable (w : World) (u : UserName) (v : any) :
  reachable w ->
  containerMap (shared w) !! u = Some v ->
  (exists p ci,
     v = PtrContainerInfo p /\ heap (shared w) !! p = Some ci
     /\ chan_cap (manageChan ci) = 20 /\ chan_len (manageChan ci) <= 20)
  /\ (forall isTty s e rs gs,
        IsConflict (Some e) = false ->
        let R := exec (Connect u isTty s) (shared w) (RErr (Some e) :: rs) gs in
        outcome R = Returned (Some (ErrorsNew "too many shell"))
        \/ outcome R = Returned (Some (Errorf "failed to start container" e))).
Proof.
  intros Hw Hu.
  destruct (reachable_ok w Hw) as [(Hheap & Hptr & _) _].
  destruct (reachable_pointers w Hw) as [Hv _].
  destruct (Hptr u v Hu) as [p ->].
  pose proof (Hv u p Hu) as Hlt.
  destruct (lookup_lt_is_Some_2 _ _ Hlt) as [ci Hp].
  destruct (Forall_lookup_1 _ _ _ _ Hheap Hp) as [Hlen Hcap].
  split.
  - exists p, ci. repeat (split; [solve [reflexivity | assumption | lia]|]). lia.
  - intros isTty s e rs gs He R. subst R. rewrite (Connect_registered _ _ _ _ p _ _ Hu).
    destruct (le_lt_dec 20 (chan_len (manageChan ci))) as [Hfull|Hfree].
    + left. rewrite (session_full _ _ _ _ _ _ _ Hp Hfull). reflexivity.
    + right. rewrite (session_start_failure _ _ _ _ _ _ _ _ Hp Hfree He). reflexivity.
Qed.

Lemma registry_entries_usable_witness :
  (exists p ci,
     PtrContainerInfo 0 = PtrContainerInfo p
     /\ heap (shared (world_after setup)) !! p = Some ci
     /\ chan_cap (manageChan ci) = 20 /\ chan_len (manageChan ci) <= 20)
  /\ (forall isTty s e rs gs,
        IsConflict (Some e) = false ->
        let R := exec (Connect "alice" isTty s) (shared (world_after setup))
                   (RErr (Some e) :: rs) gs in
        outcome R = Returned (Some (ErrorsNew "too many shell"))
        \/ outcome R = Returned (Some (Errorf "failed to start container" e))).
Proof.
  apply (registry_entries_usable (world_after setup) "alice" (PtrContainerInfo 0)).
  - exists setup. vm_compute. reflexivity.
  - vm_compute. reflexivity.
Defined.

(** ** Slots are conserved *)

Lemma count_app (f : Event -> bool) (tr1 tr2 : list Event) :
  count f (tr1 ++ tr2) = count f tr1 + count f tr2.
Proof. induction tr1 as [|e tr1 IH]; cbn; [reflexivity | rewrite IH; lia]. Qed.

Lemma slots_balanced_same (sh sh' : Shared) :
  trace sh' = trace sh -> heap sh' = heap sh -> slots_balanced sh -> slots_balanced sh'.
Proof. unfold slots_balanced, slots. intros -> ->. auto. Qed.

Lemma slots_balanced_emit (e : Event) (sh sh' : Shared) :
  trace sh' = (trace sh ++ [e])%list -> heap sh' = heap sh ->
  (forall p, is_send p e = false) -> (forall p, is_recv p e = false) ->
  slots_balanced sh -> slots_balanced sh'.
Proof.
  unfold slots_balanced, slots. intros -> -> Hs Hr Hb p.
  rewrite !count_app. cbn. rewrite Hs, Hr, Hb. cbn. lia.
Qed.

Lemma not_memory_event (e : Event) (p : loc) :
  is_memory_event e = false -> is_send p e = false /\ is_recv p e = false.
Proof. destruct e; cbn; intros H; try discriminate; auto. Qed.

Lemma slots_set_len (sh : Shared) (p q : loc) (ci : containerInfo) (n : nat) (e : Event) :
  heap sh !! p = Some ci ->
  slots q (emit e (set_heap (<[p := set_chan_len n ci]> (heap sh)) sh))
  = if Nat.eqb p q then n else slots q sh.
Proof.
  intros Hp. unfold slots. cbn. destruct (Nat.eqb_spec p q) as [<-|Hne].
  - rewrite list_lookup_insert_eq by (eapply lookup_lt_Some; exact Hp). reflexivity.
  - rewrite list_lookup_insert_ne by exact Hne. reflexivity.
Qed.

Lemma do_op_balanced {X : Type} (o : op X) (sh sh' : Shared) (x : X) :
  op_requests_ok o -> do_op o sh = Some (x, sh') ->
  slots_balanced sh -> slots_balanced sh'.
Proof.
  intros Ho Hd Hb. destruct o; cbn in Hd.
  - inversion Hd; subst. exact Hb.
  - inversion Hd; subst.
    apply slots_balanced_emit with (e := EvStore u v) (sh := sh); auto.
  - inversion Hd; subst. intros p. specialize (Hb p). unfold slots in *. cbn.
    destruct (heap sh !! p) as [ci|] eqn:Hp.
    + rewrite (lookup_app_l_Some _ _ _ _ Hp). exact Hb.
    + rewrite lookup_app_r by (apply lookup_ge_None; exact Hp).
      destruct (p - length (heap sh)) as [|k]; cbn; exact Hb.
  - destruct (heap sh !! p); inversion Hd; subst. exact Hb.
  - destruct (heap sh !! p); inversion Hd; subst. exact Hb.
  - destruct (heap sh !! p) as [ci|] eqn:Hp; [|discriminate].
    destruct (decide _); inversion Hd; subst. intros q.
    rewrite (slots_set_len _ _ _ _ _ _ Hp). cbn [trace emit set_heap].
    rewrite !count_app. cbn. specialize (Hb q).
    destruct (Nat.eqb_spec p q) as [<-|Hne].
    + unfold slots in Hb. rewrite Hp in Hb. lia.
    + lia.
  - destruct (heap sh !! p) as [ci|] eqn:Hp; [|discriminate].
    destruct (chan_len (manageChan ci)) as [|n] eqn:Hn; inversion Hd; subst. intros q.
    rewrite (slots_set_len _ _ _ _ _ _ Hp). cbn [trace emit set_heap].
    rewrite !count_app. cbn. specialize (Hb q).
    destruct (Nat.eqb_spec p q) as [<-|Hne].
    + unfold slots in Hb. rewrite Hp, Hn in Hb. lia.
    + lia.
  - destruct (sessions sh !! s) as [ses|]; [|discriminate].
    destruct (outputErr ses); inversion Hd; subst.
    eapply slots_balanced_same; [| |exact Hb]; reflexivity.
  - destruct (sessions sh !! s) as [ses|]; [|discriminate].
    destruct (outputErr ses); inversion Hd; subst.
    eapply slots_balanced_same; [| |exact Hb]; reflexivity.
  - destruct (sessions sh !! s) as [ses|]; [|discriminate].
    destruct (stdinEOF ses); inversion Hd; subst.
    eapply slots_balanced_same; [| |exact Hb]; reflexivity.
  - inversion Hd; subst. destruct Ho as (_ & _ & Hm).
    apply slots_balanced_emit with (e := e) (sh := sh); auto;
      intros p; apply (not_memory_event e p Hm).
Qed.

Lemma thread_step_balanced (P P' : Prog) (r : option Response) (sh sh' : Shared)
    (new : list Prog) :
  requests_ok P -> thread_step P r sh = Some (P', sh', new) ->
  slots_balanced sh -> slots_balanced sh'.
Proof.
  intros HP Hs Hb. destruct P; cbn in Hs; try discriminate.
  - inversion Hs; subst.
    apply slots_balanced_emit with (e := EvFatalf msg e) (sh := sh); auto.
  - destruct (do_op o sh) as [[x sh1]|] eqn:Hd; [|discriminate].
    inversion Hs; subst. destruct HP as [Ho _]. eapply do_op_balanced; eauto.
  - destruct r as [r|]; [|discriminate].
    destruct (reply_of c r); [|discriminate]. inversion Hs; subst.
    apply slots_balanced_emit with (e := call_event c) (sh := sh); auto;
      intros p; destruct c; reflexivity.
  - inversion Hs; subst. exact Hb.
  - unfold win_recv in Hs. destruct (sessions sh !! s) as [ses|]; [|discriminate].
    destruct (winCh ses); [destruct (winClosed ses)|]; inversion Hs; subst;
      solve [exact Hb | eapply slots_balanced_same; [| |exact Hb]; reflexivity].
Qed.

Lemma step_balanced (w w' : World) (a : Action) :
  Forall requests_ok (threads w) -> step w a = Some w' ->
  slots_balanced (shared w) -> slots_balanced (shared w').
Proof.
  intros Hth. unfold step. destruct (exited (shared w)); [discriminate|].
  destruct a;
    try (intros [= <-] Hb; cbn;
         solve [exact Hb | eapply slots_balanced_same; [| |exact Hb]; reflexivity]).
  destruct (threads w !! tid) as [P|] eqn:HP; [|discriminate].
  destruct (thread_step P r (shared w)) as [[[P' sh'] new]|] eqn:Ht; [|discriminate].
  intros [= <-] Hb. cbn. eapply thread_step_balanced; [|exact Ht|exact Hb].
  eapply Forall_lookup_1; eauto.
Qed.

Lemma run_balanced (acts : list Action) :
  forall w w', events_ok w -> slots_balanced (shared w) -> run w acts = Some w' ->
  slots_balanced (shared w').
Proof.
  induction acts as [|a acts IH]; cbn; intros w w' Hw Hb Hr.
  - inversion Hr; subst. exact Hb.
  - destruct (step w a) as [w1|] eqn:Hs; [|discriminate].
    apply (IH w1 w'); [eapply step_events; eauto | | exact Hr].
    eapply step_balanced; [apply Hw | exact Hs | exact Hb].
Qed.

(** ** Start before acquire, release before stop *)

Lemma permits_mono (P : Prog) :
  forall a b a' b', a <= a' -> b <= b' -> permits P a b -> permits P a' b'.
Proof.
  induction P as [r|msg e|X o k IH|X c k IH|child IHc k IHk|s body IHb k IHk| |];
    intros a b a' b' Ha Hb HP; cbn in *; auto.
  - destruct o; cbn in *; try (intros x; eapply IH; [exact Ha | exact Hb | apply HP]).
    + destruct HP as (a0 & -> & HK). destruct a' as [|a1]; [lia|].
      exists a1. split; [reflexivity|]. eapply IH; [| |exact HK]; lia.
    + eapply IH; [| |exact HP]; lia.
    + destruct HP as [He HK]. split; [exact He|]. eapply IH; [exact Ha | exact Hb | exact HK].
  - destruct c; cbn in *; try (intros x; eapply IH; [exact Ha | exact Hb | apply HP]).
    + intros x. eapply IH; [| |apply HP]; lia.
    + destruct HP as (b0 & -> & HK). destruct b' as [|b1]; [lia|].
      exists b1. split; [reflexivity|]. intros x. eapply IH; [| |apply HK]; lia.
  - destruct HP as [Hc Hk]. split; [exact Hc|]. eapply IHk; eauto.
  - destruct HP as [Hbody Hk]. split; [exact Hbody|]. eapply IHk; eauto.
Qed.

Lemma permits_in_loop (again after P : Prog) (a b : nat) :
  permits again a b -> permits after a b ->
  forall m n, permits P m n -> permits (in_loop again after P) (a + m) (b + n).
Proof.
  intros Ha Hb.
  induction P as [r|msg e|X o k IH|X c k IH|child IHc k IHk|s body IHb k IHk| |];
    intros m n HP; cbn in *; auto.
  - destruct o; cbn in *; try (intros x; apply IH; apply HP).
    + destruct HP as (m0 & -> & HK). exists (a + m0). split; [lia|]. apply IH, HK.
    + replace (S (b + n)) with (b + S n) by lia. apply IH, HP.
    + destruct HP as [He HK]. split; [exact He|]. apply IH, HK.
  - destruct c; cbn in *; try (intros x; apply IH; apply HP).
    + intros x. replace (S (a + m)) with (a + S m) by lia. apply IH, HP.
    + destruct HP as (n0 & -> & HK). exists (b + n0). split; [lia|].
      intros x. apply IH, HK.
  - destruct HP as [Hc Hk]. split; [exact Hc|]. apply IHk, Hk.
  - destruct HP as [Hbody Hk]. split; [exact Hbody|]. apply IHk, Hk.
  - eapply permits_mono; [| |exact Ha]; lia.
  - eapply permits_mono; [| |exact Hb]; lia.
Qed.

Lemma permits_write_frames (s : sid) (fs : list Frame) (k : Prog) (a b : nat) :
  permits k a b -> permits (write_frames s fs k) a b.
Proof.
  intros Hk. induction fs as [|[dst payload] fs IH]; cbn; auto.
Qed.

Lemma permits_Create (u : UserName) : permits (Create u) 0 0.
Proof.
  unfold Create. cbn. intros [resID err].
  destruct (IsConflict err).
  - cbn. intros [infoID [e|]]; cbn; auto.
  - destruct err; cbn; auto.
Qed.

Lemma permits_release (p : loc) (r : option error) : permits (release p r) 0 0.
Proof.
  unfold release. cbn. intros n. destruct (Nat.eqb n 0); cbn; [|exact I].
  intros id. exists 0. split; [reflexivity|]. intros [e|]; exact I.
Qed.

Lemma permits_attach (s : sid) (isTty : bool) (execID : string)
    (ret : option error -> Prog) :
  (forall r, permits (ret r) 0 0) -> permits (attach s isTty execID ret) 0 0.
Proof.
  intros Hret. unfold attach. cbn. intros [e|]; [apply Hret|].
  cbn. split; [|split].
  - intros [data rerr]. destruct isTty; cbn; [auto|].
    destruct (StdCopy data) as [fs derr]. apply permits_write_frames. cbn. auto.
  - intros data. cbn. auto.
  - intros [e|]; cbn; (split; [reflexivity | apply Hret]).
Qed.

Lemma permits_session (p : loc) (isTty : bool) (s : sid) : permits (session p isTty s) 0 0.
Proof.
  unfold session. cbn [permits op_permits call_permits]. intros n.
  destruct (Nat.leb 20 n); cbn [permits op_permits call_permits]; [exact I|].
  intros id err.
  destruct (if IsConflict err then None else err); cbn [permits op_permits call_permits];
    [exact I|].
  exists 0. split; [reflexivity|]. intros id' [execID [e|]].
  - apply permits_release.
  - assert (permits (attach s isTty execID (release p)) 0 0) as Ha
      by (apply permits_attach; intros; apply permits_release).
    destruct isTty; [|exact Ha].
    cbn [permits op_permits call_permits resizePump]. split; [|exact Ha].
    split; [|exact I]. intros w. unfold forward. cbn.
    intros [e|]; cbn; auto.
Qed.

Lemma permits_Connect (u : UserName) (isTty : bool) (s : sid) :
  permits (Connect u isTty s) 0 0.
Proof.
  unfold Connect. cbn [permits op_permits].
  intros [[p|t]|]; cbn [permits]; auto using permits_session.
Qed.

Lemma sum_fst_app (ps qs : list (nat * nat)) :
  sum_fst (ps ++ qs) = sum_fst ps + sum_fst qs.
Proof. induction ps as [|ab ps IH]; cbn; [reflexivity | rewrite IH; lia]. Qed.

Lemma sum_snd_app (ps qs : list (nat * nat)) :
  sum_snd (ps ++ qs) = sum_snd ps + sum_snd qs.
Proof. induction ps as [|ab ps IH]; cbn; [reflexivity | rewrite IH; lia]. Qed.

Lemma sum_insert (ps : list (nat * nat)) :
  forall i ab ab', ps !! i = Some ab ->
  sum_fst (<[i := ab']> ps) + fst ab = sum_fst ps + fst ab'
  /\ sum_snd (<[i := ab']> ps) + snd ab = sum_snd ps + snd ab'.
Proof.
  induction ps as [|c ps IH]; intros [|i] ab ab' Hi; try discriminate.
  - inversion Hi; subst. cbn [sum_fst sum_snd]. change (<[0 := ab']> (ab :: ps)) with (ab' :: ps).
    cbn [sum_fst sum_snd]. lia.
  - change (<[S i := ab']> (c :: ps)) with (c :: <[i := ab']> ps).
    cbn [sum_fst sum_snd]. destruct (IH i ab ab' Hi). lia.
Qed.

Lemma sum_zeros (new : list Prog) :
  sum_fst (List.map (fun _ => (0, 0)) new) = 0
  /\ sum_snd (List.map (fun _ => (0, 0)) new) = 0.
Proof. induction new as [|Q new IH]; cbn; [split; reflexivity | exact IH]. Qed.

Lemma not_slot_event (e : Event) :
  is_slot_event e = false ->
  is_any_start e = false /\ is_any_stop e = false
  /\ is_any_send e = false /\ is_any_recv e = false.
Proof. destruct e; cbn; intros H; try discriminate; auto. Qed.

(** What one step adds to the trace, and how the permits of the goroutine
    move with it. *)
Lemma do_op_permits {X : Type} (o : op X) (sh sh' : Shared) (x : X) (a b : nat)
    (K : X -> nat -> nat -> Prop) :
  op_permits o a b K -> do_op o sh = Some (x, sh') ->
  exists es a' b',
    trace sh' = (trace sh ++ es)%list /\ K x a' b'
    /\ count is_any_send es + a' <= a + count is_any_start es
    /\ count is_any_stop es + b' <= b + count is_any_recv es.
Proof.
  intros Ho Hd. destruct o; cbn in Hd, Ho.
  - inversion Hd; subst. exists [], a, b. rewrite app_nil_r. cbn. auto with lia.
  - inversion Hd; subst. exists [EvStore u v], a, b. cbn. auto with lia.
  - inversion Hd; subst. exists [], a, b. rewrite app_nil_r. cbn. auto with lia.
  - destruct (heap sh !! p); inversion Hd; subst.
    exists [], a, b. rewrite app_nil_r. cbn. auto with lia.
  - destruct (heap sh !! p); inversion Hd; subst.
    exists [], a, b. rewrite app_nil_r. cbn. auto with lia.
  - destruct (heap sh !! p) as [ci|]; [|discriminate].
    destruct (decide _); inversion Hd; subst. destruct Ho as (a0 & -> & HK).
    exists [EvSend p (S (chan_len (manageChan ci)))], a0, b. cbn. auto with lia.
  - destruct (heap sh !! p) as [ci|]; [|discriminate].
    destruct (chan_len (manageChan ci)) as [|n]; inversion Hd; subst.
    exists [EvRecv p n], a, (S b). cbn. auto with lia.
  - destruct (sessions sh !! s) as [ses|]; [|discriminate].
    destruct (outputErr ses); inversion Hd; subst.
    exists [], a, b. rewrite app_nil_r. cbn. auto with lia.
  - destruct (sessions sh !! s) as [ses|]; [|discriminate].
    destruct (outputErr ses); inversion Hd; subst.
    exists [], a, b. rewrite app_nil_r. cbn. auto with lia.
  - destruct (sessions sh !! s) as [ses|]; [|discriminate].
    destruct (stdinEOF ses); inversion Hd; subst.
    exists [], a, b. rewrite app_nil_r. cbn. auto with lia.
  - inversion Hd; subst. destruct Ho as [He HK].
    destruct (not_slot_event e He) as (H1 & H2 & H3 & H4).
    exists [e], a, b. cbn. rewrite H1, H2, H3, H4. auto with lia.
Qed.

Lemma call_permits_step {X : Type} (c : call X) (x : X) (a b : nat)
    (K : X -> nat -> nat -> Prop) :
  call_permits c a b K ->
  exists a' b',
    K x a' b'
    /\ count is_any_send [call_event c] + a' <= a + count is_any_start [call_event c]
    /\ count is_any_stop [call_event c] + b' <= b + count is_any_recv [call_event c].
Proof.
  intros Hc. destruct c; cbn in *;
    try (exists a, b; split; [apply Hc | lia]).
  - exists (S a), b. split; [apply Hc | lia].
  - destruct Hc as (b0 & -> & HK). exists a, b0. split; [apply HK | lia].
Qed.

Lemma thread_step_permits (P P' : Prog) (r : option Response) (sh sh' : Shared)
    (new : list Prog) (a b : nat) :
  permits P a b -> thread_step P r sh = Some (P', sh', new) ->
  exists es a' b',
    trace sh' = (trace sh ++ es)%list
    /\ permits P' a' b' /\ Forall (fun Q => permits Q 0 0) new
    /\ count is_any_send es + a' <= a + count is_any_start es
    /\ count is_any_stop es + b' <= b + count is_any_recv es.
Proof.
  intros HP Hs. destruct P as [r0|msg e|X o k|X c k|child k|s body k| |];
    cbn in Hs; try discriminate.
  - inversion Hs; subst. exists [EvFatalf msg e], a, b. cbn.
    split; [reflexivity|]. split; [exact I|]. split; [constructor | lia].
  - destruct (do_op o sh) as [[x sh1]|] eqn:Hd; [|discriminate].
    inversion Hs; subst. cbn in HP.
    destruct (do_op_permits _ _ _ _ _ _ _ HP Hd) as (es & a' & b' & Ht & HK & H1 & H2).
    exists es, a', b'. split; [exact Ht|]. split; [exact HK|]. split; [constructor | lia].
  - destruct r as [r|]; [|discriminate].
    destruct (reply_of c r) as [x|]; [|discriminate]. inversion Hs; subst. cbn in HP.
    destruct (call_permits_step c x _ _ _ HP) as (a' & b' & HK & H1 & H2).
    exists [call_event c], a', b'. split; [reflexivity|]. split; [exact HK|].
    split; [constructor | lia].
  - inversion Hs; subst. destruct HP as [Hc Hk]. exists [], a, b.
    rewrite app_nil_r. split; [reflexivity|]. split; [exact Hk|].
    split; [constructor; [exact Hc | constructor] | cbn; lia].
  - destruct HP as [Hbody Hk]. unfold win_recv in Hs.
    destruct (sessions sh !! s) as [ses|]; [|discriminate].
    destruct (winCh ses) as [|w ws]; [destruct (winClosed ses)|]; inversion Hs; subst.
    + exists [], a, b. rewrite app_nil_r. split; [reflexivity|]. split; [exact Hk|].
      split; [constructor | cbn; lia].
    + exists [], a, b. rewrite app_nil_r. split; [reflexivity|].
      split; [|split; [constructor | cbn; lia]].
      pose proof (permits_in_loop (ForRange s body k) k (body w) a b
                    (conj Hbody Hk) Hk 0 0 (Hbody w)) as H.
      rewrite !Nat.add_0_r in H. exact H.
Qed.

Lemma permits_new (new : list Prog) :
  Forall (fun Q => permits Q 0 0) new ->
  Forall2 (fun P ab => permits P (fst ab) (snd ab)) new (List.map (fun _ => (0, 0)) new).
Proof. induction 1; cbn; constructor; assumption. Qed.

Lemma step_permits (w w' : World) (a : Action) :
  permits_ok w -> step w a = Some w' -> permits_ok w'.
Proof.
  intros (ps & Hth & Hs1 & Hs2). unfold step.
  destruct (exited (shared w)) eqn:Hex; [discriminate|].
  destruct a; try solve [intros [= <-]; exists ps; cbn; auto].
  - intros [= <-]. exists (ps ++ [(0, 0)])%list. cbn.
    rewrite sum_fst_app, sum_snd_app. cbn. split; [|lia].
    apply Forall2_app; [exact Hth|]. constructor; [apply permits_Create | constructor].
  - intros [= <-]. exists (ps ++ [(0, 0)])%list. cbn.
    rewrite sum_fst_app, sum_snd_app. cbn. split; [|lia].
    apply Forall2_app; [exact Hth|]. constructor; [apply permits_Connect | constructor].
  - destruct (threads w !! tid) as [P|] eqn:HP; [|discriminate].
    destruct (thread_step P r (shared w)) as [[[P' sh'] new]|] eqn:Ht; [|discriminate].
    intros [= <-].
    destruct (Forall2_lookup_l _ _ _ _ _ Hth HP) as (ab & Hab & HPab).
    destruct (thread_step_permits _ _ _ _ _ _ _ _ HPab Ht)
      as (es & a' & b' & Htr & HP' & Hnew & H1 & H2).
    exists (<[tid := (a', b')]> ps ++ List.map (fun _ => (0, 0)) new)%list. cbn.
    split; [|rewrite Htr, !count_app, sum_fst_app, sum_snd_app;
             destruct (sum_insert ps tid ab (a', b') Hab) as [Hi1 Hi2];
             destruct (sum_zeros new) as [Hz1 Hz2]; cbn in Hi1, Hi2; lia].
    apply Forall2_app; [|apply permits_new, Hnew].
    apply Forall2_insert; [exact Hth | exact HP'].
Qed.

Lemma run_permits (acts : list Action) :
  forall w w', permits_ok w -> run w acts = Some w' -> permits_ok w'.
Proof.
  induction acts as [|a acts IH]; cbn; intros w w' Hw Hr.
  - inversion Hr; subst. exact Hw.
  - destruct (step w a) as [w1|] eqn:Hs; [|discriminate].
    eapply IH; [eapply step_permits; eauto | exact Hr].
Qed.

Lemma reachable_balanced (w : World) : reachable w -> slots_balanced (shared w).
Proof.
  intros [acts Hr]. eapply run_balanced; [| |exact Hr].
  - split; [split|]; cbn; [constructor | split; discriminate | constructor].
  - intros q. unfold slots. cbn. rewrite lookup_nil. reflexivity.
Qed.

(** X12. The order of start, acquire, release and stop. In every state
    the process can reach, under any interleaving and any answers of the
    runtime: the slots acquired (sends of line 129) never outnumber the
    start requests sent (line 125), so no session holds a slot without
    having asked for the start; the stop requests sent (line 134) never
    outnumber the slots given back (line 131), so the container is only
    asked to stop by a session that has left; and for every record the
    slots acquired are those given back plus those the channel holds. *)
Theorem slot_protocol (w : World) :
  reachable w ->
  count is_any_send (trace (shared w)) <= count is_any_start (trace (shared w))
  /\ count is_any_stop (trace (shared w)) <= count is_any_recv (trace (shared w))
  /\ (forall p, count (is_send p) (trace (shared w))
                = count (is_recv p) (trace (shared w)) + slots p (shared w)).
Proof.
  intros Hw. split; [|split].
  - destruct Hw as [acts Hr].
    destruct (run_permits acts init w) as (ps & _ & H1 & _); [|exact Hr|lia].
    exists []. cbn. split; [constructor | lia].
  - destruct Hw as [acts Hr].
    destruct (run_permits acts init w) as (ps & _ & _ & H2); [|exact Hr|lia].
    exists []. cbn. split; [constructor | lia].
  - apply reachable_balanced, Hw.
Qed.

Lemma slot_protocol_witness :
  count is_any_send (trace (shared (world_after double_stop)))
  <= count is_any_start (trace (shared (world_after double_stop)))
  /\ count is_any_stop (trace (shared (world_after double_stop)))
     <= count is_any_recv (trace (shared (world_after double_stop)))
  /\ (forall p, count (is_send p) (trace (shared (world_after double_stop)))
                = count (is_recv p) (trace (shared (world_after double_stop)))
                  + slots p (shared (world_after double_stop))).
Proof.
  apply (slot_protocol (world_after double_stop)).
  exists double_stop. vm_compute. reflexivity.
Defined.

(** ** Containers are started before they are used *)

Lemma ids_mono (P : Prog) :
  forall kn st kn' st', incl kn kn' -> incl st st' -> ids P kn st -> ids P kn' st'.
Proof.
  induction P as [r|msg e|X o k IH|X c k IH|child IHc k IHk|s body IHb k IHk| |];
    intros kn st kn' st' Hkn Hst HP; cbn in *; auto.
  - destruct o; cbn in *; try (intros x; eapply IH; [exact Hkn | exact Hst | apply HP]).
    + intros id Hid. eapply (IH id ((p, id) :: kn) st); [| exact Hst |].
      * intros q [<-|Hq]; [left; reflexivity | right; apply Hkn, Hq].
      * apply HP. intros id0 Hin. apply Hid, Hkn, Hin.
    + destruct HP as (H1 & H2 & HK). split; [exact H1|]. split; [exact H2|].
      eapply IH; [exact Hkn | exact Hst | exact HK].
  - destruct c; cbn in *; try (intros x; eapply IH; [exact Hkn | exact Hst | apply HP]).
    + destruct HP as [[p Hp] HK]. split; [exists p; apply Hkn, Hp|].
      intros x. eapply (IH x kn (id :: st)); [exact Hkn | | apply HK].
      intros q [<-|Hq]; [left; reflexivity | right; apply Hst, Hq].
    + destruct HP as [Hin HK]. split; [apply Hst, Hin|].
      intros x. eapply IH; [exact Hkn | exact Hst | apply HK].
    + destruct HP as [Hin HK]. split; [apply Hst, Hin|].
      intros x. eapply IH; [exact Hkn | exact Hst | apply HK].
  - destruct HP as [Hc Hk]. split; [exact Hc|]. eapply IHk; eauto.
  - destruct HP as [Hbody Hk]. split; [exact Hbody|]. eapply IHk; eauto.
Qed.

Lemma ids_in_loop (again after P : Prog) (kn : list (loc * string)) (st : list string) :
  ids again kn st -> ids after kn st ->
  forall kn0 st0, ids P kn0 st0 ->
  ids (in_loop again after P) (kn0 ++ kn) (st0 ++ st).
Proof.
  intros Ha Hb.
  induction P as [r|msg e|X o k IH|X c k IH|child IHc k IHk|s body IHb k IHk| |];
    intros kn0 st0 HP; cbn in *; auto.
  - destruct o; cbn in *; try (intros x; apply IH; apply HP).
    + intros id Hid. apply (IH id ((p, id) :: kn0) st0). apply HP.
      intros id0 Hin. apply Hid, in_or_app. left. exact Hin.
    + destruct HP as (H1 & H2 & HK). split; [exact H1|]. split; [exact H2|]. apply IH, HK.
  - destruct c; cbn in *; try (intros x; apply IH; apply HP).
    + destruct HP as [[p Hp] HK]. split; [exists p; apply in_or_app; left; exact Hp|].
      intros x. apply (IH x kn0 (id :: st0)), HK.
    + destruct HP as [Hin HK]. split; [apply in_or_app; left; exact Hin|].
      intros x. apply IH, HK.
    + destruct HP as [Hin HK]. split; [apply in_or_app; left; exact Hin|].
      intros x. apply IH, HK.
  - destruct HP as [Hc Hk]. split; [exact Hc|]. apply IHk, Hk.
  - destruct HP as [Hbody Hk]. split; [exact Hbody|]. apply IHk, Hk.
  - eapply ids_mono; [| |exact Ha]; apply incl_appr, incl_refl.
  - eapply ids_mono; [| |exact Hb]; apply incl_appr, incl_refl.
Qed.

Lemma ids_write_frames (s : sid) (fs : list Frame) (k : Prog) kn st :
  ids k kn st -> ids (write_frames s fs k) kn st.
Proof.
  intros Hk. induction fs as [|[dst payload] fs IH]; cbn; auto.
Qed.

Lemma ids_Create (u : UserName) : ids (Create u) [] [].
Proof.
  unfold Create. cbn. intros [resID err].
  destruct (IsConflict err).
  - cbn. intros [infoID [e|]]; cbn; auto.
  - destruct err; cbn; auto.
Qed.

Lemma ids_release (p : loc) (r : option error) (id : string) kn st :
  In (p, id) kn -> In id st -> ids (release p r) kn st.
Proof.
  intros Hkn Hst. unfold release. cbn. intros _ n. destruct (Nat.eqb n 0); cbn; [|exact I].
  intros id' Hid. pose proof (Hid id Hkn) as <-.
  split; [exact Hst|]. intros [e|]; exact I.
Qed.

Lemma ids_attach (s : sid) (isTty : bool) (execID : string)
    (ret : option error -> Prog) kn st :
  (forall r, ids (ret r) kn st) -> ids (attach s isTty execID ret) kn st.
Proof.
  intros Hret. unfold attach. cbn. intros [e|]; [apply Hret|].
  cbn. split; [|split].
  - intros [data rerr]. destruct isTty; cbn; [auto|].
    destruct (StdCopy data) as [fs derr]. apply ids_write_frames. cbn. auto.
  - intros data. cbn. auto.
  - intros [e|]; cbn; (split; [reflexivity|]; split; [reflexivity | apply Hret]).
Qed.

Lemma ids_session (p : loc) (isTty : bool) (s : sid) : ids (session p isTty s) [] [].
Proof.
  unfold session. cbn [ids op_ids call_ids]. intros n.
  destruct (Nat.leb 20 n); cbn [ids op_ids call_ids]; [exact I|].
  intros id _. split; [exists p; left; reflexivity|]. intros err.
  destruct (if IsConflict err then None else err); cbn [ids op_ids call_ids];
    [exact I|].
  intros _ id' Hid. pose proof (Hid id (or_introl eq_refl)) as <-.
  split; [left; reflexivity|]. intros [execID [e|]].
  - apply (ids_release p _ id); [right; left; reflexivity | left; reflexivity].
  - assert (ids (attach s isTty execID (release p)) [(p, id); (p, id)] [id]) as Ha.
    { apply ids_attach. intros r.
      apply (ids_release p _ id); [left; reflexivity | left; reflexivity]. }
    destruct isTty; [|exact Ha].
    cbn [ids op_ids call_ids resizePump]. split; [|exact Ha].
    split; [|exact I]. intros w. unfold forward. cbn.
    intros [e|]; cbn; auto.
Qed.

Lemma ids_Connect (u : UserName) (isTty : bool) (s : sid) : ids (Connect u isTty s) [] [].
Proof.
  unfold Connect. cbn [ids op_ids].
  intros [[p|t]|]; cbn [ids]; auto using ids_session.
Qed.

Lemma knows_stable (kn : list (loc * string)) (st : list string) (sh sh' : Shared) :
  records_persist sh sh' ->
  (forall e, In e (trace sh) -> In e (trace sh')) ->
  knows kn st sh -> knows kn st sh'.
Proof.
  intros Hrec Htr [Hkn Hst]. split.
  - intros p id Hin. destruct (Hkn p id Hin) as (ci & Hp & Hid).
    destruct (Hrec p ci Hp) as (ci' & Hp' & Hid' & _). exists ci'. split; congruence.
  - intros id Hin. apply Htr, Hst, Hin.
Qed.

Lemma started_first_snoc (tr : list Event) (e : Event) :
  started_first tr ->
  (forall id, needs_start e = Some id -> In (EvContainerStart id) tr) ->
  started_first (tr ++ [e]).
Proof.
  intros Htr He tr1 e1 tr2 id Heq Hn.
  induction tr2 as [|e2 tr2' _] using rev_ind.
  - apply app_inj_tail in Heq as [<- <-]. apply He, Hn.
  - rewrite app_comm_cons, app_assoc in Heq. apply app_inj_tail in Heq as [-> _].
    eapply Htr; [reflexivity | exact Hn].
Qed.

Lemma started_first_app (tr es : list Event) :
  started_first tr ->
  (forall e id, In e es -> needs_start e = Some id -> In (EvContainerStart id) tr) ->
  started_first (tr ++ es).
Proof.
  revert tr. induction es as [|e es IH]; intros tr Htr Hes.
  - rewrite app_nil_r. exact Htr.
  - change (tr ++ e :: es)%list with (tr ++ [e] ++ es)%list. rewrite app_assoc.
    apply IH.
    + apply started_first_snoc; [exact Htr|]. intros id. apply Hes. left. reflexivity.
    + intros e' id Hin Hn. apply in_or_app. left. eapply Hes; [right; exact Hin | exact Hn].
Qed.

Lemma do_op_ids {X : Type} (o : op X) (sh sh' : Shared) (x : X)
    (kn : list (loc * string)) (st : list string)
    (K : X -> list (loc * string) -> Prop) :
  op_ids o kn K -> knows kn st sh -> do_op o sh = Some (x, sh') ->
  exists kn' es,
    K x kn' /\ knows kn' st sh' /\ trace sh' = (trace sh ++ es)%list
    /\ (forall e, In e es -> needs_start e = None /\ started_id e = None).
Proof.
  intros Ho Hk Hd.
  assert (forall es, trace sh' = (trace sh ++ es)%list -> knows kn st sh') as Hst.
  { intros es Hes. eapply knows_stable; [eapply do_op_persist, Hd | | exact Hk].
    intros e He. rewrite Hes. apply in_or_app. left. exact He. }
  destruct o; cbn in Hd, Ho.
  - inversion Hd; subst. exists kn, []. rewrite app_nil_r. split; [apply Ho|].
    split; [exact Hk|]. split; [reflexivity | intros e' []].
  - inversion Hd; subst. exists kn, [EvStore u v].
    split; [apply Ho|]. split; [apply (Hst [EvStore u v]); reflexivity|].
    split; [reflexivity|]. intros e' [<-|[]]. split; reflexivity.
  - inversion Hd; subst. exists kn, []. rewrite app_nil_r. split; [apply Ho|].
    split; [apply (Hst []); cbn; rewrite app_nil_r; reflexivity|].
    split; [reflexivity | intros e' []].
  - destruct (heap sh !! p) as [ci|] eqn:Hp; inversion Hd; subst.
    exists ((p, ctnID ci) :: kn), []. rewrite app_nil_r.
    destruct Hk as [Hkn Hs].
    split; [|split; [split|split; [reflexivity | intros e' []]]].
    + apply Ho. intros id0 Hin. destruct (Hkn p id0 Hin) as (ci0 & Hp0 & <-). congruence.
    + intros q id [[= <- <-]|Hin]; [eauto | apply Hkn, Hin].
    + exact Hs.
  - destruct (heap sh !! p); inversion Hd; subst.
    exists kn, []. rewrite app_nil_r. split; [apply Ho|].
    split; [exact Hk|]. split; [reflexivity | intros e' []].
  - destruct (heap sh !! p) as [ci|]; [|discriminate].
    destruct (decide _); inversion Hd; subst.
    exists kn, [EvSend p (S (chan_len (manageChan ci)))].
    split; [apply Ho|]. split; [eapply Hst; reflexivity|].
    split; [reflexivity|]. intros e' [<-|[]]. split; reflexivity.
  - destruct (heap sh !! p) as [ci|]; [|discriminate].
    destruct (chan_len (manageChan ci)) as [|n]; inversion Hd; subst.
    exists kn, [EvRecv p n].
    split; [apply Ho|]. split; [eapply Hst; reflexivity|].
    split; [reflexivity|]. intros e' [<-|[]]. split; reflexivity.
  - destruct (sessions sh !! s) as [ses|]; [|discriminate].
    destruct (outputErr ses); inversion Hd; subst.
    exists kn, []. rewrite app_nil_r. split; [apply Ho|].
    split; [exact Hk|]. split; [reflexivity | intros e' []].
  - destruct (sessions sh !! s) as [ses|]; [|discriminate].
    destruct (outputErr ses); inversion Hd; subst.
    exists kn, []. rewrite app_nil_r. split; [apply Ho|].
    split; [exact Hk|]. split; [reflexivity | intros e' []].
  - destruct (sessions sh !! s) as [ses|]; [|discriminate].
    destruct (stdinEOF ses); inversion Hd; subst.
    exists kn, []. rewrite app_nil_r. split; [apply Ho|].
    split; [exact Hk|]. split; [reflexivity | intros e' []].
  - inversion Hd; subst. destruct Ho as (H1 & H2 & HK). exists kn, [e].
    split; [exact HK|]. split; [eapply Hst; reflexivity|].
    split; [reflexivity|]. intros e' [<-|[]]. split; assumption.
Qed.

Lemma knows_emit (kn : list (loc * string)) (st : list string) (sh : Shared) (e : Event) :
  knows kn st sh -> knows kn st (emit e sh).
Proof.
  apply knows_stable.
  - apply records_persist_refl. reflexivity.
  - intros e' He. cbn. apply in_or_app. left. exact He.
Qed.

(** A request: the container it names was asked to start, or is that of a
    record when the request is the start itself. *)
Lemma call_ids_step {X : Type} (c : call X) (x : X) (sh : Shared)
    (kn : list (loc * string)) (st : list string) (K : X -> list string -> Prop) :
  call_ids c kn st K -> knows kn st sh ->
  exists st',
    K x st' /\ knows kn st' (emit (call_event c) sh)
    /\ (forall id, needs_start (call_event c) = Some id ->
          In (EvContainerStart id) (trace sh))
    /\ (forall id, started_id (call_event c) = Some id ->
          exists p ci, heap sh !! p = Some ci /\ ctnID ci = id).
Proof.
  intros Hc Hk. pose proof (knows_emit kn st sh (call_event c) Hk) as Hk'.
  destruct c; cbn in Hc;
    try (exists st; split; [apply Hc|]; split; [exact Hk'|];
         split; intros id0 H0; discriminate H0).
  - destruct Hc as [[p Hp] HK]. exists (id :: st). split; [apply HK|].
    destruct Hk as [Hkn Hs]. split; [split|split].
    + apply Hk'.
    + intros id0 [<-|Hin]; cbn; apply in_or_app;
        [right; left; reflexivity | left; apply Hs, Hin].
    + intros id0 H0. discriminate H0.
    + intros id0 [= <-]. destruct (Hkn p id Hp) as (ci & Hci & Hid). eauto.
  - destruct Hc as [Hin HK]. exists st. split; [apply HK|]. split; [exact Hk'|].
    split; [|intros id0 H0; discriminate H0].
    intros id0 [= <-]. apply Hk, Hin.
  - destruct Hc as [Hin HK]. exists st. split; [apply HK|]. split; [exact Hk'|].
    split; [|intros id0 H0; discriminate H0].
    intros id0 [= <-]. apply Hk, Hin.
Qed.

Lemma knows_nil (sh : Shared) : knows [] [] sh.
Proof. split; [intros p id [] | intros id []]. Qed.

Lemma thread_step_ids (P P' : Prog) (r : option Response) (sh sh' : Shared)
    (new : list Prog) (kn : list (loc * string)) (st : list string) :
  ids P kn st -> knows kn st sh -> thread_step P r sh = Some (P', sh', new) ->
  exists kn' st' es,
    ids P' kn' st' /\ knows kn' st' sh' /\ Forall (fun Q => ids Q [] []) new
    /\ trace sh' = (trace sh ++ es)%list
    /\ (forall e id, In e es -> needs_start e = Some id ->
          In (EvContainerStart id) (trace sh))
    /\ (forall e id, In e es -> started_id e = Some id ->
          exists p ci, heap sh !! p = Some ci /\ ctnID ci = id).
Proof.
  intros HP Hk Hs. destruct P as [r0|msg e|X o k|X c k|child k|s body k| |];
    cbn in Hs; try discriminate.
  - inversion Hs; subst. exists kn, st, [EvFatalf msg e].
    split; [exact I|]. split; [exact (knows_emit kn st sh _ Hk)|]. split; [constructor|].
    split; [reflexivity|]. split; intros e' id [<-|[]] H0; discriminate H0.
  - destruct (do_op o sh) as [[x sh1]|] eqn:Hd; [|discriminate].
    inversion Hs; subst. cbn in HP.
    destruct (do_op_ids _ _ _ _ _ st _ HP Hk Hd) as (kn' & es & HK & Hk' & Ht & Hes).
    exists kn', st, es. split; [exact HK|]. split; [exact Hk'|]. split; [constructor|].
    split; [exact Ht|].
    split; intros e' id Hin H0; destruct (Hes e' Hin) as [H1 H2]; congruence.
  - destruct r as [r|]; [|discriminate].
    destruct (reply_of c r) as [x|]; [|discriminate]. inversion Hs; subst. cbn in HP.
    destruct (call_ids_step c x sh kn st _ HP Hk) as (st' & HK & Hk' & H1 & H2).
    exists kn, st', [call_event c]. split; [exact HK|]. split; [exact Hk'|].
    split; [constructor|]. split; [reflexivity|].
    split; intros e' id [<-|[]] H0; auto.
  - inversion Hs; subst. destruct HP as [Hc Hk0]. exists kn, st, [].
    rewrite app_nil_r. split; [exact Hk0|]. split; [exact Hk|].
    split; [constructor; [exact Hc | constructor]|].
    split; [reflexivity|]. split; intros e' id [].
  - destruct HP as [Hbody Hk0]. unfold win_recv in Hs.
    destruct (sessions sh !! s) as [ses|]; [|discriminate].
    destruct (winCh ses) as [|w ws]; [destruct (winClosed ses)|]; inversion Hs; subst.
    + exists kn, st, []. rewrite app_nil_r. split; [exact Hk0|]. split; [exact Hk|].
      split; [constructor|]. split; [reflexivity|]. split; intros e' id [].
    + exists kn, st, []. rewrite app_nil_r.
      split; [exact (ids_in_loop (ForRange s body k) k (body w) kn st
                       (conj Hbody Hk0) Hk0 [] [] (Hbody w))|].
      split; [exact Hk|].
      split; [constructor|]. split; [reflexivity|]. split; intros e' id [].
Qed.

Lemma step_ids (w w' : World) (a : Action) :
  ids_ok w -> step w a = Some w' -> ids_ok w'.
Proof.
  intros (Hfirst & Hreg & Hth). unfold step.
  destruct (exited (shared w)) eqn:Hex; [discriminate|].
  destruct a; try solve [intros [= <-]; split; [exact Hfirst|]; split; [exact Hreg|]; exact Hth].
  - intros [= <-]. split; [exact Hfirst|]. split; [exact Hreg|]. cbn.
    apply Forall_app. split; [exact Hth|].
    constructor; [|constructor]. exists [], [].
    split; [apply ids_Create | apply knows_nil].
  - intros [= <-]. split; [exact Hfirst|]. split; [exact Hreg|]. cbn.
    apply Forall_app. split; [exact Hth|].
    constructor; [|constructor]. exists [], [].
    split; [apply ids_Connect | apply knows_nil].
  - destruct (threads w !! tid) as [P|] eqn:HP; [|discriminate].
    destruct (thread_step P r (shared w)) as [[[P' sh'] new]|] eqn:Ht; [|discriminate].
    intros [= <-].
    destruct (Forall_lookup_1 _ _ _ _ Hth HP) as (kn & st & HPids & HPk).
    destruct (thread_step_ids _ _ _ _ _ _ _ _ HPids HPk Ht)
      as (kn' & st' & es & HP' & Hk' & Hnew & Htr & Hneed & Hstart).
    pose proof (thread_step_persist _ _ _ _ _ _ Ht) as Hrec.
    assert (forall e, In e (trace (shared w)) -> In e (trace sh')) as Hsub
      by (intros e He; rewrite Htr; apply in_or_app; left; exact He).
    split; [|split]; cbn.
    + rewrite Htr. apply started_first_app; assumption.
    + intros id Hin. rewrite Htr in Hin. apply in_app_or in Hin.
      assert (exists p ci, heap (shared w) !! p = Some ci /\ ctnID ci = id)
        as (p & ci & Hp & Hid)
        by (destruct Hin as [Hin|Hin]; [apply Hreg, Hin | eapply Hstart; [exact Hin | reflexivity]]).
      destruct (Hrec p ci Hp) as (ci' & Hp' & Hid' & _). exists p, ci'. split; congruence.
    + apply Forall_app. split.
      * apply Forall_insert; [|exists kn', st'; split; assumption].
        eapply Forall_impl; [exact Hth|]. intros Q (knQ & stQ & HQ & HkQ).
        exists knQ, stQ. split; [exact HQ|]. eapply knows_stable; eassumption.
      * eapply Forall_impl; [exact Hnew|]. intros Q HQ. exists [], [].
        split; [exact HQ | apply knows_nil].
Qed.

Lemma run_ids (acts : list Action) :
  forall w w', ids_ok w -> run w acts = Some w' -> ids_ok w'.
Proof.
  induction acts as [|a acts IH]; cbn; intros w w' Hw Hr.
  - inversion Hr; subst. exact Hw.
  - destruct (step w a) as [w1|] eqn:Hs; [|discriminate].
    eapply IH; [eapply step_ids; eauto | exact Hr].
Qed.

Lemma reachable_ids (w : World) : reachable w -> ids_ok w.
Proof.
  intros [acts Hr]. eapply run_ids; [|exact Hr].
  split; [|split]; cbn.
  - intros tr1 e tr2 id Heq. destruct tr1; discriminate Heq.
  - intros id [].
  - constructor.
Qed.

(** X5. Containers are used only after they were asked to start, and only
    registered containers are started. In every state the process can
    reach, under any interleaving and any answers of the runtime: before
    every stop request (line 134) and before every creation of an execution
    (line 141) the log holds a start request for the same container
    (line 125), and every container that was asked to start is the
    container of a record that exists. This rests on records keeping their
    id: a session reads the id three times, and a [Create] in between
    replaces the registry entry but not the record. *)
Theorem started_before_use (w : World) :
  reachable w ->
  (forall tr1 tr2 id t,
     trace (shared w) = (tr1 ++ EvContainerStop id t :: tr2)%list ->
     In (EvContainerStart id) tr1)
  /\ (forall tr1 tr2 id,
        trace (shared w) = (tr1 ++ EvContainerExecCreate id :: tr2)%list ->
        In (EvContainerStart id) tr1)
  /\ (forall id, In (EvContainerStart id) (trace (shared w)) ->
        exists p ci, heap (shared w) !! p = Some ci /\ ctnID ci = id).
Proof.
  intros Hw. destruct (reachable_ids w Hw) as (Hfirst & Hreg & _).
  split; [|split].
  - intros tr1 tr2 id t Heq. eapply Hfirst; [exact Heq | reflexivity].
  - intros tr1 tr2 id Heq. eapply Hfirst; [exact Heq | reflexivity].
  - exact Hreg.
Qed.

Lemma started_before_use_witness :
  (forall tr1 tr2 id t,
     trace (shared (world_after double_stop)) = (tr1 ++ EvContainerStop id t :: tr2)%list ->
     In (EvContainerStart id) tr1)
  /\ (forall tr1 tr2 id,
        trace (shared (world_after double_stop))
        = (tr1 ++ EvContainerExecCreate id :: tr2)%list ->
        In (EvContainerStart id) tr1)
  /\ (forall id, In (EvContainerStart id) (trace (shared (world_after double_stop))) ->
        exists p ci, heap (shared (world_after double_stop)) !! p = Some ci /\ ctnID ci = id).
Proof.
  apply (started_before_use (world_after double_stop)).
  exists double_stop. vm_compute. reflexivity.
Defined.
